(** * RBAC policy engine: shallow embedding and verification

    The development follows the TypeScript sources of the RBAC extension:
    [session-key-parser.ts], [config.ts], [role-resolver.ts], [tool-guard.ts],
    [rate-limiter.ts] and [command-guard.ts].

    Conventions of the embedding.
    - A JavaScript string is a [string]; every [ascii] is one code unit in the
      range U+0000..U+00FF.  On that range [trim] and [toLowerCase] are given
      by explicit tables; all other string operations used by the sources
      ([startsWith], [endsWith], [slice], [indexOf], [split], [length]) are
      code-unit operations and are modelled as such.
    - A document handed to the loader is a tree of own properties, as
      [JSON.parse] builds it; the fields of an object are listed in
      [Object.entries] order.
    - The objects the loader builds ([roles], [toolGroups]) are created as
      [{}] and filled by assignment.  Their own properties are an association
      list in [Object.entries] order ([roles]) or a [gmap] ([toolGroups],
      only used through lookup).  A read [obj[k]] follows the prototype
      chain, so it also finds the members of [Object.prototype]; an
      assignment under the name [__proto__] replaces the prototype.
    - A [Map] is a [gmap].
    - [Date.now()] is an explicit argument [now], in milliseconds.
    - Module-level mutable state (the pending block, the limiter's table) is
      threaded explicitly: an operation returns its result and the new state. *)

From stdpp Require Import base option list gmap strings pretty.
From Stdlib Require Import Ascii ZArith Lia.

(** ** JavaScript string and array primitives *)

Module JS.

(** [s.length] *)
Definition len (s : string) : nat := String.length s.

(** [s.startsWith(p)] *)
Fixpoint startsWith (s p : string) : bool :=
  match p, s with
  | EmptyString, _ => true
  | String _ _, EmptyString => false
  | String b p', String a s' => if Ascii.eqb a b then startsWith s' p' else false
  end.

(** [s.slice(k)] for [0 <= k] *)
Fixpoint sliceFrom (k : nat) (s : string) : string :=
  match k, s with
  | O, _ => s
  | S _, EmptyString => EmptyString
  | S k', String _ s' => sliceFrom k' s'
  end.

(** [s.slice(0, k)] for [0 <= k] *)
Fixpoint sliceTo (k : nat) (s : string) : string :=
  match k, s with
  | O, _ => EmptyString
  | S _, EmptyString => EmptyString
  | S k', String a s' => String a (sliceTo k' s')
  end.

(** [s.slice(0, -1)]: everything but the last code unit *)
Definition dropLast (s : string) : string := sliceTo (len s - 1) s.

(** [s.endsWith(p)] *)
Definition endsWith (s p : string) : bool :=
  (len p <=? len s)%nat && String.eqb (sliceFrom (len s - len p) s) p.

(** [s.indexOf(c)] for a one-unit needle; [None] stands for [-1] *)
Fixpoint indexOf (c : ascii) (s : string) : option nat :=
  match s with
  | EmptyString => None
  | String a s' => if Ascii.eqb a c then Some O else S <$> indexOf c s'
  end.

(** [s.split(c)] for a one-unit separator; the result is never empty *)
Fixpoint split (c : ascii) (s : string) : list string :=
  match s with
  | EmptyString => [EmptyString]
  | String a s' =>
      if Ascii.eqb a c then EmptyString :: split c s'
      else match split c s' with
           | seg :: segs => String a seg :: segs
           | [] => [String a EmptyString]
           end
  end.

(** [segs.join(c)] *)
Fixpoint join (c : ascii) (segs : list string) : string :=
  match segs with
  | [] => EmptyString
  | [seg] => seg
  | seg :: segs' => seg +:+ String c (join c segs')
  end.

(** White space removed by [trim], restricted to U+0000..U+00FF:
    TAB, LF, VT, FF, CR, SPACE and NO-BREAK SPACE. *)
Definition isWhiteSpace (a : ascii) : bool :=
  let n := nat_of_ascii a in
  ((9 <=? n) && (n <=? 13) || (n =? 32) || (n =? 160))%nat.

Fixpoint trimStart (s : string) : string :=
  match s with
  | EmptyString => EmptyString
  | String a s' => if isWhiteSpace a then trimStart s' else s
  end.

Fixpoint trimEnd (s : string) : string :=
  match s with
  | EmptyString => EmptyString
  | String a s' =>
      match trimEnd s' with
      | EmptyString => if isWhiteSpace a then EmptyString else String a EmptyString
      | t => String a t
      end
  end.

(** [s.trim()] *)
Definition trim (s : string) : string := trimEnd (trimStart s).

(** Lower-case mapping on U+0000..U+00FF: A-Z, and U+00C0..U+00DE except
    the multiplication sign U+00D7, move up by 32. *)
Definition lowerUnit (a : ascii) : ascii :=
  let n := nat_of_ascii a in
  if ((65 <=? n) && (n <=? 90) || (192 <=? n) && (n <=? 222) && negb (n =? 215))%nat
  then ascii_of_nat (n + 32) else a.

(** [s.toLowerCase()] *)
Fixpoint toLowerCase (s : string) : string :=
  match s with
  | EmptyString => EmptyString
  | String a s' => String (lowerUnit a) (toLowerCase s')
  end.

(** [arr.includes(x)] on an array of strings *)
Definition includes (arr : list string) (x : string) : bool :=
  bool_decide (x ∈ arr).

(** Truthiness of a string: only the empty string is falsy. *)
Definition truthy (s : string) : bool := negb (String.eqb s EmptyString).

(** [[...s]]: the code units of a string, each a string of its own. *)
Fixpoint units (s : string) : list string :=
  match s with
  | EmptyString => []
  | String a s' => String a EmptyString :: units s'
  end.

(** The string-named members of [Object.prototype], which every object
    created by [{}] inherits.  All are functions, except the accessor
    [__proto__], which reads and replaces the prototype of the object it is
    used on. *)
Definition objectPrototypeNames : list string :=
  ["constructor"; "hasOwnProperty"; "isPrototypeOf"; "propertyIsEnumerable";
   "toLocaleString"; "toString"; "valueOf";
   "__defineGetter__"; "__defineSetter__"; "__lookupGetter__"; "__lookupSetter__";
   "__proto__"].

(** The string-named members of [Array.prototype] in ECMAScript 2023, its
    [length] apart; all are functions. *)
Definition arrayPrototypeNames : list string :=
  ["at"; "concat"; "constructor"; "copyWithin"; "entries"; "every"; "fill";
   "filter"; "find"; "findIndex"; "findLast"; "findLastIndex"; "flat"; "flatMap";
   "forEach"; "includes"; "indexOf"; "join"; "keys"; "lastIndexOf"; "map"; "pop";
   "push"; "reduce"; "reduceRight"; "reverse"; "shift"; "slice"; "some"; "sort";
   "splice"; "toLocaleString"; "toReversed"; "toSorted"; "toSpliced"; "toString";
   "unshift"; "values"; "with"].

(** [arr[k]] for a property name [k], when [k] is the name of an index of
    the array; the name of the index [i] is its decimal numeral.  [i] is the
    index of the head of [arr]. *)
Fixpoint atIndexFrom {A : Type} (i : nat) (k : string) (arr : list A) : option A :=
  match arr with
  | [] => None
  | x :: rest => if String.eqb (pretty i) k then Some x else atIndexFrom (S i) k rest
  end.

Definition atIndexName {A : Type} (k : string) (arr : list A) : option A :=
  atIndexFrom 0 k arr.

End JS.

(** ** session-key-parser.ts *)

Module SessionKeyParser.

Inductive PeerKind := Direct | Group | Channel.

Record ParsedSessionKey := {
  peerId : string;
  channel : option string;
  peerKind : PeerKind
}.

(** [PEER_KINDS.has(seg)], together with the cast of [seg] to the union
    type of the three literals. *)
Definition PEER_KINDS (seg : string) : option PeerKind :=
  if String.eqb seg "direct" then Some Direct
  else if String.eqb seg "group" then Some Group
  else if String.eqb seg "channel" then Some Channel
  else None.

(** The [for (let i = 2; i < parts.length - 1; i++)] loop, entered at
    index [i]; [fuel] bounds the number of iterations. *)
Fixpoint scan (parts : list string) (fuel i : nat) : option ParsedSessionKey :=
  match fuel with
  | O => None
  | S fuel' =>
      if bool_decide (i < length parts - 1) then
        match parts !! i with
        | Some seg =>
            match PEER_KINDS seg with
            | Some kind =>
                match parts !! (i + 1) with
                | Some pid =>
                    if JS.truthy pid then
                      Some {| peerId := pid;
                              channel := if bool_decide (3 ≤ i) then parts !! 2 else None;
                              peerKind := kind |}
                    else None
                | None => None
                end
            | None => scan parts fuel' (S i)
            end
        | None => None
        end
      else None
  end.

Definition parseSessionKey (sessionKey : string) : option ParsedSessionKey :=
  let parts := JS.split ":"%char sessionKey in
  if bool_decide (length parts < 4) then None
  else scan parts (length parts) 2.

(** What the loop returns when it stops at index [i] on a peer kind. *)
Definition resultAt (parts : list string) (i : nat) (kind : PeerKind)
  : option ParsedSessionKey :=
  match parts !! (i + 1) with
  | Some pid =>
      if JS.truthy pid then
        Some {| peerId := pid;
                channel := if bool_decide (3 ≤ i) then parts !! 2 else None;
                peerKind := kind |}
      else None
  | None => None
  end.

(** No segment at an index in [[lo, hi)] is a peer kind. *)
Definition noKindBetween (parts : list string) (lo hi : nat) : Prop :=
  ∀ j seg, lo ≤ j < hi → parts !! j = Some seg → PEER_KINDS seg = None.

(** Rendering of a peer kind inside a session key. *)
Definition kindName (k : PeerKind) : string :=
  match k with Direct => "direct" | Group => "group" | Channel => "channel" end.

(** A segment of a session key: a string without the separator. *)
Definition segment (s : string) : Prop := JS.indexOf ":"%char s = None.

(** The session-key shapes with a peer listed in the header of the parser:
    per-peer, per-channel-peer (which covers the group and channel keys)
    and per-account-channel-peer. *)
Definition perPeerKey (agent : string) (k : PeerKind) (peer : string) : string :=
  JS.join ":"%char ["agent"; agent; kindName k; peer].
Definition perChannelPeerKey (agent chan : string) (k : PeerKind) (peer : string) : string :=
  JS.join ":"%char ["agent"; agent; chan; kindName k; peer].
Definition perAccountChannelPeerKey (agent chan account : string) (k : PeerKind) (peer : string) : string :=
  JS.join ":"%char ["agent"; agent; chan; account; kindName k; peer].

End SessionKeyParser.

(** ** config.ts *)

Module Config.

#[local] Set Warnings "-register-all".

(** An untyped document value, as handed to the loader.  The fields of an
    object are listed in [Object.entries] order. *)
Inductive JValue :=
| JUndefined
| JNull
| JBool (b : bool)
| JNum (n : Z)
| JStr (s : string)
| JArr (items : list JValue)
| JObj (fields : list (string * JValue)).

(** [string[] | "*"] *)
Inductive ListOrStar :=
| Star
| Items (items : list string).

Record RBACRoleConfig := {
  users : ListOrStar;
  tools : ListOrStar;
  channels : ListOrStar
}.

(** [action] has the single value ["suppress-logs"] and is left out. *)
Record RateLimitConfig := { maxBlockedPerMinute : Z }.

Inductive Mode := Blocklist | Allowlist.

Record SystemCommandsConfig := {
  mode : Mode;
  blocked : list string;
  allowed : list string;
  guestHelp : option string;
  blockResponse : string
}.

Inductive FailSafe := Deny | Allow.

(** The two warnings the loader records, each with the role it is about. *)
Inductive Warning :=
| EmptyTools (roleName : string)
| EmptyChannels (roleName : string).

(** The object [roles] of a policy.  It is created as [{}] and filled by
    assignments [roles[roleName] = role]; [ownRoles] holds its own properties
    in [Object.entries] order.  An assignment under the name [__proto__] runs
    the setter inherited from [Object.prototype]: it makes the assigned role
    the prototype of [roles] and adds no property.  [rolesProto] is that
    role, and [None] while the prototype is [Object.prototype] itself. *)
Record Roles := {
  ownRoles : list (string * RBACRoleConfig);
  rolesProto : option RBACRoleConfig
}.

(** The object [toolGroups] of a policy, built in the same way; the
    prototype set by an assignment under [__proto__] is an array of tool
    names. *)
Record ToolGroups := {
  ownGroups : gmap string (list string);
  groupsProto : option (list string)
}.

Record RBACConfig := {
  roles : Roles;
  defaultRole : string;
  logBlocked : bool;
  logAllowed : bool;
  failSafe : FailSafe;
  toolGroups : ToolGroups;
  rateLimit : option RateLimitConfig;
  systemCommands : option SystemCommandsConfig;
  warnings : list Warning
}.

(** The errors the loader throws, one constructor per [throw] site, with
    the values interpolated into the message. *)
Inductive LoadError :=
| MustBeObject (label : string)
| BadUsers (roleName : string)
| BadTools (roleName : string)
| BadChannels (roleName : string)
| BadToolGroup (name : string)
| BadRateLimit
| BadMode
| BadBlocked
| BlockedRequired
| BadAllowed
| AllowedRequired
| BadGuestHelp
| BadBlockResponse
| BadFailSafe (value : JValue)
| WildcardBeforeSpecific (firstWildcardRole roleName : string)
| NoRoles
| DefaultRoleNotFound (defaultRole : string)
| UnknownToolGroup (roleName tool : string).

(** Loading either throws or returns. *)
Definition Result (A : Type) : Type := LoadError + A.

#[global] Instance result_ret : MRet Result := λ A a, inr a.
#[global] Instance result_bind : MBind Result :=
  λ A B f r, match r with inl e => inl e | inr a => f a end.

Definition throw {A : Type} (e : LoadError) : Result A := inl e.

(** [obj[k]] on own properties; a missing property reads as [undefined].
    This is the whole read for a document and for the member names the
    sources read from one, none of which [Object.prototype] has. *)
Fixpoint getProp {A : Type} (k : string) (fields : list (string * A)) : option A :=
  match fields with
  | [] => None
  | (k', v) :: rest => if String.eqb k' k then Some v else getProp k rest
  end.

Definition get (k : string) (fields : list (string * JValue)) : JValue :=
  default JUndefined (getProp k fields).

(** [obj[k] = v]: overwrite in place, or append a new property. *)
Fixpoint setProp {A : Type} (k : string) (v : A) (fields : list (string * A))
  : list (string * A) :=
  match fields with
  | [] => [(k, v)]
  | (k', v') :: rest =>
      if String.eqb k' k then (k, v) :: rest else (k', v') :: setProp k v rest
  end.

(** [roles[roleName] = role].  The object never has an own property named
    [__proto__]: it starts empty and is only written to here. *)
Definition setRole (roleName : string) (role : RBACRoleConfig) (roles : Roles) : Roles :=
  if String.eqb roleName "__proto__"
  then {| ownRoles := ownRoles roles; rolesProto := Some role |}
  else {| ownRoles := setProp roleName role (ownRoles roles);
          rolesProto := rolesProto roles |}.

(** What a read [roles[roleName]] gives. *)
Inductive RoleRef :=
| IsRole (role : RBACRoleConfig)
| NotRole
| NoRole.

(** [roles[roleName]].  An own property is a role.  Otherwise the read goes
    to the prototype: when that is a role set through [__proto__], the name
    [__proto__] reads that role, and the names [users], [tools] and
    [channels] read its members, each the string ["*"] or an array; the
    members of [Object.prototype] are functions, and [__proto__] reads
    [Object.prototype] itself while the prototype has not been replaced.  All
    these values are truthy and have no member [tools]: they are [NotRole].
    Any other name reads [undefined]. *)
Definition roleAt (roleName : string) (roles : Roles) : RoleRef :=
  match getProp roleName (ownRoles roles) with
  | Some role => IsRole role
  | None =>
      match rolesProto roles with
      | Some role =>
          if String.eqb roleName "__proto__" then IsRole role
          else if bool_decide (roleName ∈ ["users"; "tools"; "channels"]) then NotRole
          else if bool_decide (roleName ∈ JS.objectPrototypeNames) then NotRole
          else NoRole
      | None =>
          if bool_decide (roleName ∈ JS.objectPrototypeNames) then NotRole else NoRole
      end
  end.

(** [result[name] = tools] in [parseToolGroups]; as for [roles], the name
    [__proto__] replaces the prototype. *)
Definition setGroup (name : string) (tools : list string) (toolGroups : ToolGroups)
  : ToolGroups :=
  if String.eqb name "__proto__"
  then {| ownGroups := ownGroups toolGroups; groupsProto := Some tools |}
  else {| ownGroups := <[name := tools]> (ownGroups toolGroups);
          groupsProto := groupsProto toolGroups |}.

(** What a read [toolGroups[groupName]] gives: an array of tool names, a
    string, a number, another object (a function, or [Object.prototype]), or
    [undefined]. *)
Inductive GroupRef :=
| GroupArray (tools : list string)
| GroupString (s : string)
| GroupNumber (n : nat)
| GroupObject
| GroupUndefined.

(** [toolGroups[groupName]].  An own property is an array of tool names.
    Otherwise the read goes to the prototype.  When that is an array set
    through [__proto__], the name [__proto__] reads the array, the name of
    one of its indices reads the element, [length] reads its length, and the
    members of [Array.prototype] and [Object.prototype] are functions.
    While the prototype has not been replaced, the members of
    [Object.prototype] are functions and [__proto__] reads
    [Object.prototype] itself.  Any other name reads [undefined]. *)
Definition groupAt (groupName : string) (toolGroups : ToolGroups) : GroupRef :=
  match ownGroups toolGroups !! groupName with
  | Some tools => GroupArray tools
  | None =>
      match groupsProto toolGroups with
      | Some arr =>
          if String.eqb groupName "__proto__" then GroupArray arr
          else match JS.atIndexName groupName arr with
               | Some s => GroupString s
               | None =>
                   if String.eqb groupName "length" then GroupNumber (length arr)
                   else if bool_decide (groupName ∈ JS.arrayPrototypeNames)
                           || bool_decide (groupName ∈ JS.objectPrototypeNames)
                   then GroupObject
                   else GroupUndefined
               end
      | None =>
          if bool_decide (groupName ∈ JS.objectPrototypeNames) then GroupObject
          else GroupUndefined
      end
  end.

(** Truthiness of what [toolGroups[groupName]] gives. *)
Definition truthyGroup (group : GroupRef) : bool :=
  match group with
  | GroupArray _ | GroupObject => true
  | GroupString s => JS.truthy s
  | GroupNumber n => negb (n =? 0)%nat
  | GroupUndefined => false
  end.

Definition assertObject (value : JValue) (label : string)
  : Result (list (string * JValue)) :=
  match value with
  | JObj fields => mret fields
  | _ => throw (MustBeObject label)
  end.

(** [Array.isArray(value) && value.every((v) => typeof v === "string")],
    returning the array at type [string[]]. *)
Definition stringArray (value : JValue) : option (list string) :=
  match value with
  | JArr items => mapM (λ v, match v with JStr s => Some s | _ => None end) items
  | _ => None
  end.

Definition isUndefined (value : JValue) : bool :=
  match value with JUndefined => true | _ => false end.

(** [value === undefined || value === null] *)
Definition isNullish (value : JValue) : bool :=
  match value with JUndefined | JNull => true | _ => false end.

Definition isStar (value : JValue) : bool :=
  match value with JStr s => String.eqb s "*" | _ => false end.

Definition parseUsers (value : JValue) (roleName : string) : Result ListOrStar :=
  if isStar value then mret Star
  else match stringArray value with
       | Some l => mret (Items l)
       | None => throw (BadUsers roleName)
       end.

Definition parseTools (value : JValue) (roleName : string) : Result ListOrStar :=
  if isStar value then mret Star
  else match stringArray value with
       | Some l => mret (Items l)
       | None => throw (BadTools roleName)
       end.

Definition parseChannels (value : JValue) (roleName : string) : Result ListOrStar :=
  if isUndefined value || isStar value then mret Star
  else match stringArray value with
       | Some l => mret (Items l)
       | None => throw (BadChannels roleName)
       end.

(** The loop of [parseToolGroups] over [Object.entries(obj)]. *)
Fixpoint toolGroupsLoop (entries : list (string * JValue))
    (result : ToolGroups) : Result ToolGroups :=
  match entries with
  | [] => mret result
  | (name, tools) :: rest =>
      match stringArray tools with
      | Some l => toolGroupsLoop rest (setGroup name l result)
      | None => throw (BadToolGroup name)
      end
  end.

(** The object [{}]: no own group, and [Object.prototype] as prototype. *)
Definition noGroups : ToolGroups := {| ownGroups := ∅; groupsProto := None |}.

Definition parseToolGroups (value : JValue) : Result ToolGroups :=
  if isNullish value then mret noGroups
  else obj ← assertObject value "toolGroups"; toolGroupsLoop obj noGroups.

Definition parseRateLimit (value : JValue) : Result (option RateLimitConfig) :=
  if isNullish value then mret None
  else
    obj ← assertObject value "rateLimit";
    match get "maxBlockedPerMinute" obj with
    | JNum max =>
        if (max <? 1)%Z then throw BadRateLimit
        else mret (Some {| maxBlockedPerMinute := max |})
    | _ => throw BadRateLimit
    end.

Definition normalizeCommands (arr : list string) : list string :=
  (λ cmd, let c := JS.trim (JS.toLowerCase cmd) in
          if JS.startsWith c "/" then c else "/" +:+ c) <$> arr.

Definition parseMode (mode : JValue) : Result Mode :=
  match mode with
  | JUndefined => mret Blocklist
  | JStr m =>
      if String.eqb m "blocklist" then mret Blocklist
      else if String.eqb m "allowlist" then mret Allowlist
      else throw BadMode
  | _ => throw BadMode
  end.

Definition isArray (value : JValue) : bool :=
  match value with JArr _ => true | _ => false end.

(** [Array.isArray(v) ? normalizeCommands(v as string[]) : []], for a
    value already checked to be absent or an array of strings. *)
Definition commandsOf (value : JValue) : list string :=
  match stringArray value with
  | Some l => normalizeCommands l
  | None => []
  end.

Definition parseSystemCommands (value : JValue) : Result (option SystemCommandsConfig) :=
  if isNullish value then mret None
  else
    obj ← assertObject value "systemCommands";
    resolvedMode ← parseMode (get "mode" obj);
    let blocked := get "blocked" obj in
    _ ← (if negb (isNullish blocked) && negb (bool_decide (is_Some (stringArray blocked)))
         then throw BadBlocked else mret ());
    _ ← (match resolvedMode, blocked with
         | Blocklist, JArr (_ :: _) => mret ()
         | Blocklist, _ => throw BlockedRequired
         | Allowlist, _ => mret ()
         end);
    let allowed := get "allowed" obj in
    _ ← (if negb (isNullish allowed) && negb (bool_decide (is_Some (stringArray allowed)))
         then throw BadAllowed else mret ());
    _ ← (match resolvedMode with
         | Allowlist => if isArray allowed then mret () else throw AllowedRequired
         | Blocklist => mret ()
         end);
    guestHelp ← (match get "guestHelp" obj with
                 | JUndefined | JNull => mret None
                 | JStr text => mret (Some text)
                 | _ => throw BadGuestHelp
                 end);
    blockResponse ← (match get "blockResponse" obj with
                     | JStr text => mret text
                     | _ => throw BadBlockResponse
                     end);
    mret (Some {| mode := resolvedMode;
                  blocked := commandsOf blocked;
                  allowed := commandsOf allowed;
                  guestHelp := guestHelp;
                  blockResponse := blockResponse |}).

Definition parseFailSafe (value : JValue) : Result FailSafe :=
  match value with
  | JUndefined | JNull => mret Deny
  | JStr v =>
      if String.eqb v "deny" then mret Deny
      else if String.eqb v "allow" then mret Allow
      else throw (BadFailSafe value)
  | _ => throw (BadFailSafe value)
  end.

(** The body of the loop over [Object.entries(rolesRaw)] in [parse],
    with the three variables it updates: [roles], [warnings] and
    [firstWildcardRole]. *)
Fixpoint rolesLoop (entries : list (string * JValue))
    (roles : Roles) (warnings : list Warning)
    (firstWildcardRole : option string)
  : Result (Roles * list Warning) :=
  match entries with
  | [] => mret (roles, warnings)
  | (roleName, roleRaw) :: rest =>
      role ← assertObject roleRaw ("roles." +:+ roleName);
      users ← parseUsers (get "users" role) roleName;
      tools ← parseTools (get "tools" role) roleName;
      channels ← parseChannels (get "channels" role) roleName;
      firstWildcardRole ←
        (match users, firstWildcardRole with
         | Star, None => mret (Some roleName)
         | Star, Some w => mret (Some w)
         | Items _, Some w => throw (WildcardBeforeSpecific w roleName)
         | Items _, None => mret None
         end);
      let warnings :=
        match tools with
        | Items [] => warnings ++ [EmptyTools roleName]
        | _ => warnings
        end in
      let warnings :=
        match channels with
        | Items [] => warnings ++ [EmptyChannels roleName]
        | _ => warnings
        end in
      rolesLoop rest
        (setRole roleName {| users := users; tools := tools; channels := channels |} roles)
        warnings firstWildcardRole
  end.

(** The inner loop of the group-reference validation: the tools of one role. *)
Fixpoint checkGroupRefs (roleName : string) (tools : list string)
    (toolGroups : ToolGroups) : Result () :=
  match tools with
  | [] => mret ()
  | tool :: rest =>
      if JS.startsWith tool "@" then
        if negb (truthyGroup (groupAt (JS.sliceFrom 1 tool) toolGroups))
        then throw (UnknownToolGroup roleName tool)
        else checkGroupRefs roleName rest toolGroups
      else checkGroupRefs roleName rest toolGroups
  end.

(** The outer loop of the group-reference validation, over
    [Object.entries(roles)]. *)
Fixpoint validateGroupRefs (roles : list (string * RBACRoleConfig))
    (toolGroups : ToolGroups) : Result () :=
  match roles with
  | [] => mret ()
  | (roleName, role) :: rest =>
      _ ← (match tools role with
           | Items l => checkGroupRefs roleName l toolGroups
           | Star => mret ()
           end);
      validateGroupRefs rest toolGroups
  end.

(** The object [{}]: no own role, and [Object.prototype] as prototype. *)
Definition noRoles : Roles := {| ownRoles := []; rolesProto := None |}.

(** [!roles[defaultRole]] *)
Definition isFalsyRole (role : RoleRef) : bool :=
  match role with NoRole => true | IsRole _ | NotRole => false end.

(** [rbacConfigSchema.parse] *)
Definition parse (value : JValue) : Result RBACConfig :=
  cfg ← assertObject value "rbac config";
  rolesRaw ← assertObject (get "roles" cfg) "rbac config.roles";
  '(roles, warnings) ← rolesLoop rolesRaw noRoles [] None;
  if bool_decide (length (ownRoles roles) = 0) then throw NoRoles
  else
    let defaultRole :=
      match get "defaultRole" cfg with JStr s => s | _ => "guest" end in
    if isFalsyRole (roleAt defaultRole roles)
    then throw (DefaultRoleNotFound defaultRole)
    else
      toolGroups ← parseToolGroups (get "toolGroups" cfg);
      failSafe ← parseFailSafe (get "failSafe" cfg);
      rateLimit ← parseRateLimit (get "rateLimit" cfg);
      systemCommands ← parseSystemCommands (get "systemCommands" cfg);
      _ ← validateGroupRefs (ownRoles roles) toolGroups;
      mret {| roles := roles;
              defaultRole := defaultRole;
              logBlocked := negb (match get "logBlocked" cfg with JBool false => true | _ => false end);
              logAllowed := match get "logAllowed" cfg with JBool true => true | _ => false end;
              failSafe := failSafe;
              toolGroups := toolGroups;
              rateLimit := rateLimit;
              systemCommands := systemCommands;
              warnings := warnings |}.

(** The role entries of a document, in declared order; empty when the
    document or its [roles] member is not an object. *)
Definition rolesOf (value : JValue) : list (string * JValue) :=
  match value with
  | JObj cfg => match get "roles" cfg with JObj rolesRaw => rolesRaw | _ => [] end
  | _ => []
  end.

(** The [users] member of a role entry as written in the document. *)
Definition rawUsers (roleRaw : JValue) : JValue :=
  match roleRaw with JObj role => get "users" role | _ => JUndefined end.

Definition wildcardUsers (roleRaw : JValue) : Prop := isStar (rawUsers roleRaw) = true.

Definition specificUsers (roleRaw : JValue) : Prop :=
  isStar (rawUsers roleRaw) = false ∧ is_Some (stringArray (rawUsers roleRaw)).

(** Among [entries], some role with wildcard users precedes a role with
    a specific user list. *)
Definition precedesIn (entries : list (string * JValue)) : Prop :=
  ∃ i j w rw s rs,
    i < j ∧ entries !! i = Some (w, rw) ∧ entries !! j = Some (s, rs)
    ∧ wildcardUsers rw ∧ specificUsers rs.

(** Some role of the document with wildcard users precedes a role with a
    specific user list, in declared order. *)
Definition wildcardPrecedesSpecific (value : JValue) : Prop :=
  precedesIn (rolesOf value).

(** [w] is the first role with wildcard users and [s] the first role with
    a specific user list after it. *)
Definition firstOffendingPair (entries : list (string * JValue)) (w s : string) : Prop :=
  ∃ pre1 rw pre2 rs post,
    entries = pre1 ++ (w, rw) :: pre2 ++ (s, rs) :: post
    ∧ Forall (λ e, specificUsers e.2) pre1
    ∧ wildcardUsers rw
    ∧ Forall (λ e, wildcardUsers e.2) pre2
    ∧ specificUsers rs.

(** A role entry the loop body accepts when no ordering error arises: an
    object whose [users], [tools] and [channels] all parse. *)
Definition roleEntryOk (entry : string * JValue) : Prop :=
  ∃ role u t c,
    entry.2 = JObj role
    ∧ parseUsers (get "users" role) entry.1 = inr u
    ∧ parseTools (get "tools" role) entry.1 = inr t
    ∧ parseChannels (get "channels" role) entry.1 = inr c.

(** The structural diagnostic of a role entry: what the loop body throws
    before it comes to the ordering check, when the entry is not an object
    or its users, its tools or its channels, tried in this order, do not
    parse.  A well-formed entry has none. *)
Definition entryDiagnostic (entry : string * JValue) : option LoadError :=
  match entry.2 with
  | JObj role =>
      match parseUsers (get "users" role) entry.1,
            parseTools (get "tools" role) entry.1,
            parseChannels (get "channels" role) entry.1 with
      | inl e, _, _ => Some e
      | inr _, inl e, _ => Some e
      | inr _, inr _, inl e => Some e
      | inr _, inr _, inr _ => None
      end
  | _ => Some (MustBeObject ("roles." +:+ entry.1))
  end.

End Config.

(** ** role-resolver.ts *)

Module RoleResolver.
Import Config.

(** [role.users === "*" || role.users.includes(peerId)] *)
Definition usersMatch (peerId : string) (role : RBACRoleConfig) : bool :=
  match users role with
  | Star => true
  | Items l => JS.includes l peerId
  end.

(** The three-way computation of [channelsMatch]. *)
Definition channelsMatch (channel : option string) (role : RBACRoleConfig) : bool :=
  match channels role, channel with
  | Star, _ => true
  | Items _, None => false
  | Items l, Some c => JS.includes l c
  end.

(** A role the loop stops at: neither [continue] is taken. *)
Definition roleMatches (peerId : string) (channel : option string)
    (role : RBACRoleConfig) : bool :=
  usersMatch peerId role && channelsMatch channel role.

(** The loop over [Object.entries(config.roles)]; falling out of it
    returns [config.defaultRole]. *)
Fixpoint resolveLoop (peerId : string) (channel : option string)
    (entries : list (string * RBACRoleConfig)) (defaultRole : string) : string :=
  match entries with
  | [] => defaultRole
  | (roleName, role) :: rest =>
      if negb (usersMatch peerId role) then resolveLoop peerId channel rest defaultRole
      else if negb (channelsMatch channel role) then resolveLoop peerId channel rest defaultRole
      else roleName
  end.

Definition resolveRole (peerId : string) (channel : option string)
    (config : RBACConfig) : string :=
  resolveLoop peerId channel (ownRoles (roles config)) (defaultRole config).

End RoleResolver.

(** ** tool-guard.ts *)

Module ToolGuard.
Import Config.

Record ToolGuardResult := {
  allowed : bool;
  role : string;
  reason : option string
}.

Record Expanded := {
  exact : list string;
  wildcards : list string
}.

(** The run-time error of the guard: a value that is not iterable is
    iterated by [for ... of] or spread into a call. *)
Inductive TypeError := NotIterable.

(** A call returns or throws. *)
Definition Outcome (A : Type) : Type := TypeError + A.

(** [...groupTools]: an array gives its elements and a string its code
    units; a number or another object cannot be spread. *)
Definition spread (groupTools : GroupRef) : Outcome (list string) :=
  match groupTools with
  | GroupArray arr => inr arr
  | GroupString s => inr (JS.units s)
  | GroupNumber _ | GroupObject | GroupUndefined => inl NotIterable
  end.

(** The loop of [expandTools], with the two arrays it pushes to. *)
Fixpoint expandLoop (tools : list string) (config : RBACConfig)
    (exact wildcards : list string) : Outcome Expanded :=
  match tools with
  | [] => inr {| exact := exact; wildcards := wildcards |}
  | entry :: rest =>
      if JS.endsWith entry "_*" then
        expandLoop rest config exact (wildcards ++ [entry])
      else if JS.startsWith entry "@" then
        let groupName := JS.sliceFrom 1 entry in
        let groupTools := groupAt groupName (toolGroups config) in
        if truthyGroup groupTools then
          match spread groupTools with
          | inl err => inl err
          | inr items => expandLoop rest config (exact ++ items) wildcards
          end
        else expandLoop rest config exact wildcards
      else expandLoop rest config (exact ++ [entry]) wildcards
  end.

Definition expandTools (tools : list string) (config : RBACConfig) : Outcome Expanded :=
  expandLoop tools config [] [].

(** The test in the body of the wildcard loop of [checkToolAccess]. *)
Definition wildcardMatches (toolName pattern : string) : bool :=
  let prefix := JS.dropLast pattern in
  JS.startsWith toolName prefix && bool_decide (JS.len prefix < JS.len toolName).

(** Some pattern of the wildcard bucket, with its trailing star removed,
    is a proper prefix of [toolName]. *)
Definition viaWildcard (toolName : string) (e : Expanded) : Prop :=
  ∃ pattern, pattern ∈ wildcards e
    ∧ JS.startsWith toolName (JS.dropLast pattern) = true
    ∧ JS.len (JS.dropLast pattern) < JS.len toolName.

(** The same in terms of the tool list and in the words of the rule: some
    entry of the list ends in [_*], and that entry without its trailing star
    is a prefix of [toolName] and shorter than it. *)
Definition viaPatternOf (toolName : string) (tools : list string) : Prop :=
  ∃ pattern prefix,
    pattern ∈ tools ∧ JS.endsWith pattern "_*" = true
    ∧ pattern = prefix +:+ "*"
    ∧ JS.startsWith toolName prefix = true
    ∧ JS.len prefix < JS.len toolName.

(** The double-quote character, for the messages below. *)
Definition dq : string := String "034"%char EmptyString.

(** The three results [checkToolAccess] returns. *)
Definition allowedResult (roleName : string) : ToolGuardResult :=
  {| allowed := true; role := roleName; reason := None |}.

Definition unknownRole (roleName : string) : ToolGuardResult :=
  {| allowed := false; role := roleName;
     reason := Some ("Unknown role " +:+ dq +:+ roleName +:+ dq) |}.

Definition noAccess (toolName roleName : string) : ToolGuardResult :=
  {| allowed := false; role := roleName;
     reason := Some ("Role " +:+ dq +:+ roleName +:+ dq
                     +:+ " does not have access to tool "
                     +:+ dq +:+ toolName +:+ dq) |}.

(** [checkToolAccess].  When [roles[roleName]] is a truthy value that is not
    a role, its member [tools] is [undefined]: it is not ["*"], and
    [expandTools] throws when it iterates it. *)
Definition checkToolAccess (toolName roleName : string) (config : RBACConfig)
  : Outcome ToolGuardResult :=
  match roleAt roleName (roles config) with
  | NoRole => inr (unknownRole roleName)
  | NotRole => inl NotIterable
  | IsRole r =>
      match tools r with
      | Star => inr (allowedResult roleName)
      | Items l =>
          match expandTools l config with
          | inl err => inl err
          | inr e =>
              if JS.includes (exact e) toolName then inr (allowedResult roleName)
              else if existsb (wildcardMatches toolName) (wildcards e)
                   then inr (allowedResult roleName)
                   else inr (noAccess toolName roleName)
          end
      end
  end.

End ToolGuard.

(** ** rate-limiter.ts *)

Module RateLimit.

Definition WINDOW_MS : Z := 60000.

Record PeerWindow := {
  windowStart : Z;
  logged : Z;
  suppressed : Z
}.

Record RateLimiter := {
  maxPerMinute : Z;
  peers : gmap string PeerWindow
}.

(** [new RateLimiter(maxPerMinute)] *)
Definition create (maxPerMinute : Z) : RateLimiter :=
  {| maxPerMinute := maxPerMinute; peers := ∅ |}.

(** The window [shouldLog] works on after its first [if]: the stored one,
    or a fresh one when the peer is new or its window has expired. *)
Definition currentWindow (now : Z) (stored : option PeerWindow) : PeerWindow :=
  match stored with
  | Some peer =>
      if (WINDOW_MS <=? now - windowStart peer)%Z
      then {| windowStart := now; logged := 0; suppressed := 0 |}
      else peer
  | None => {| windowStart := now; logged := 0; suppressed := 0 |}
  end.

(** The window object is shared between the table and the local variable
    [peer]; its in-place increments are written as storing the updated
    record. *)
Definition shouldLog (peerId : string) (now : Z) (rl : RateLimiter)
  : bool * RateLimiter :=
  let peer := currentWindow now (peers rl !! peerId) in
  if (logged peer <? maxPerMinute rl)%Z then
    (true,
     {| maxPerMinute := maxPerMinute rl;
        peers := <[peerId := {| windowStart := windowStart peer;
                                logged := logged peer + 1;
                                suppressed := suppressed peer |}]> (peers rl) |})
  else
    (false,
     {| maxPerMinute := maxPerMinute rl;
        peers := <[peerId := {| windowStart := windowStart peer;
                                logged := logged peer;
                                suppressed := suppressed peer + 1 |}]> (peers rl) |}).

Definition getSuppressed (peerId : string) (now : Z) (rl : RateLimiter) : Z :=
  match peers rl !! peerId with
  | None => 0
  | Some peer =>
      if (WINDOW_MS <=? now - windowStart peer)%Z then 0 else suppressed peer
  end.

(** One observed call: who asked, when, the start of the window the call
    was counted in, and the answer. *)
Record Call := {
  callPeer : string;
  callTime : Z;
  callWindow : Z;
  callLogged : bool
}.

(** A sequence of [shouldLog] calls, given as (peer, time) pairs, run
    against a limiter; the result is the list of observed calls. *)
Fixpoint run (calls : list (string * Z)) (rl : RateLimiter) : list Call :=
  match calls with
  | [] => []
  | (peerId, now) :: rest =>
      let '(answer, rl') := shouldLog peerId now rl in
      {| callPeer := peerId;
         callTime := now;
         callWindow := windowStart (currentWindow now (peers rl !! peerId));
         callLogged := answer |} :: run rest rl'
  end.

(** [c] is a call of [peerId] that returned [true]. *)
Definition loggedFor (peerId : string) (c : Call) : Prop :=
  callPeer c = peerId ∧ callLogged c = true.

(** The calls of [peerId] that returned [true] at a time in the
    60-second interval starting at [t0]. *)
Definition loggedInInterval (peerId : string) (t0 : Z) (trace : list Call) : list Call :=
  filter (λ c, loggedFor peerId c ∧ (t0 ≤ callTime c < t0 + WINDOW_MS)%Z) trace.

(** The calls of [peerId] that returned [true] and were counted in the
    limiter window that started at [w]. *)
Definition loggedInWindow (peerId : string) (w : Z) (trace : list Call) : list Call :=
  filter (λ c, loggedFor peerId c ∧ callWindow c = w) trace.

(** A call of [peerId] that returned [true], was counted in a limiter
    window whose start lies in [[a, b)], and was made at [tau] or later. *)
Definition counted (peerId : string) (a b tau : Z) (c : Call) : Prop :=
  loggedFor peerId c ∧ (a ≤ callWindow c < b)%Z ∧ (tau ≤ callTime c)%Z.

(** How many more [counted] calls a limiter can still produce, from the
    stored window of the peer: what is left of the current window when it
    starts in [[a, b)], nothing when it starts later, and a whole window
    less [k] when it starts earlier or the peer is new. *)
Definition budget (max a b k : Z) (stored : option PeerWindow) : Z :=
  match stored with
  | Some peer =>
      if decide (a ≤ windowStart peer)%Z then
        if decide (windowStart peer < b)%Z then Z.max 0 (max - logged peer) else 0
      else Z.max 0 (max - k)
  | None => Z.max 0 (max - k)
  end.

(** Every stored window started no later than every call still to come. *)
Definition startsBefore (rl : RateLimiter) (calls : list (string * Z)) : Prop :=
  ∀ peerId peer, peers rl !! peerId = Some peer →
                 Forall (λ c, (windowStart peer ≤ c.2)%Z) calls.

(** A call falls within the 60 seconds that follow the start of the
    window it was counted in. *)
Definition withinWindow (c : Call) : Prop :=
  (callWindow c ≤ callTime c < callWindow c + WINDOW_MS)%Z.

(** Times do not go backwards along a sequence of calls. *)
Fixpoint nondecreasing (calls : list (string * Z)) : Prop :=
  match calls with
  | [] => True
  | (_, t) :: rest => Forall (λ c, (t ≤ c.2)%Z) rest ∧ nondecreasing rest
  end.

End RateLimit.

(** ** command-guard.ts *)

Module CommandGuard.
Import Config.

Record PendingBlock := {
  command : string;
  timestamp : Z
}.

Definition STALE_MS : Z := 10000.

Definition extractCommand (trimmed : string) : option string :=
  if negb (JS.startsWith trimmed "/") then None
  else match JS.indexOf " "%char trimmed with
       | None => Some trimmed
       | Some spaceIdx => Some (JS.sliceTo spaceIdx trimmed)
       end.

(** The part of [matchBlockedCommand] after the command has been
    extracted: the help interception and the two modes. *)
Definition verdict (command : string) (config : SystemCommandsConfig) : option string :=
  if bool_decide (is_Some (guestHelp config)) && String.eqb command "/help"
  then Some "/help"
  else match mode config with
       | Allowlist =>
           if JS.includes (allowed config) command then None else Some command
       | Blocklist =>
           if JS.includes (blocked config) command then Some command else None
       end.

(** [content.trim().toLowerCase()] *)
Definition normalize (content : string) : string := JS.toLowerCase (JS.trim content).

Definition matchBlockedCommand (content : string) (config : SystemCommandsConfig)
  : option string :=
  let trimmed := normalize content in
  match extractCommand trimmed with
  | None => None
  | Some command =>
      if negb (JS.truthy command) then None else verdict command config
  end.

(** The prefix of [s] before the first code unit satisfying [stop]; the
    whole of [s] when there is none. *)
Fixpoint takeUntil (stop : ascii → bool) (s : string) : string :=
  match s with
  | EmptyString => EmptyString
  | String a s' => if stop a then EmptyString else String a (takeUntil stop s')
  end.

Definition isSpace (a : ascii) : bool := Ascii.eqb a " "%char.

(** The command head as the code cuts it: up to the first SPACE. *)
Definition headUpToSpace (trimmed : string) : string :=
  takeUntil isSpace trimmed.

(** The command head in the specification's words: up to the first
    white-space character of any kind. *)
Definition headUpToWhitespace (trimmed : string) : string :=
  takeUntil JS.isWhiteSpace trimmed.

(** [matchBlockedCommand] in the specification's words. *)
Definition matchBlockedCommand_spec (content : string) (config : SystemCommandsConfig)
  : option string :=
  let trimmed := normalize content in
  if JS.startsWith trimmed "/" then verdict (headUpToWhitespace trimmed) config
  else None.

(** The module variable [pendingBlock] is the state; each operation takes
    it and returns the new one. *)
Definition setPendingBlock (command : string) (now : Z)
    (pendingBlock : option PendingBlock) : option PendingBlock :=
  Some {| command := command; timestamp := now |}.

Definition consumePendingBlock (now : Z) (pendingBlock : option PendingBlock)
  : option string * option PendingBlock :=
  match pendingBlock with
  | None => (None, None)
  | Some block =>
      if (STALE_MS <? now - timestamp block)%Z then (None, None)
      else (Some (command block), None)
  end.

Definition getBlockResponse (command : string) (config : SystemCommandsConfig) : string :=
  match guestHelp config with
  | Some help => if String.eqb command "/help" then help else blockResponse config
  | None => blockResponse config
  end.

(** [isAdminByTools]: [role?.tools === "*"], which is false when
    [roles[roleName]] is not a role. *)
Definition isAdminByTools (roleName : string) (roles : Roles) : bool :=
  match roleAt roleName roles with
  | IsRole r => match tools r with Star => true | Items _ => false end
  | NotRole | NoRole => false
  end.

End CommandGuard.

(** ** Sample policies and documents *)

Module Examples.
Import Config.

(** A policy with one operator role holding a prefix pattern and one role
    holding an entry that looks like a group reference and a pattern. *)
Definition opsRole : RBACRoleConfig :=
  {| users := Items ["408001372"]; tools := Items ["exec_*"]; channels := Star |}.
Definition newsRole : RBACRoleConfig :=
  {| users := Star; tools := Items ["@news_*"]; channels := Items ["telegram"] |}.
Definition guestRole : RBACRoleConfig :=
  {| users := Star; tools := Items ["get_recent_news"]; channels := Star |}.

Definition policy : RBACConfig :=
  {| roles := {| ownRoles := [("ops", opsRole); ("news", newsRole); ("guest", guestRole)];
                 rolesProto := None |};
     defaultRole := "guest";
     logBlocked := true;
     logAllowed := false;
     failSafe := Deny;
     toolGroups := {| ownGroups := {[ "news_*" := ["get_recent_news"; "subscribe_user"] ]};
                      groupsProto := None |};
     rateLimit := None;
     systemCommands := None;
     warnings := [] |}.

(** Command-guard settings in the two modes; the second allows [/help]
    and also sets a guest help text. *)
Definition blocklist : SystemCommandsConfig :=
  {| mode := Blocklist; blocked := ["/status"]; allowed := [];
     guestHelp := None; blockResponse := "Command not available." |}.
Definition allowlist : SystemCommandsConfig :=
  {| mode := Allowlist; blocked := []; allowed := ["/start"; "/help"];
     guestHelp := Some "Ask me for the news.";
     blockResponse := "Command not available." |}.

(** A document whose catch-all role comes before the administrators. *)
Definition shadowedDoc : JValue :=
  JObj [("roles",
         JObj [("everyone",
                JObj [("users", JStr "*");
                      ("tools", JArr [JStr "get_recent_news"])]);
               ("admin",
                JObj [("users", JArr [JStr "408001372"]);
                      ("tools", JStr "*")])])].

(** The same, with a number where the tools of the catch-all role belong. *)
Definition malformedDoc : JValue :=
  JObj [("roles",
         JObj [("everyone",
                JObj [("users", JStr "*");
                      ("tools", JNum 5)]);
               ("admin",
                JObj [("users", JArr [JStr "408001372"]);
                      ("tools", JStr "*")])])].

(** Four calls of one peer around the end of its first window. *)
Definition burst : list (string * Z) :=
  [("peer-1", 0); ("peer-1", 59999); ("peer-1", 60000); ("peer-1", 60001)]%Z.

(** The message [/status], a TAB, then [now]. *)
Definition statusTabNow : string := "/status" +:+ String "009"%char "now".

End Examples.

(** ** index.ts: the plugin and its three hooks *)

Module Plugin.
Import Config SessionKeyParser RoleResolver ToolGuard RateLimit CommandGuard.

(** What a hook hands to the logger, one constructor per message, with the
    values interpolated into it; an absent channel is printed as
    [unknown]. *)
Inductive LogEntry :=
| InvalidConfig (err : LoadError)
| ConfigWarning (warning : Warning)
| Registered (roleNames : list string) (defaultRole : string) (failSafe : FailSafe)
| GuardEnabled (blockedCount : nat)
| BlockedUnparsed (toolName sessionKey : string)
| BlockedCall (toolName peerId : string) (channel : option string)
              (roleName : string) (reason : option string)
| RateLimitExceeded (peerId : string)
| AllowedCall (toolName peerId : string) (channel : option string) (roleName : string)
| GuardedCommand (command peerId : string) (channel : option string) (roleName : string).

(** The verdict of [before_tool_call]; no verdict is [None]. *)
Record Verdict := {
  block : bool;
  blockReason : string
}.

Definition failSafeReason : string :=
  "Access denied: unrecognized session (RBAC failSafe)".

Definition fallbackReason : string := "Access denied by RBAC policy".

(** The logging done for a denied call when [logBlocked] is set.  The
    limiter reads the clock in [shouldLog] and again in [getSuppressed];
    [now] and [later] are the two readings. *)
Definition logDenied (toolName peerId : string) (channel : option string)
    (roleName : string) (reason : option string) (now later : Z)
    (rateLimiter : option RateLimiter) : list LogEntry * option RateLimiter :=
  match rateLimiter with
  | None => ([BlockedCall toolName peerId channel roleName reason], None)
  | Some rl =>
      let '(answer, rl') := shouldLog peerId now rl in
      if answer then ([BlockedCall toolName peerId channel roleName reason], Some rl')
      else if (getSuppressed peerId later rl' =? 1)%Z
           then ([RateLimitExceeded peerId], Some rl')
           else ([], Some rl')
  end.

(** The [before_tool_call] handler: how its promise settles, the log
    entries and the limiter afterwards.  The promise is fulfilled with a
    verdict or with nothing ([None]), or rejected with the error that
    [checkToolAccess] throws; nothing is logged before that call. *)
Definition beforeToolCall (config : RBACConfig) (toolName : string)
    (sessionKey : option string) (now later : Z) (rateLimiter : option RateLimiter)
  : Outcome (option Verdict) * list LogEntry * option RateLimiter :=
  match sessionKey with
  | None => (inr None, [], rateLimiter)
  | Some key =>
      if negb (JS.truthy key) then (inr None, [], rateLimiter)
      else
        match parseSessionKey key with
        | None =>
            match failSafe config with
            | Deny =>
                (inr (Some {| block := true; blockReason := failSafeReason |}),
                 [BlockedUnparsed toolName key], rateLimiter)
            | Allow => (inr None, [], rateLimiter)
            end
        | Some parsed =>
            let roleName := resolveRole (peerId parsed) (channel parsed) config in
            match checkToolAccess toolName roleName config with
            | inl err => (inl err, [], rateLimiter)
            | inr result =>
                if negb (allowed result) then
                  let '(logs, rateLimiter') :=
                    if logBlocked config
                    then logDenied toolName (peerId parsed) (channel parsed) roleName
                                   (reason result) now later rateLimiter
                    else ([], rateLimiter) in
                  (inr (Some {| block := true;
                                blockReason := default fallbackReason (reason result) |}),
                   logs, rateLimiter')
                else
                  (inr None,
                   if logAllowed config
                   then [AllowedCall toolName (peerId parsed) (channel parsed) roleName]
                   else [],
                   rateLimiter)
            end
        end
  end.

(** The [message_received] handler of the command guard: the pending block
    and the log entries afterwards.  [content] and [from] may be missing;
    [channelId] is absent when undefined or null. *)
Definition messageReceived (config : RBACConfig) (sysCmds : SystemCommandsConfig)
    (content from channelId : option string) (now : Z)
    (pendingBlock : option PendingBlock) : option PendingBlock * list LogEntry :=
  match content with
  | None => (pendingBlock, [])
  | Some content =>
      if negb (JS.truthy content) || negb (JS.startsWith (JS.trim content) "/")
      then (pendingBlock, [])
      else
        match matchBlockedCommand content sysCmds with
        | None => (pendingBlock, [])
        | Some command =>
            if negb (JS.truthy command) then (pendingBlock, [])
            else
              match from with
              | None => (pendingBlock, [])
              | Some peerId =>
                  if negb (JS.truthy peerId) then (pendingBlock, [])
                  else
                    let roleName := resolveRole peerId channelId config in
                    if isAdminByTools roleName (roles config) then (pendingBlock, [])
                    else
                      (setPendingBlock command now pendingBlock,
                       if logBlocked config
                       then [GuardedCommand command peerId channelId roleName]
                       else [])
              end
        end
  end.

(** The [message_sending] handler: the replacement content, if any, and the
    pending block afterwards. *)
Definition messageSending (sysCmds : SystemCommandsConfig) (now : Z)
    (pendingBlock : option PendingBlock) : option string * option PendingBlock :=
  let '(command, pendingBlock') := consumePendingBlock now pendingBlock in
  match command with
  | None => (None, pendingBlock')
  | Some command =>
      if negb (JS.truthy command) then (None, pendingBlock')
      else (Some (getBlockResponse command sysCmds), pendingBlock')
  end.

(** What [register] sets up when the configuration is valid. *)
Record Registration := {
  regConfig : RBACConfig;
  regLimiter : option RateLimiter;
  regGuard : option SystemCommandsConfig
}.

(** [register]: the log entries, and the registration unless the
    configuration is invalid. *)
Definition register (pluginConfig : JValue) : list LogEntry * option Registration :=
  match parse pluginConfig with
  | inl err => ([InvalidConfig err], None)
  | inr config =>
      (  (ConfigWarning <$> warnings config)
      ++ [Registered (ownRoles (roles config)).*1 (defaultRole config) (failSafe config)]
      ++ match systemCommands config with
         | Some sysCmds =>
             [GuardEnabled (length (blocked sysCmds)
                            + match guestHelp sysCmds with
                              | Some help => if JS.truthy help then 1 else 0
                              | None => 0
                              end)]
         | None => []
         end,
       Some {| regConfig := config;
               regLimiter := (λ rate, create (maxBlockedPerMinute rate)) <$> rateLimit config;
               regGuard := systemCommands config |})
  end.

End Plugin.

(** ** The Telegram menu helpers *)

Module TelegramMenu.

Definition TELEGRAM_MAX_COMMANDS : Z := 100.

Record TelegramMenuCommand := {
  command : string;
  description : string
}.

Record TelegramPluginCommandSpec := {
  name : string;
  specDescription : string
}.

(** The issues reported for rejected specs, one constructor per message,
    with the name interpolated into it. *)
Inductive Issue :=
| InvalidName (specName : string)
| MissingDescription (normalized : string)
| Duplicated (normalized : string)
| Conflicting (normalized : string).

Record Built := {
  commands : list TelegramMenuCommand;
  issues : list Issue;
  existingAfter : gset string
}.

Section Builder.

(** The two imports from [telegram-custom-commands], whose file is not part
    of the sources at hand: the name normalizer and the [test] of the name
    pattern. *)
Variable normalizeTelegramCommandName : string → string.
Variable TELEGRAM_COMMAND_NAME_PATTERN : string → bool.

(** The loop of [buildPluginTelegramMenuCommands], with the arrays and sets
    it updates; [existingCommands] is the caller's set, changed in place. *)
Fixpoint buildLoop (specs : list TelegramPluginCommandSpec)
    (commands : list TelegramMenuCommand) (issues : list Issue)
    (pluginCommandNames existingCommands : gset string) : Built :=
  match specs with
  | [] => {| commands := commands; issues := issues; existingAfter := existingCommands |}
  | spec :: rest =>
      let normalized := normalizeTelegramCommandName (name spec) in
      if negb (JS.truthy normalized) || negb (TELEGRAM_COMMAND_NAME_PATTERN normalized)
      then buildLoop rest commands (issues ++ [InvalidName (name spec)])
                     pluginCommandNames existingCommands
      else
        let description := JS.trim (specDescription spec) in
        if negb (JS.truthy description)
        then buildLoop rest commands (issues ++ [MissingDescription normalized])
                       pluginCommandNames existingCommands
        else if bool_decide (normalized ∈ existingCommands)
        then
          if bool_decide (normalized ∈ pluginCommandNames)
          then buildLoop rest commands (issues ++ [Duplicated normalized])
                         pluginCommandNames existingCommands
          else buildLoop rest commands (issues ++ [Conflicting normalized])
                         pluginCommandNames existingCommands
        else
          buildLoop rest
            (commands ++ [{| command := normalized; description := description |}])
            issues
            ({[normalized]} ∪ pluginCommandNames)
            ({[normalized]} ∪ existingCommands)
  end.

Definition buildPluginTelegramMenuCommands (specs : list TelegramPluginCommandSpec)
    (existingCommands : gset string) : Built :=
  buildLoop specs [] [] ∅ existingCommands.

(** The menu command pushed for a spec that passes the checks of the loop:
    its normalized name and its trimmed description. *)
Definition menuCommandOf (spec : TelegramPluginCommandSpec) : TelegramMenuCommand :=
  {| command := normalizeTelegramCommandName (name spec);
     description := JS.trim (specDescription spec) |}.

End Builder.

Record Capped := {
  commandsToRegister : list TelegramMenuCommand;
  totalCommands : Z;
  maxCommands : Z;
  overflowCount : Z
}.

(** [arr.slice(0, k)] for an integer [k]: a negative end counts from the
    end of the array. *)
Definition sliceTo {A : Type} (k : Z) (arr : list A) : list A :=
  if (k <? 0)%Z then take (Z.to_nat (Z.max 0 (Z.of_nat (length arr) + k))) arr
  else take (Z.to_nat k) arr.

(** [buildCappedTelegramMenuCommands]; an omitted [maxCommands] is [None]. *)
Definition buildCappedTelegramMenuCommands (allCommands : list TelegramMenuCommand)
    (maxCommandsParam : option Z) : Capped :=
  let maxCommands := default TELEGRAM_MAX_COMMANDS maxCommandsParam in
  let totalCommands := Z.of_nat (length allCommands) in
  {| commandsToRegister := sliceTo maxCommands allCommands;
     totalCommands := totalCommands;
     maxCommands := maxCommands;
     overflowCount := Z.max 0 (totalCommands - maxCommands) |}.

(** Modelled from the spec: the name normalizer of
    [telegram-custom-commands], which lower-cases, trims and strips a leading
    slash.  Used for the examples only. *)
Definition normalizeName (raw : string) : string :=
  let lowered := JS.toLowerCase (JS.trim raw) in
  if JS.startsWith lowered "/" then JS.sliceFrom 1 lowered else lowered.

(** Modelled from the spec: the name pattern of [telegram-custom-commands],
    one to 32 letters, digits or underscores.  Used for the examples only. *)
Definition namePattern (normalized : string) : bool :=
  bool_decide (1 ≤ JS.len normalized ≤ 32)
  && forallb (λ a, let n := nat_of_ascii a in
                   ((97 <=? n) && (n <=? 122) || (48 <=? n) && (n <=? 57) || (n =? 95))%nat)
             (String.list_ascii_of_string normalized).

End TelegramMenu.

(** ** The native command guard of the host *)

Module NativeGuard.
Import Config.

Record RbacCommandCheck := {
  isAdmin : bool;
  blocked : bool;
  response : option string
}.

(** Truthiness of a document value. *)
Definition truthy (value : JValue) : bool :=
  match value with
  | JUndefined | JNull => false
  | JBool b => b
  | JNum n => negb (n =? 0)%Z
  | JStr s => JS.truthy s
  | JArr _ | JObj _ => true
  end.

(** [value?.k] for the member names read by [checkRbacCommand].  Only objects
    carry such members; on an array the name [entries] yields a method, on
    which the next read, of [rbac], is undefined as it is here. *)
Definition member (k : string) (value : JValue) : JValue :=
  match value with
  | JObj fields => get k fields
  | _ => JUndefined
  end.

(** [Array.isArray(value) && value.includes(x)] for a string [x]. *)
Definition arrayIncludes (value : JValue) (x : string) : bool :=
  match value with
  | JArr items =>
      existsb (λ v, match v with JStr s => String.eqb s x | _ => false end) items
  | _ => false
  end.

(** [value ?? fallback] *)
Definition orElse (value fallback : JValue) : JValue :=
  if isNullish value then fallback else value.

Section Check.

(** The conversion [String(value)] of the language. *)
Variable String_ : JValue → string.

(** [checkRbacCommand]; [cfg] holds the members of the host configuration
    object. *)
Definition checkRbacCommand (cfg : list (string * JValue)) (senderId command : string)
  : RbacCommandCheck :=
  let pluginsCfg := get "plugins" cfg in
  let entries := member "entries" pluginsCfg in
  let rbacPlugin := member "rbac" entries in
  let rbacConfig := member "config" rbacPlugin in
  if negb (truthy (member "roles" rbacConfig))
  then {| isAdmin := true; blocked := false; response := None |}
  else
    let adminRole := member "admin" (member "roles" rbacConfig) in
    let adminUsers := member "users" adminRole in
    if arrayIncludes adminUsers senderId
    then {| isAdmin := true; blocked := false; response := None |}
    else
      let sysCmds := member "systemCommands" rbacConfig in
      if negb (truthy sysCmds)
      then {| isAdmin := false; blocked := false; response := None |}
      else
        let mode := orElse (member "mode" sysCmds) (JStr "blocklist") in
        let cmdLower := JS.toLowerCase command in
        let listed :=
          match mode with
          | JStr "allowlist" => negb (arrayIncludes (member "allowed" sysCmds) cmdLower)
          | _ => arrayIncludes (member "blocked" sysCmds) cmdLower
          end in
        let helpSet := String.eqb cmdLower "/help" && truthy (member "guestHelp" sysCmds) in
        if negb (listed || helpSet)
        then {| isAdmin := false; blocked := false; response := None |}
        else
          {| isAdmin := false; blocked := true;
             response :=
               Some (if helpSet then String_ (member "guestHelp" sysCmds)
                     else String_ (orElse (member "blockResponse" sysCmds)
                                          (JStr "Command not available."))) |}.

End Check.

(** [parts.join(sep)] *)
Fixpoint join (sep : string) (parts : list string) : string :=
  match parts with
  | [] => EmptyString
  | [part] => part
  | part :: rest => part +:+ sep +:+ join sep rest
  end.

(** [String(value)] on document values: a string converts to itself, an
    array to its converted elements joined by commas, with nothing for
    [null] and [undefined] elements. *)
Fixpoint stringOf (value : JValue) : string :=
  match value with
  | JUndefined => "undefined"
  | JNull => "null"
  | JBool b => if b then "true" else "false"
  | JNum n => pretty n
  | JStr s => s
  | JArr items =>
      join "," ((λ item, match item with
                         | JUndefined | JNull => EmptyString
                         | _ => stringOf item
                         end) <$> items)
  | JObj _ => "[object Object]"
  end.

End NativeGuard.

(** ** A complete policy document *)

Module Documents.
Import Config.

(** Administrators by id, one guest role per channel, a generic guest role,
    a tool group, a log limit and an allowlist for commands. *)
Definition fullDoc : JValue :=
  JObj [("roles",
         JObj [("admin",
                JObj [("users", JArr [JStr "408001372"; JStr "447903128"]);
                      ("tools", JStr "*")]);
               ("guest-telegram",
                JObj [("users", JStr "*");
                      ("tools", JArr [JStr "@news"; JStr "subscribe_user"]);
                      ("channels", JArr [JStr "telegram"])]);
               ("muted",
                JObj [("users", JStr "*");
                      ("tools", JArr []);
                      ("channels", JArr [JStr "max"])]);
               ("guest",
                JObj [("users", JStr "*");
                      ("tools", JArr [JStr "get_recent_news"])])]);
        ("toolGroups", JObj [("news", JArr [JStr "get_recent_news"; JStr "search_news"])]);
        ("rateLimit", JObj [("maxBlockedPerMinute", JNum 2)]);
        ("systemCommands",
         JObj [("mode", JStr "allowlist");
               ("allowed", JArr [JStr "/start"; JStr "Stop "; JStr "news"]);
               ("guestHelp", JStr "Ask me for the news.");
               ("blockResponse", JStr "Command not available.")])].

(** The sample policy with one more entry, put first, in the tool list of
    its operator role. *)
Definition widerOpsRole : RBACRoleConfig :=
  {| users := Items ["408001372"];
     tools := Items ["catalog_search"; "exec_*"];
     channels := Star |}.

Definition widerPolicy : RBACConfig :=
  {| roles := {| ownRoles := [("ops", widerOpsRole); ("news", Examples.newsRole);
                              ("guest", Examples.guestRole)];
                 rolesProto := None |};
     defaultRole := defaultRole Examples.policy;
     logBlocked := logBlocked Examples.policy;
     logAllowed := logAllowed Examples.policy;
     failSafe := failSafe Examples.policy;
     toolGroups := toolGroups Examples.policy;
     rateLimit := rateLimit Examples.policy;
     systemCommands := systemCommands Examples.policy;
     warnings := warnings Examples.policy |}.

(** Administrators by id with every tool, everybody else a guest; commands
    are guarded by the sample allowlist. *)
Definition adminRole : RBACRoleConfig :=
  {| users := Items ["408001372"]; tools := Star; channels := Star |}.

Definition adminPolicy : RBACConfig :=
  {| roles := {| ownRoles := [("admin", adminRole); ("guest", Examples.guestRole)];
                 rolesProto := None |};
     defaultRole := "guest";
     logBlocked := true;
     logAllowed := false;
     failSafe := Deny;
     toolGroups := noGroups;
     rateLimit := None;
     systemCommands := Some Examples.allowlist;
     warnings := [] |}.

(** A policy document with administrators by id and an allowlist for
    commands, and a host configuration that holds it as the configuration of
    the plugin. *)
Definition guardedDoc : JValue :=
  JObj [("roles",
         JObj [("admin",
                JObj [("users", JArr [JStr "408001372"]);
                      ("tools", JStr "*")]);
               ("guest",
                JObj [("users", JStr "*");
                      ("tools", JArr [JStr "get_recent_news"])])]);
        ("systemCommands",
         JObj [("mode", JStr "allowlist");
               ("allowed", JArr [JStr "/start"; JStr "/help"]);
               ("guestHelp", JStr "Ask me for the news.");
               ("blockResponse", JStr "Command not available.")])].

(** A document that names a member of [Object.prototype] as its default
    role, and one whose guest role refers to such a member as a tool
    group. *)
Definition inheritedDefaultDoc : JValue :=
  JObj [("roles",
         JObj [("admin",
                JObj [("users", JArr [JStr "408001372"]);
                      ("tools", JStr "*")])]);
        ("defaultRole", JStr "toString")].

Definition inheritedGroupDoc : JValue :=
  JObj [("roles",
         JObj [("guest",
                JObj [("users", JStr "*");
                      ("tools", JArr [JStr "@toString"; JStr "get_recent_news"])])])].

(** A document whose only role lists a reference to the group [toString],
    which it does not define, before the pattern [exec_*]. *)
Definition inheritedWildcardDoc : JValue :=
  JObj [("roles",
         JObj [("ops",
                JObj [("users", JStr "*");
                      ("tools", JArr [JStr "@toString"; JStr "exec_*"])])]);
        ("defaultRole", JStr "ops")].

(** A document with a role under the name [__proto__], between two
    others. *)
Definition protoRoleDoc : JValue :=
  JObj [("roles",
         JObj [("admin",
                JObj [("users", JArr [JStr "408001372"]);
                      ("tools", JStr "*")]);
               ("__proto__",
                JObj [("users", JStr "*");
                      ("tools", JStr "*")]);
               ("guest",
                JObj [("users", JStr "*");
                      ("tools", JArr [JStr "get_recent_news"])])])].

Definition guardedFields : list (string * JValue) :=
  match guardedDoc with JObj fields => fields | _ => [] end.

Definition hostConfig : list (string * JValue) :=
  [("plugins",
    JObj [("entries",
           JObj [("rbac", JObj [("enabled", JBool true); ("config", guardedDoc)])])])].

End Documents.

(** ** Sequences of calls *)

Module Runs.
Import RateLimit Plugin.

(** The limiter after a sequence of [shouldLog] calls. *)
Fixpoint after (calls : list (string * Z)) (rl : RateLimiter) : RateLimiter :=
  match calls with
  | [] => rl
  | (peerId, now) :: rest => after rest (shouldLog peerId now rl).2
  end.

(** The calls of one peer at the given times. *)
Definition callsOf (peerId : string) (times : list Z) : list (string * Z) :=
  (λ t, (peerId, t)) <$> times.

(** The window of a peer after [j] calls counted in the window that
    started at [t0], under the limit [max]. *)
Definition windowAfter (max t0 j : Z) : PeerWindow :=
  {| windowStart := t0;
     logged := Z.min j (Z.max 0 max);
     suppressed := j - Z.min j (Z.max 0 max) |}.

(** What is logged, call by call, when the same denied call of a peer comes
    in repeatedly; each element of [clock] holds the two clock readings of
    one call. *)
Fixpoint deniedLogs (toolName peerId : string) (channel : option string)
    (roleName : string) (reason : option string) (clock : list (Z * Z))
    (rateLimiter : option RateLimiter) : list (list LogEntry) :=
  match clock with
  | [] => []
  | (now, later) :: rest =>
      let '(logs, rateLimiter') :=
        logDenied toolName peerId channel roleName reason now later rateLimiter in
      logs :: deniedLogs toolName peerId channel roleName reason rest rateLimiter'
  end.

End Runs.

(** ** Notions used in the statements about the whole engine *)

Module Notions.
Import Config.

(** No role with wildcard users comes before a role with a user list. *)
Definition wildcardsLast (roles : list (string * RBACRoleConfig)) : Prop :=
  ∀ i j ni ri nj rj,
    i < j → roles !! i = Some (ni, ri) → roles !! j = Some (nj, rj) →
    users ri = Star → users rj = Star.

(** A loaded role [r] comes from the document entry [entry]: same name,
    and the three members of the entry parse to the three fields. *)
Definition loadsAs (entry : string * JValue) (r : string * RBACRoleConfig) : Prop :=
  r.1 = entry.1
  ∧ ∃ role, entry.2 = JObj role
      ∧ parseUsers (get "users" role) entry.1 = inr (users r.2)
      ∧ parseTools (get "tools" role) entry.1 = inr (tools r.2)
      ∧ parseChannels (get "channels" role) entry.1 = inr (channels r.2).

(** A name that reads [undefined] in an object created by [{}] unless the
    object has it as an own property: not a member of [Object.prototype]. *)
Definition plainName (k : string) : Prop := k ∉ JS.objectPrototypeNames.

(** Every entry that starts with [@], in the tool list of every own role,
    reads a truthy value in [toolGroups]; and when the name after the [@]
    is a plain name and the prototype of [toolGroups] has not been replaced,
    that value is a group the policy defines. *)
Definition groupRefsDefined (config : RBACConfig) : Prop :=
  ∀ roleName r l tool,
    (roleName, r) ∈ ownRoles (roles config) → tools r = Items l → tool ∈ l →
    JS.startsWith tool "@" = true →
    truthyGroup (groupAt (JS.sliceFrom 1 tool) (toolGroups config)) = true
    ∧ (plainName (JS.sliceFrom 1 tool) → groupsProto (toolGroups config) = None →
       is_Some (ownGroups (toolGroups config) !! JS.sliceFrom 1 tool)).

(** A command as the loader stores it: it starts with a slash, and
    lower-casing or trimming it changes nothing. *)
Definition normalCommand (c : string) : Prop :=
  JS.startsWith c "/" = true ∧ JS.toLowerCase c = c ∧ JS.trim c = c.

(** The members of the document that [parse] reads. *)
Definition knownKeys : list string :=
  ["roles"; "defaultRole"; "toolGroups"; "failSafe"; "rateLimit";
   "systemCommands"; "logBlocked"; "logAllowed"].

End Notions.

(** * Verification *)

(** ** The embedding on cases taken from the repository's tests *)

Section TestCases.
Import Config SessionKeyParser ToolGuard RateLimit CommandGuard.

Example parses_per_channel_peer :
  parseSessionKey "agent:main:telegram:direct:408001372"
  = Some {| peerId := "408001372"; channel := Some "telegram"; peerKind := Direct |}.
Proof. reflexivity. Qed.

Example parses_per_account_channel_peer :
  parseSessionKey "agent:main:telegram:default:direct:408001372"
  = Some {| peerId := "408001372"; channel := Some "telegram"; peerKind := Direct |}.
Proof. reflexivity. Qed.

Example parses_per_peer :
  parseSessionKey "agent:main:direct:408001372"
  = Some {| peerId := "408001372"; channel := None; peerKind := Direct |}.
Proof. reflexivity. Qed.

Example parses_group :
  parseSessionKey "agent:main:telegram:group:-100123456"
  = Some {| peerId := "-100123456"; channel := Some "telegram"; peerKind := Group |}.
Proof. reflexivity. Qed.

Example main_scope_is_none : parseSessionKey "agent:main:main" = None.
Proof. reflexivity. Qed.

Example empty_key_is_none : parseSessionKey EmptyString = None.
Proof. reflexivity. Qed.

Example wildcard_prefix_matches :
  checkToolAccess "exec_shell" "ops" Examples.policy = inr (allowedResult "ops").
Proof. vm_compute. reflexivity. Qed.

Example wildcard_prefix_itself_does_not_match :
  checkToolAccess "exec_" "ops" Examples.policy = inr (noAccess "exec_" "ops")
  ∧ checkToolAccess "exec" "ops" Examples.policy = inr (noAccess "exec" "ops").
Proof. split; vm_compute; reflexivity. Qed.

Example unknown_role_is_blocked :
  checkToolAccess "exec" "nobody" Examples.policy = inr (unknownRole "nobody").
Proof. vm_compute. reflexivity. Qed.

Example inherited_name_is_no_role :
  checkToolAccess "exec" "toString" Examples.policy = inl NotIterable.
Proof. vm_compute. reflexivity. Qed.

Example inherited_name_is_no_group :
  expandTools ["@toString"; "exec_*"] Examples.policy = inl NotIterable
  ∧ expandTools ["@nothing"; "exec_*"] Examples.policy
    = inr {| exact := []; wildcards := ["exec_*"] |}.
Proof. split; vm_compute; reflexivity. Qed.

Example command_with_argument : matchBlockedCommand "/status now" Examples.blocklist = Some "/status".
Proof. vm_compute. reflexivity. Qed.

Example command_case_and_leading_space :
  matchBlockedCommand "  /STATUS" Examples.blocklist = Some "/status".
Proof. vm_compute. reflexivity. Qed.

Example longer_command_is_another_command :
  matchBlockedCommand "/statusbar" Examples.blocklist = None.
Proof. vm_compute. reflexivity. Qed.

Example plain_text_is_no_command :
  matchBlockedCommand "what is status" Examples.blocklist = None.
Proof. vm_compute. reflexivity. Qed.

Example help_intercepted_though_allowed :
  matchBlockedCommand "/help" Examples.allowlist = Some "/help".
Proof. vm_compute. reflexivity. Qed.

Example limiter_suppresses_over_limit :
  callLogged <$> run [("peer-1", 0); ("peer-1", 0); ("peer-1", 0); ("peer-1", 0)]%Z (create 2)
  = [true; true; false; false].
Proof. vm_compute. reflexivity. Qed.

Example limiter_resets_after_60_seconds :
  callLogged <$> run [("peer-1", 0); ("peer-1", 0); ("peer-1", 60000); ("peer-1", 60000)]%Z
                     (create 1)
  = [true; false; true; false].
Proof. vm_compute. reflexivity. Qed.

Example limiter_tracks_peers_independently :
  callLogged <$> run [("peer-a", 0); ("peer-b", 0); ("peer-a", 0); ("peer-b", 0)]%Z (create 1)
  = [true; true; false; false].
Proof. vm_compute. reflexivity. Qed.

Example loader_rejects_shadowed_admin :
  parse Examples.shadowedDoc = inl (WildcardBeforeSpecific "everyone" "admin").
Proof. reflexivity. Qed.

End TestCases.

(** ** Facts about the string primitives *)

Section JSFacts.

Lemma includes_true arr x : JS.includes arr x = true ↔ x ∈ arr.
Proof. unfold JS.includes. apply bool_decide_eq_true. Qed.

Lemma includes_false arr x : JS.includes arr x = false ↔ x ∉ arr.
Proof. unfold JS.includes. apply bool_decide_eq_false. Qed.

Lemma startsWith_cons s p a :
  JS.startsWith s (String a p) = true →
  ∃ s', s = String a s' ∧ JS.startsWith s' p = true.
Proof.
  destruct s as [|b s']; simpl; [discriminate|].
  destruct (Ascii.eqb b a) eqn:E; [|discriminate].
  apply Ascii.eqb_eq in E as ->. eauto.
Qed.

Lemma startsWith_trans s p q :
  JS.startsWith s p = true → JS.startsWith p q = true → JS.startsWith s q = true.
Proof.
  revert s p. induction q as [|c q IH]; intros s p Hsp Hpq; [by destruct s|].
  apply startsWith_cons in Hpq as (p' & -> & Hpq).
  apply startsWith_cons in Hsp as (s' & -> & Hsp).
  simpl. rewrite Ascii.eqb_refl. eauto.
Qed.

Lemma sliceTo_startsWith k s p :
  JS.startsWith (JS.sliceTo k s) p = true → JS.startsWith s p = true.
Proof.
  revert k s. induction p as [|c p IH]; intros k s H; [by destruct s|].
  destruct k as [|k], s as [|a s]; simpl in *; try discriminate.
  destruct (Ascii.eqb a c); [eauto|discriminate].
Qed.

Lemma startsWith_sliceTo k s p :
  JS.startsWith s p = true → JS.len p ≤ k → JS.startsWith (JS.sliceTo k s) p = true.
Proof.
  revert k s. induction p as [|c p IH]; intros k s H Hk; [by destruct (JS.sliceTo k s)|].
  apply startsWith_cons in H as (s' & -> & H).
  destruct k as [|k]; simpl in *; [lia|].
  rewrite Ascii.eqb_refl. apply IH; [done|]. unfold JS.len in *. lia.
Qed.

Lemma len_sliceFrom k s : JS.len (JS.sliceFrom k s) = JS.len s - k.
Proof.
  revert s. induction k as [|k IH]; intros [|a s]; simpl; try done.
  all: unfold JS.len; simpl; lia.
Qed.

Lemma endsWith_len s p : JS.endsWith s p = true → JS.len p ≤ JS.len s.
Proof.
  unfold JS.endsWith. intros [H _]%andb_true_iff. by apply Nat.leb_le in H.
Qed.

Lemma sliceTo_sliceFrom k s : JS.sliceTo k s +:+ JS.sliceFrom k s = s.
Proof.
  revert s. induction k as [|k IH]; intros [|a s];
    cbn [JS.sliceTo JS.sliceFrom]; try done.
  change (String a (JS.sliceTo k s +:+ JS.sliceFrom k s) = String a s). by rewrite IH.
Qed.

Lemma sliceFrom_sliceFrom j k s : JS.sliceFrom j (JS.sliceFrom k s) = JS.sliceFrom (k + j) s.
Proof.
  revert s. induction k as [|k IH]; intros s; simpl; [done|].
  destruct s as [|a s]; [by destruct j|]. apply IH.
Qed.

Lemma sliceTo_append p q : JS.sliceTo (String.length p) (p +:+ q) = p.
Proof.
  induction p as [|a p IH]; [by destruct q|].
  change (String a (JS.sliceTo (String.length p) (p +:+ q)) = String a p). by rewrite IH.
Qed.

Lemma length_append_star p : String.length (p +:+ "*") = S (String.length p).
Proof.
  induction p as [|a p IH]; [done|].
  change (S (String.length (p +:+ "*")) = S (S (String.length p))). by rewrite IH.
Qed.

Lemma dropLast_append_star p : JS.dropLast (p +:+ "*") = p.
Proof.
  unfold JS.dropLast, JS.len. rewrite length_append_star, Nat.sub_succ, Nat.sub_0_r.
  apply sliceTo_append.
Qed.

(** A string that ends in [_*] is its [slice(0, -1)] followed by a star. *)
Lemma endsWith_star s : JS.endsWith s "_*" = true → s = JS.dropLast s +:+ "*".
Proof.
  unfold JS.endsWith. intros [Hlen Heq]%andb_true_iff.
  apply Nat.leb_le in Hlen. apply String.eqb_eq in Heq.
  change (JS.len "_*") with 2 in *.
  rewrite <-(sliceTo_sliceFrom (JS.len s - 1) s) at 1. unfold JS.dropLast. f_equal.
  replace (JS.len s - 1) with (JS.len s - 2 + 1) by lia.
  by rewrite <-sliceFrom_sliceFrom, Heq.
Qed.

End JSFacts.

(** ** The tool guard *)

Section ToolGuardFacts.
Import Config ToolGuard.

(** The loop only ever appends to its two accumulators. *)
Lemma expandLoop_acc tools config ex wc :
  expandLoop tools config ex wc =
  match expandTools tools config with
  | inl err => inl err
  | inr e => inr {| exact := ex ++ exact e; wildcards := wc ++ wildcards e |}
  end.
Proof.
  unfold expandTools. revert ex wc.
  induction tools as [|entry rest IH]; intros ex wc; cbn [expandLoop].
  - by rewrite !app_nil_r.
  - destruct (JS.endsWith entry "_*").
    { rewrite (IH ex (wc ++ _)), (IH [] ([] ++ _)).
      destruct (expandLoop rest config [] []); [done|]. cbn. by rewrite <-app_assoc. }
    destruct (JS.startsWith entry "@").
    + destruct (truthyGroup _); [|apply IH].
      destruct (spread _) as [err|items]; [done|].
      rewrite (IH (ex ++ _) wc), (IH ([] ++ items) []).
      destruct (expandLoop rest config [] []); [done|]. cbn. by rewrite <-app_assoc.
    + rewrite (IH (ex ++ _) wc), (IH ([] ++ _) []).
      destruct (expandLoop rest config [] []); [done|]. cbn. by rewrite <-app_assoc.
Qed.

Lemma expandLoop_app tools1 tools2 config ex wc :
  expandLoop (tools1 ++ tools2) config ex wc =
  match expandLoop tools1 config ex wc with
  | inl err => inl err
  | inr e => expandLoop tools2 config (exact e) (wildcards e)
  end.
Proof.
  revert ex wc. induction tools1 as [|entry rest IH]; intros ex wc; cbn [expandLoop app];
    [done|].
  destruct (JS.endsWith entry "_*"); [apply IH|].
  destruct (JS.startsWith entry "@"); [|apply IH].
  destruct (truthyGroup _); [|apply IH].
  destruct (spread _); [done|apply IH].
Qed.

(** Expanding a list in two parts: an error of either part, the first
    one first, or the buckets of the two parts appended. *)
Lemma expandTools_app tools1 tools2 config :
  expandTools (tools1 ++ tools2) config =
  match expandTools tools1 config, expandTools tools2 config with
  | inl err, _ => inl err
  | inr _, inl err => inl err
  | inr e1, inr e2 =>
      inr {| exact := exact e1 ++ exact e2; wildcards := wildcards e1 ++ wildcards e2 |}
  end.
Proof.
  unfold expandTools at 1. rewrite expandLoop_app. fold (expandTools tools1 config).
  destruct (expandTools tools1 config) as [err|e1]; [done|]. apply expandLoop_acc.
Qed.

(** An entry ending in [_*] lands in the wildcard bucket whatever it
    starts with. *)
Lemma expandTools_wildcard_entry entry config :
  JS.endsWith entry "_*" = true →
  expandTools [entry] config = inr {| exact := []; wildcards := [entry] |}.
Proof. unfold expandTools. cbn [expandLoop]. by intros ->. Qed.

(** What a single entry expands to. *)
Lemma expandTools_entry entry config :
  expandTools [entry] config =
  if JS.endsWith entry "_*" then inr {| exact := []; wildcards := [entry] |}
  else if JS.startsWith entry "@" then
    if truthyGroup (groupAt (JS.sliceFrom 1 entry) (toolGroups config)) then
      match spread (groupAt (JS.sliceFrom 1 entry) (toolGroups config)) with
      | inl err => inl err
      | inr items => inr {| exact := items; wildcards := [] |}
      end
    else inr {| exact := []; wildcards := [] |}
  else inr {| exact := [entry]; wildcards := [] |}.
Proof.
  unfold expandTools. cbn [expandLoop]. destruct (JS.endsWith entry "_*"); [done|].
  destruct (JS.startsWith entry "@"); [|done]. destruct (truthyGroup _); [|done].
  by destruct (spread _).
Qed.

Lemma expandTools_cons entry rest config :
  expandTools (entry :: rest) config =
  match expandTools [entry] config, expandTools rest config with
  | inl err, _ => inl err
  | inr _, inl err => inl err
  | inr e1, inr e2 =>
      inr {| exact := exact e1 ++ exact e2; wildcards := wildcards e1 ++ wildcards e2 |}
  end.
Proof. apply (expandTools_app [entry] rest). Qed.

(** The wildcard bucket of an expansion holds the entries ending in [_*]. *)
Lemma wildcards_bucket l config e pattern :
  expandTools l config = inr e →
  pattern ∈ wildcards e ↔ pattern ∈ l ∧ JS.endsWith pattern "_*" = true.
Proof.
  revert e. induction l as [|entry rest IH]; intros e.
  { intros [= <-]. cbn. split; [by intros ?%elem_of_nil|by intros [?%elem_of_nil _]]. }
  rewrite expandTools_cons.
  destruct (expandTools [entry] config) as [err|e1] eqn:H1; [done|].
  destruct (expandTools rest config) as [err|e2]; [done|].
  intros [= <-]. cbn [wildcards]. rewrite elem_of_app, (IH e2 eq_refl), elem_of_cons.
  rewrite expandTools_entry in H1. destruct (JS.endsWith entry "_*") eqn:Hend.
  - injection H1 as <-. cbn [wildcards]. rewrite list_elem_of_singleton. split.
    + intros [->|[? ?]]; auto.
    + intros [[->|?] ?]; auto.
  - assert (Hnone : wildcards e1 = []).
    { repeat case_match; try done; by injection H1 as <-. }
    rewrite Hnone, elem_of_nil. split.
    + intros [[]|[? ?]]; auto.
    + intros [[->|?] ?]; [congruence|auto].
Qed.

Lemma wildcardMatches_true toolName pattern :
  wildcardMatches toolName pattern = true ↔
  JS.startsWith toolName (JS.dropLast pattern) = true
  ∧ JS.len (JS.dropLast pattern) < JS.len toolName.
Proof.
  unfold wildcardMatches. rewrite andb_true_iff, bool_decide_eq_true. done.
Qed.

Lemma existsb_wildcard toolName wc :
  existsb (wildcardMatches toolName) wc = true ↔
  ∃ pattern, pattern ∈ wc ∧ wildcardMatches toolName pattern = true.
Proof.
  rewrite existsb_exists. split; intros (p & H1 & H2); exists p.
  - by rewrite list_elem_of_In.
  - by rewrite <-list_elem_of_In.
Qed.

(** The guard on a role with a tool list that expands. *)
Lemma checkToolAccess_expanded toolName roleName config r l e :
  roleAt roleName (roles config) = IsRole r → tools r = Items l →
  expandTools l config = inr e →
  checkToolAccess toolName roleName config =
  inr (if JS.includes (exact e) toolName || existsb (wildcardMatches toolName) (wildcards e)
       then allowedResult roleName else noAccess toolName roleName).
Proof.
  intros Hrole Htools He. unfold checkToolAccess. rewrite Hrole, Htools, He.
  destruct (JS.includes (exact e) toolName); [done|]. by destruct (existsb _ _).
Qed.

Lemma viaWildcard_existsb toolName e :
  viaWildcard toolName e ↔ existsb (wildcardMatches toolName) (wildcards e) = true.
Proof.
  rewrite existsb_wildcard. unfold viaWildcard.
  split; intros (p & Hp & Hm); exists p; split; try done; by apply wildcardMatches_true.
Qed.

(** The wildcard test on the bucket, in terms of the tool list. *)
Lemma viaWildcard_viaPatternOf toolName l config e :
  expandTools l config = inr e →
  viaWildcard toolName e ↔ viaPatternOf toolName l.
Proof.
  intros He. unfold viaWildcard, viaPatternOf. split.
  - intros (pattern & Hin & Hs & Hl).
    apply (wildcards_bucket _ _ _ _ He) in Hin as [Hin Hend].
    exists pattern, (JS.dropLast pattern). split_and!; try done. by apply endsWith_star.
  - intros (pattern & prefix & Hin & Hend & -> & Hs & Hl).
    exists (prefix +:+ "*"). rewrite dropLast_append_star.
    split; [|done]. by apply (wildcards_bucket _ _ _ _ He).
Qed.

(** A list expands when each of its group references names a group of the
    policy's own or reads nothing. *)
Lemma expandTools_returns l config :
  (∀ entry, entry ∈ l → JS.endsWith entry "_*" = false →
            JS.startsWith entry "@" = true →
            is_Some (ownGroups (toolGroups config) !! JS.sliceFrom 1 entry)
            ∨ truthyGroup (groupAt (JS.sliceFrom 1 entry) (toolGroups config)) = false) →
  ∃ e, expandTools l config = inr e.
Proof.
  induction l as [|entry rest IH]; intros Hrefs; [by eexists|].
  rewrite expandTools_cons.
  destruct IH as [e2 ->]; [intros x Hx; apply Hrefs; by right|].
  assert (∃ e1, expandTools [entry] config = inr e1) as [e1 ->]; [|by eexists].
  rewrite expandTools_entry.
  destruct (JS.endsWith entry "_*") eqn:Hend; [by eexists|].
  destruct (JS.startsWith entry "@") eqn:Hat; [|by eexists].
  destruct (Hrefs entry (list_elem_of_here _ _) Hend Hat) as [[items Hown]| ->];
    [|by eexists].
  unfold groupAt. rewrite Hown. cbn. by eexists.
Qed.

(** X29.  For a role that exists and lists its tools explicitly, the guard
    allows a tool exactly when the list expands and the tool is in the exact
    bucket or some pattern of the wildcard bucket, with its trailing star
    removed, is a proper prefix of the tool name.  That pattern test is the
    one of the rule, stated on the list itself: some entry ends in [_*] and,
    without its trailing star, is a prefix of the tool name and shorter than
    it.  So, apart from exact matches, access is granted through a wildcard
    entry if and only if such an entry exists, and is refused with the
    no-access reason otherwise; the tool [exec] is denied when no entry other
    than [exec_*] matches it.  When the list does not expand, the guard
    throws and allows nothing.  The list expands whenever each group
    reference in it names a group of the policy's own or reads nothing. *)
Theorem checkToolAccess_wildcard_iff
    (toolName roleName : string) (config : RBACConfig)
    (r : RBACRoleConfig) (l : list string) :
  roleAt roleName (roles config) = IsRole r →
  tools r = Items l →
  (checkToolAccess toolName roleName config = inr (allowedResult roleName)
     ↔ ∃ e, expandTools l config = inr e
            ∧ (toolName ∈ exact e ∨ viaWildcard toolName e))
  ∧ (∀ e, expandTools l config = inr e →
       (viaWildcard toolName e ↔ viaPatternOf toolName l)
       ∧ (toolName ∉ exact e →
            (checkToolAccess toolName roleName config = inr (allowedResult roleName)
               ↔ viaPatternOf toolName l)
            ∧ (¬ viaPatternOf toolName l →
               checkToolAccess toolName roleName config
               = inr (noAccess toolName roleName))))
  ∧ (∀ e, expandTools l config = inr e →
       toolName = "exec" → "exec" ∉ exact e →
       (∀ pattern prefix,
          pattern ∈ l → pattern ≠ "exec_*" → JS.endsWith pattern "_*" = true →
          pattern = prefix +:+ "*" →
          ¬ (JS.startsWith "exec" prefix = true ∧ JS.len prefix < JS.len "exec")) →
       checkToolAccess toolName roleName config = inr (noAccess toolName roleName))
  ∧ (expandTools l config = inl NotIterable →
       checkToolAccess toolName roleName config = inl NotIterable)
  ∧ ((∀ entry, entry ∈ l → JS.endsWith entry "_*" = false →
                JS.startsWith entry "@" = true →
                is_Some (ownGroups (toolGroups config) !! JS.sliceFrom 1 entry)
                ∨ truthyGroup (groupAt (JS.sliceFrom 1 entry) (toolGroups config))
                  = false) →
     ∃ e, expandTools l config = inr e
          ∧ (toolName ∈ exact e ∨ viaPatternOf toolName l →
             checkToolAccess toolName roleName config = inr (allowedResult roleName))
          ∧ (toolName ∉ exact e → ¬ viaPatternOf toolName l →
             checkToolAccess toolName roleName config
             = inr (noAccess toolName roleName))).
Proof.
  intros Hrole Htools.
  assert (Hdenied : ∀ e, expandTools l config = inr e → toolName ∉ exact e →
            ¬ viaPatternOf toolName l →
            checkToolAccess toolName roleName config = inr (noAccess toolName roleName)).
  { intros e He Hnot Hno. rewrite (checkToolAccess_expanded _ _ _ _ _ _ Hrole Htools He).
    apply includes_false in Hnot. rewrite Hnot.
    destruct (existsb _ _) eqn:Hwc; [|done].
    destruct Hno. by apply (viaWildcard_viaPatternOf _ _ _ _ He), viaWildcard_existsb. }
  split_and!.
  - split.
    + unfold checkToolAccess. rewrite Hrole, Htools.
      destruct (expandTools l config) as [err|e]; [done|]. intros H. exists e. split; [done|].
      destruct (JS.includes (exact e) toolName) eqn:Hex; [left; by apply includes_true|].
      destruct (existsb _ _) eqn:Hwc; [right; by apply viaWildcard_existsb|done].
    + intros (e & He & Hvia). rewrite (checkToolAccess_expanded _ _ _ _ _ _ Hrole Htools He).
      destruct Hvia as [Hex%includes_true|Hwc%viaWildcard_existsb].
      * by rewrite Hex.
      * by rewrite Hwc, orb_true_r.
  - intros e He. split; [by apply (viaWildcard_viaPatternOf _ _ config)|].
    intros Hnot. split; [|eauto].
    rewrite (checkToolAccess_expanded _ _ _ _ _ _ Hrole Htools He).
    apply includes_false in Hnot. rewrite Hnot, <-(viaWildcard_viaPatternOf _ _ _ _ He).
    rewrite viaWildcard_existsb. by destruct (existsb _ _).
  - intros e He -> Hnot Hothers. apply (Hdenied e He Hnot).
    intros (pattern & prefix & Hin & Hend & Hpat & Hs & Hl).
    destruct (decide (pattern = "exec_*")) as [->|Hne].
    + assert (prefix = "exec_") as ->.
      { rewrite <-(dropLast_append_star prefix), <-Hpat. done. }
      vm_compute in Hl. lia.
    + by apply (Hothers pattern prefix).
  - intros He. unfold checkToolAccess. by rewrite Hrole, Htools, He.
  - intros [e He]%expandTools_returns. exists e. split; [done|]. split; [|by eauto].
    rewrite (checkToolAccess_expanded _ _ _ _ _ _ Hrole Htools He).
    intros [Hex%includes_true|Hvia].
    + by rewrite Hex.
    + apply (viaWildcard_viaPatternOf _ _ _ _ He), viaWildcard_existsb in Hvia.
      by rewrite Hvia, orb_true_r.
Qed.

(** Witness for X29 on the sample policy: under the list [exec_*] of the
    role [ops] the tool [exec_shell] is allowed and the tool [exec] is
    not. *)
Lemma checkToolAccess_wildcard_iff_witness :
  roleAt "ops" (roles Examples.policy) = IsRole Examples.opsRole
  ∧ tools Examples.opsRole = Items ["exec_*"]
  ∧ checkToolAccess "exec_shell" "ops" Examples.policy = inr (allowedResult "ops")
  ∧ checkToolAccess "exec" "ops" Examples.policy = inr (noAccess "exec" "ops").
Proof.
  split; [reflexivity|]. split; [reflexivity|]. split.
  - apply (proj1 (checkToolAccess_wildcard_iff "exec_shell" "ops" Examples.policy
                    Examples.opsRole ["exec_*"] eq_refl eq_refl)).
    exists {| exact := []; wildcards := ["exec_*"] |}. split; [reflexivity|].
    right. exists "exec_*". split; [apply list_elem_of_here|]. split; [reflexivity|].
    vm_compute. lia.
  - apply (proj1 (proj2 (proj2 (checkToolAccess_wildcard_iff "exec" "ops" Examples.policy
                                  Examples.opsRole ["exec_*"] eq_refl eq_refl)))
             {| exact := []; wildcards := ["exec_*"] |} eq_refl eq_refl).
    + apply not_elem_of_nil.
    + intros pattern prefix Hin Hne. apply list_elem_of_singleton in Hin. contradiction.
Defined.

Lemma dropLast_startsWith entry p :
  JS.startsWith entry p = true → JS.len p < JS.len entry →
  JS.startsWith (JS.dropLast entry) p = true.
Proof.
  intros Hs Hl. unfold JS.dropLast. apply startsWith_sliceTo; [done|lia].
Qed.

(** C10. An entry that starts with [@] and ends with [_*] is put in the
    wildcard bucket with the [@] kept in its prefix and contributes nothing
    to the exact bucket, whatever surrounds it in the tool list and whatever
    groups the policy defines; the pattern therefore only matches tool names
    that themselves begin with [@], and a role whose only entry it is gets
    access to no other tool. *)
Theorem at_pattern_is_wildcard_not_group (entry : string) :
  JS.startsWith entry "@" = true →
  JS.endsWith entry "_*" = true →
  (∀ tools1 tools2 config,
     expandTools (tools1 ++ entry :: tools2) config =
     match expandTools tools1 config, expandTools tools2 config with
     | inl err, _ => inl err
     | inr _, inl err => inl err
     | inr e1, inr e2 =>
         inr {| exact := exact e1 ++ exact e2;
                wildcards := wildcards e1 ++ entry :: wildcards e2 |}
     end)
  ∧ JS.startsWith (JS.dropLast entry) "@" = true
  ∧ (∀ toolName, wildcardMatches toolName entry = true →
                 JS.startsWith toolName "@" = true)
  ∧ (∀ toolName roleName config r,
       roleAt roleName (roles config) = IsRole r →
       tools r = Items [entry] →
       ∃ result,
         checkToolAccess toolName roleName config = inr result
         ∧ (allowed result = true → JS.startsWith toolName "@" = true)).
Proof.
  intros Hat Hstar.
  assert (Hprefix : JS.startsWith (JS.dropLast entry) "@" = true).
  { apply dropLast_startsWith; [done|].
    apply endsWith_len in Hstar. unfold JS.len in *. simpl in *. lia. }
  assert (Hmatch : ∀ toolName, wildcardMatches toolName entry = true →
                               JS.startsWith toolName "@" = true).
  { intros toolName [Hs _]%wildcardMatches_true. by eapply startsWith_trans. }
  split; [|split; [done|split; [done|]]].
  - intros tools1 tools2 config. rewrite expandTools_app.
    destruct (expandTools tools1 config) as [err|e1]; [done|].
    rewrite expandTools_cons, expandTools_wildcard_entry by done.
    by destruct (expandTools tools2 config).
  - intros toolName roleName config r Hrole Htools.
    rewrite (checkToolAccess_expanded _ _ _ _ _ _ Hrole Htools
               (expandTools_wildcard_entry _ _ Hstar)).
    eexists. split; [done|]. cbn [exact wildcards existsb].
    destruct (JS.includes [] toolName) eqn:Hin.
    { apply includes_true in Hin. by apply not_elem_of_nil in Hin. }
    rewrite orb_false_r. cbn [orb].
    destruct (wildcardMatches toolName entry) eqn:Hw; [auto|done].
Qed.

(** Witness for C10 on the sample policy, whose group [news_*] exists and
    is nevertheless not expanded. *)
Lemma at_pattern_is_wildcard_not_group_witness :
  JS.startsWith "@news_*" "@" = true
  ∧ JS.endsWith "@news_*" "_*" = true
  ∧ expandTools (["a"] ++ "@news_*" :: ["b"]) Examples.policy =
    inr {| exact := ["a"; "b"]; wildcards := ["@news_*"] |}.
Proof.
  split; [reflexivity|]. split; [reflexivity|].
  exact (proj1 (at_pattern_is_wildcard_not_group "@news_*" eq_refl eq_refl)
           ["a"] ["b"] Examples.policy).
Defined.

End ToolGuardFacts.

(** ** The role resolver *)

Section RoleResolverFacts.
Import Config RoleResolver.

Variables (peerId : string) (channel : option string).

Lemma resolveLoop_step roleName role rest defaultRole :
  resolveLoop peerId channel ((roleName, role) :: rest) defaultRole =
  if roleMatches peerId channel role then roleName
  else resolveLoop peerId channel rest defaultRole.
Proof.
  unfold roleMatches. simpl.
  by destruct (usersMatch peerId role), (channelsMatch channel role).
Qed.

Lemma resolveLoop_no_match entries defaultRole :
  Forall (λ e, roleMatches peerId channel e.2 = false) entries →
  resolveLoop peerId channel entries defaultRole = defaultRole.
Proof.
  induction 1 as [|[roleName role] rest Hno _ IH]; [done|].
  rewrite resolveLoop_step. simpl in Hno. by rewrite Hno.
Qed.

Lemma resolveLoop_first_match pre roleName role post defaultRole :
  Forall (λ e, roleMatches peerId channel e.2 = false) pre →
  roleMatches peerId channel role = true →
  resolveLoop peerId channel (pre ++ (roleName, role) :: post) defaultRole = roleName.
Proof.
  intros Hpre Hm. induction Hpre as [|[n r] rest Hno _ IH]; simpl app.
  - by rewrite resolveLoop_step, Hm.
  - rewrite resolveLoop_step. simpl in Hno. by rewrite Hno.
Qed.

Lemma resolveLoop_key_or_default entries defaultRole :
  resolveLoop peerId channel entries defaultRole ∈ entries.*1
  ∨ resolveLoop peerId channel entries defaultRole = defaultRole.
Proof.
  induction entries as [|[roleName role] rest IH]; [by right|].
  rewrite resolveLoop_step. destruct (roleMatches peerId channel role).
  - left. simpl. apply list_elem_of_here.
  - destruct IH as [IH|IH]; [left|by right]. simpl. by apply list_elem_of_further.
Qed.

(** The resolved name is the name of the first own role, in declared
    order, whose users and channels both match, and the default role when no
    role matches; so it is a key of the roles whenever the default role is
    one. *)
Lemma resolveRole_first_match_or_default (config : RBACConfig) :
  (resolveRole peerId channel config ∈ (ownRoles (roles config)).*1
   ∨ resolveRole peerId channel config = defaultRole config)
  ∧ (∀ pre roleName role post,
       ownRoles (roles config) = pre ++ (roleName, role) :: post →
       Forall (λ e, roleMatches peerId channel e.2 = false) pre →
       roleMatches peerId channel role = true →
       resolveRole peerId channel config = roleName)
  ∧ (Forall (λ e, roleMatches peerId channel e.2 = false) (ownRoles (roles config)) →
     resolveRole peerId channel config = defaultRole config).
Proof.
  unfold resolveRole. repeat split.
  - apply resolveLoop_key_or_default.
  - intros pre roleName role post -> Hpre Hm. by apply resolveLoop_first_match.
  - apply resolveLoop_no_match.
Qed.

End RoleResolverFacts.

(** ** The command guard *)

Section CommandGuardFacts.
Import Config CommandGuard.

(** [takeUntil] splits its argument just before the first stopping unit. *)
Lemma takeUntil_split stop s :
  ∃ rest, s = takeUntil stop s +:+ rest
          ∧ (rest = EmptyString ∨ ∃ a r, rest = String a r ∧ stop a = true).
Proof.
  induction s as [|a s (rest & Hs & Hrest)]; simpl.
  - exists EmptyString. auto.
  - destruct (stop a) eqn:Ha.
    + exists (String a s). split; [done|]. right. eauto.
    + exists rest. split; [|done]. rewrite Hs at 1. reflexivity.
Qed.

Lemma takeUntil_clean stop s a :
  JS.indexOf a (takeUntil stop s) ≠ None → stop a = false.
Proof.
  induction s as [|b s IH]; simpl; [done|].
  destruct (stop b) eqn:Hb; simpl; [done|].
  destruct (Ascii.eqb b a) eqn:E; [|destruct (JS.indexOf a (takeUntil stop s)); auto].
  apply Ascii.eqb_eq in E as <-. done.
Qed.

(** Cutting at the index of the first SPACE is [headUpToSpace]. *)
Lemma slice_at_space s :
  match JS.indexOf " "%char s with
  | None => s
  | Some spaceIdx => JS.sliceTo spaceIdx s
  end = headUpToSpace s.
Proof.
  unfold headUpToSpace. induction s as [|a s IH]; simpl; [done|].
  unfold isSpace at 1. destruct (Ascii.eqb a " "); [done|].
  destruct (JS.indexOf " " s); simpl; by f_equal.
Qed.

Lemma extractCommand_head trimmed :
  JS.startsWith trimmed "/" = true →
  extractCommand trimmed = Some (headUpToSpace trimmed)
  ∧ JS.truthy (headUpToSpace trimmed) = true.
Proof.
  intros Hs. unfold extractCommand. rewrite Hs. simpl. split.
  - rewrite <-slice_at_space. by destruct (JS.indexOf " " trimmed).
  - apply startsWith_cons in Hs as (s' & -> & _). done.
Qed.

(** What [matchBlockedCommand] computes.  The content is trimmed and
    lower-cased; when the result does not start with a slash the answer is
    none; otherwise the head tested against the lists is the prefix of the
    trimmed string up to its first SPACE (U+0020), the whole string when it
    has none. *)
Theorem matchBlockedCommand_head (content : string) (config : SystemCommandsConfig) :
  (JS.startsWith (normalize content) "/" = false →
     matchBlockedCommand content config = None)
  ∧ (JS.startsWith (normalize content) "/" = true →
     matchBlockedCommand content config
     = verdict (headUpToSpace (normalize content)) config)
  ∧ (∃ rest, normalize content = headUpToSpace (normalize content) +:+ rest
             ∧ (rest = EmptyString ∨ ∃ r, rest = String " " r))
  ∧ JS.indexOf " "%char (headUpToSpace (normalize content)) = None.
Proof.
  unfold matchBlockedCommand. set (trimmed := normalize content). repeat split.
  - intros Hs. unfold extractCommand. by rewrite Hs.
  - intros Hs. destruct (extractCommand_head trimmed Hs) as [-> ->]. done.
  - destruct (takeUntil_split isSpace trimmed) as (rest & Hs & Hrest).
    exists rest. split; [done|]. destruct Hrest as [?|(a & r & -> & Ha)]; [by left|].
    right. exists r. by apply Ascii.eqb_eq in Ha as ->.
  - destruct (JS.indexOf " " (headUpToSpace trimmed)) eqn:E; [|done].
    assert (H : isSpace " " = false); [|done].
    apply (takeUntil_clean isSpace trimmed). fold (headUpToSpace trimmed).
    by rewrite E.
Qed.

(** A command followed by a space and an argument. *)
Lemma matchBlockedCommand_head_witness :
  JS.startsWith (normalize "  /Status now ") "/" = true
  ∧ matchBlockedCommand "  /Status now " Examples.blocklist
    = verdict "/status" Examples.blocklist.
Proof.
  split; [reflexivity|].
  exact (proj1 (proj2 (matchBlockedCommand_head "  /Status now " _)) eq_refl).
Defined.

(** C6, at the failing input: the message [/status], a TAB, [now], under a
    blocklist that holds [/status].  [extractCommand] is to return the
    command without its arguments, but cuts at the first SPACE only: the TAB
    does not end the head, the whole message is taken as the command and is
    not found on the blocklist, so the blocked command passes.  Cutting at
    the first white-space character gives [/status], which is blocked. *)
Lemma matchBlockedCommand_whitespace_counterexample :
  JS.startsWith (normalize Examples.statusTabNow) "/" = true
  ∧ headUpToWhitespace (normalize Examples.statusTabNow) = "/status"
  ∧ matchBlockedCommand_spec Examples.statusTabNow Examples.blocklist = Some "/status"
  ∧ matchBlockedCommand Examples.statusTabNow Examples.blocklist = None
  ∧ matchBlockedCommand Examples.statusTabNow Examples.blocklist
    ≠ matchBlockedCommand_spec Examples.statusTabNow Examples.blocklist.
Proof. repeat split; vm_compute; congruence. Qed.

(** C7. With [guestHelp] set, every message whose extracted command is
    [/help] is answered with [/help], in both modes and whatever the lists
    hold; the response for [/help] is the guest help text, and for every
    other command it is the block response. *)
Theorem help_is_intercepted (config : SystemCommandsConfig) (help : string) :
  guestHelp config = Some help →
  (∀ content,
     extractCommand (normalize content) = Some "/help" →
     matchBlockedCommand content config = Some "/help")
  ∧ getBlockResponse "/help" config = help
  ∧ (∀ command, command ≠ "/help" →
                getBlockResponse command config = blockResponse config).
Proof.
  intros Hhelp. repeat split.
  - intros content Hcmd. unfold matchBlockedCommand. rewrite Hcmd. simpl.
    unfold verdict. by rewrite Hhelp.
  - unfold getBlockResponse. by rewrite Hhelp.
  - intros command Hne. unfold getBlockResponse. rewrite Hhelp.
    destruct (String.eqb command "/help") eqn:E; [|done].
    by apply String.eqb_eq in E.
Qed.

(** Witness for C7: allowlist mode with [/help] explicitly allowed. *)
Lemma help_is_intercepted_witness :
  guestHelp Examples.allowlist = Some "Ask me for the news."
  ∧ extractCommand (normalize " /HELP me") = Some "/help"
  ∧ matchBlockedCommand " /HELP me" Examples.allowlist = Some "/help"
  ∧ getBlockResponse "/help" Examples.allowlist = "Ask me for the news.".
Proof.
  split; [reflexivity|]. split; [reflexivity|].
  pose proof (help_is_intercepted Examples.allowlist "Ask me for the news." eq_refl)
    as (H1 & H2 & _).
  split; [exact (H1 " /HELP me" eq_refl)|exact H2].
Defined.

End CommandGuardFacts.

Section PendingBlockFacts.
Import CommandGuard.

(** C8. Whatever the slot holds and whatever the time, the slot is empty
    after [consumePendingBlock]; the call returns none when the slot was
    empty or the entry is more than ten seconds old, and the stored
    command otherwise. *)
Theorem consumePendingBlock_empties_slot (now : Z) (pendingBlock : option PendingBlock) :
  (consumePendingBlock now pendingBlock).2 = None
  ∧ (pendingBlock = None → (consumePendingBlock now pendingBlock).1 = None)
  ∧ (∀ block, pendingBlock = Some block →
       (STALE_MS < now - timestamp block)%Z →
       (consumePendingBlock now pendingBlock).1 = None)
  ∧ (∀ block, pendingBlock = Some block →
       (now - timestamp block ≤ STALE_MS)%Z →
       (consumePendingBlock now pendingBlock).1 = Some (command block)).
Proof.
  unfold consumePendingBlock. repeat split.
  - destruct pendingBlock as [block|]; [|done].
    by destruct (STALE_MS <? now - timestamp block)%Z.
  - by intros ->.
  - intros block -> Hold. apply Z.ltb_lt in Hold. by rewrite Hold.
  - intros block -> Hfresh. apply Z.ltb_ge in Hfresh. by rewrite Hfresh.
Qed.

(** Witness for C8: an entry armed at time 0 and consumed 5 s later. *)
Lemma consumePendingBlock_empties_slot_witness :
  (5000 - timestamp {| command := "/status"; timestamp := 0 |} ≤ STALE_MS)%Z
  ∧ (consumePendingBlock 5000 (Some {| command := "/status"; timestamp := 0 |})).1
    = Some "/status".
Proof.
  assert (H : (5000 - timestamp {| command := "/status"; timestamp := 0 |} ≤ STALE_MS)%Z)
    by (unfold STALE_MS; simpl; lia).
  split; [exact H|].
  exact (proj2 (proj2 (proj2 (consumePendingBlock_empties_slot 5000
           (Some {| command := "/status"; timestamp := 0 |})))) _ eq_refl H).
Defined.

(** C9. [setPendingBlock] overwrites the slot with the new command and the
    current time whatever was there before, armed or not; what a later
    consume returns does not depend on the earlier content, which is gone;
    and a consume that follows within the staleness bound returns the new
    command. *)
Theorem setPendingBlock_last_write_wins
    (command : string) (now now' : Z) (pendingBlock : option PendingBlock) :
  setPendingBlock command now pendingBlock
  = Some {| command := command; timestamp := now |}
  ∧ consumePendingBlock now' (setPendingBlock command now pendingBlock)
    = consumePendingBlock now' (setPendingBlock command now None)
  ∧ ((now' - now ≤ STALE_MS)%Z →
     consumePendingBlock now' (setPendingBlock command now pendingBlock)
     = (Some command, None)).
Proof.
  split; [done|]. split; [done|].
  intros Hfresh. unfold setPendingBlock, consumePendingBlock. simpl.
  apply Z.ltb_ge in Hfresh. by rewrite Hfresh.
Qed.

(** Witness for C9: [/status] is armed, then [/config] over it. *)
Lemma setPendingBlock_last_write_wins_witness :
  (1200 - 1000 ≤ STALE_MS)%Z
  ∧ consumePendingBlock 1200
      (setPendingBlock "/config" 1000 (setPendingBlock "/status" 900 None))
    = (Some "/config", None).
Proof.
  assert (H : (1200 - 1000 ≤ STALE_MS)%Z) by (unfold STALE_MS; lia).
  split; [exact H|].
  exact (proj2 (proj2 (setPendingBlock_last_write_wins "/config" 1000 1200
                         (setPendingBlock "/status" 900 None))) H).
Defined.

End PendingBlockFacts.

(** ** The session-key parser *)

Section SessionKeyFacts.
Import SessionKeyParser.

Lemma scan_end parts fuel i :
  length parts - 1 ≤ i → scan parts fuel i = None.
Proof.
  intros Hi. destruct fuel as [|fuel]; simpl; [done|].
  rewrite bool_decide_eq_false_2; [done|lia].
Qed.

Lemma scan_hit parts fuel i seg kind :
  parts !! i = Some seg → PEER_KINDS seg = Some kind →
  scan parts (S fuel) i = resultAt parts i kind.
Proof.
  intros Hseg Hkind. unfold resultAt. simpl. rewrite Hseg, Hkind.
  destruct (bool_decide (i < length parts - 1)) eqn:Hlt; [done|].
  apply bool_decide_eq_false in Hlt.
  rewrite (lookup_ge_None_2 parts (i + 1)); [done|lia].
Qed.

Lemma scan_skip parts fuel i seg :
  i < length parts - 1 → parts !! i = Some seg → PEER_KINDS seg = None →
  scan parts (S fuel) i = scan parts fuel (S i).
Proof.
  intros Hlt Hseg Hkind. simpl. by rewrite bool_decide_eq_true_2, Hseg, Hkind.
Qed.

(** The loop walks over segments that are not peer kinds; the fuel it is
    given, the number of segments, is never exhausted on the way. *)
Lemma scan_walk parts d i fuel :
  noKindBetween parts i (i + d) → i + d ≤ length parts - 1 → d ≤ fuel →
  scan parts fuel i = scan parts (fuel - d) (i + d).
Proof.
  revert i fuel. induction d as [|d IH]; intros i fuel Hno Hlen Hfuel.
  - by rewrite Nat.sub_0_r, Nat.add_0_r.
  - destruct fuel as [|fuel]; [lia|].
    destruct (lookup_lt_is_Some_2 parts i) as [seg Hseg]; [lia|].
    rewrite (scan_skip parts fuel i seg); [|lia|done|by apply (Hno i); [lia|]].
    rewrite IH; [|intros j seg' Hj; apply Hno; lia|lia|lia].
    f_equal; lia.
Qed.

Lemma scan_first parts i seg kind :
  2 ≤ i → parts !! i = Some seg → PEER_KINDS seg = Some kind →
  noKindBetween parts 2 i →
  scan parts (length parts) 2 = resultAt parts i kind.
Proof.
  intros Hi Hseg Hkind Hno.
  pose proof (lookup_lt_Some _ _ _ Hseg) as Hlt.
  rewrite (scan_walk parts (i - 2) 2); [|by replace (2 + (i - 2)) with i by lia|lia|lia].
  replace (2 + (i - 2)) with i by lia.
  destruct (length parts - (i - 2)) as [|fuel] eqn:Hfuel; [lia|].
  by apply (scan_hit parts fuel i seg).
Qed.

Lemma scan_none parts :
  noKindBetween parts 2 (length parts) → scan parts (length parts) 2 = None.
Proof.
  intros Hno. destruct (decide (length parts - 1 ≤ 2)) as [|Hlen]; [by apply scan_end|].
  rewrite (scan_walk parts (length parts - 1 - 2) 2); [|intros j seg' Hj; apply Hno; lia|lia|lia].
  apply scan_end. lia.
Qed.

Lemma split_segment s : segment s → JS.split ":" s = [s].
Proof.
  unfold segment. induction s as [|a s IH]; simpl; [done|].
  destruct (Ascii.eqb a ":"); [done|].
  destruct (JS.indexOf ":" s); [done|]. intros _. by rewrite IH.
Qed.

Lemma split_cons s t :
  segment s → JS.split ":" (s +:+ String ":" t) = s :: JS.split ":" t.
Proof.
  unfold segment. induction s as [|a s IH]; simpl; [done|].
  destruct (Ascii.eqb a ":"); [done|].
  destruct (JS.indexOf ":" s); [done|]. intros _. by rewrite IH.
Qed.

Lemma PEER_KINDS_kindName k : PEER_KINDS (kindName k) = Some k.
Proof. by destruct k. Qed.

Lemma segment_kindName k : segment (kindName k).
Proof. by destruct k. Qed.

Lemma truthy_nonempty s : s ≠ EmptyString → JS.truthy s = true.
Proof. by destruct s. Qed.

Lemma split_perPeerKey agent k peer :
  segment agent → segment peer →
  JS.split ":" (perPeerKey agent k peer) = ["agent"; agent; kindName k; peer].
Proof.
  intros Ha Hp. unfold perPeerKey. cbn [JS.join].
  by rewrite !split_cons, split_segment by (try done; apply segment_kindName).
Qed.

Lemma split_perChannelPeerKey agent chan k peer :
  segment agent → segment chan → segment peer →
  JS.split ":" (perChannelPeerKey agent chan k peer)
  = ["agent"; agent; chan; kindName k; peer].
Proof.
  intros Ha Hc Hp. unfold perChannelPeerKey. cbn [JS.join].
  by rewrite !split_cons, split_segment by (try done; apply segment_kindName).
Qed.

Lemma split_perAccountChannelPeerKey agent chan account k peer :
  segment agent → segment chan → segment account → segment peer →
  JS.split ":" (perAccountChannelPeerKey agent chan account k peer)
  = ["agent"; agent; chan; account; kindName k; peer].
Proof.
  intros Ha Hc Hacc Hp. unfold perAccountChannelPeerKey. cbn [JS.join].
  by rewrite !split_cons, split_segment by (try done; apply segment_kindName).
Qed.

(** C3, with the round trip as the code supports it.  Fewer than four
    segments give none.  Otherwise the first segment from index 2 on that
    is a peer kind decides: the segment after it is the peer id, and the
    result is none when that segment is empty or missing; the channel is
    the segment at index 2 exactly when the peer kind sits at index 3 or
    later; and the result is none when no segment from index 2 on is a peer
    kind.  For the three key shapes with a peer, the peer id returned is
    the final segment provided no channel or account segment is itself
    one of the words direct, group, channel. *)
Theorem parseSessionKey_algorithm :
  (∀ sessionKey,
     length (JS.split ":" sessionKey) < 4 → parseSessionKey sessionKey = None)
  ∧ (∀ sessionKey i seg kind,
       4 ≤ length (JS.split ":" sessionKey) →
       2 ≤ i →
       JS.split ":" sessionKey !! i = Some seg →
       PEER_KINDS seg = Some kind →
       noKindBetween (JS.split ":" sessionKey) 2 i →
       (JS.split ":" sessionKey !! (i + 1) = None
        ∨ JS.split ":" sessionKey !! (i + 1) = Some EmptyString →
        parseSessionKey sessionKey = None)
       ∧ (∀ pid, JS.split ":" sessionKey !! (i + 1) = Some pid → pid ≠ EmptyString →
            parseSessionKey sessionKey
            = Some {| peerId := pid;
                      channel := if bool_decide (3 ≤ i)
                                 then JS.split ":" sessionKey !! 2 else None;
                      peerKind := kind |}))
  ∧ (∀ sessionKey,
       4 ≤ length (JS.split ":" sessionKey) →
       noKindBetween (JS.split ":" sessionKey) 2 (length (JS.split ":" sessionKey)) →
       parseSessionKey sessionKey = None)
  ∧ (∀ agent k peer,
       segment agent → segment peer → peer ≠ EmptyString →
       parseSessionKey (perPeerKey agent k peer)
       = Some {| peerId := peer; channel := None; peerKind := k |})
  ∧ (∀ agent chan k peer,
       segment agent → segment chan → segment peer → peer ≠ EmptyString →
       PEER_KINDS chan = None →
       parseSessionKey (perChannelPeerKey agent chan k peer)
       = Some {| peerId := peer; channel := Some chan; peerKind := k |})
  ∧ (∀ agent chan account k peer,
       segment agent → segment chan → segment account → segment peer →
       peer ≠ EmptyString →
       PEER_KINDS chan = None → PEER_KINDS account = None →
       parseSessionKey (perAccountChannelPeerKey agent chan account k peer)
       = Some {| peerId := peer; channel := Some chan; peerKind := k |}).
Proof.
  split; [|split; [|split; [|split; [|split]]]].
  - intros sessionKey Hlen. unfold parseSessionKey.
    by rewrite bool_decide_eq_true_2.
  - intros sessionKey i seg kind Hlen Hi Hseg Hkind Hno.
    assert (Hres : parseSessionKey sessionKey
                   = resultAt (JS.split ":" sessionKey) i kind).
    { unfold parseSessionKey. rewrite bool_decide_eq_false_2 by lia.
      by apply (scan_first _ i seg). }
    rewrite Hres. unfold resultAt. split.
    + by intros [-> | ->].
    + intros pid -> Hpid. by rewrite truthy_nonempty.
  - intros sessionKey Hlen Hno. unfold parseSessionKey.
    rewrite bool_decide_eq_false_2 by lia. by apply scan_none.
  - intros agent k peer Ha Hp Hne. unfold parseSessionKey.
    rewrite split_perPeerKey by done. simpl.
    by rewrite PEER_KINDS_kindName, truthy_nonempty.
  - intros agent chan k peer Ha Hc Hp Hne Hchan. unfold parseSessionKey.
    rewrite split_perChannelPeerKey by done. simpl.
    by rewrite Hchan, PEER_KINDS_kindName, truthy_nonempty.
  - intros agent chan account k peer Ha Hc Hacc Hp Hne Hchan Haccount.
    unfold parseSessionKey. rewrite split_perAccountChannelPeerKey by done. simpl.
    by rewrite Hchan, Haccount, PEER_KINDS_kindName, truthy_nonempty.
Qed.

(** Witness for C3: a per-channel key of a Telegram peer. *)
Lemma parseSessionKey_algorithm_witness :
  segment "main" ∧ segment "telegram" ∧ segment "408001372"
  ∧ "408001372" ≠ EmptyString ∧ PEER_KINDS "telegram" = None
  ∧ parseSessionKey (perChannelPeerKey "main" "telegram" Direct "408001372")
    = Some {| peerId := "408001372"; channel := Some "telegram"; peerKind := Direct |}.
Proof.
  assert (Ha : segment "main") by reflexivity.
  assert (Hc : segment "telegram") by reflexivity.
  assert (Hp : segment "408001372") by reflexivity.
  assert (Hne : "408001372" ≠ EmptyString) by discriminate.
  assert (Hk : PEER_KINDS "telegram" = None) by reflexivity.
  repeat (split; [assumption|]).
  exact (proj1 (proj2 (proj2 (proj2 (proj2 parseSessionKey_algorithm))))
           "main" "telegram" Direct "408001372" Ha Hc Hp Hne Hk).
Defined.

(** C3 as stated fails on its round trip: in a per-channel key whose
    channel segment is the word [group], the parser stops at that segment
    and returns the segment after it, [direct], instead of the final
    segment [42]. *)
Lemma parseSessionKey_roundtrip_counterexample :
  segment "main" ∧ segment "group" ∧ segment "42" ∧ "42" ≠ EmptyString
  ∧ perChannelPeerKey "main" "group" Direct "42" = "agent:main:group:direct:42"
  ∧ parseSessionKey (perChannelPeerKey "main" "group" Direct "42")
    = Some {| peerId := "direct"; channel := None; peerKind := Group |}
  ∧ peerId <$> parseSessionKey (perChannelPeerKey "main" "group" Direct "42")
    ≠ Some "42".
Proof. repeat split; vm_compute; congruence. Qed.

End SessionKeyFacts.

(** ** The configuration loader *)

Section LoaderFacts.
Import Config.

Lemma bind_inl {A B} (f : A → Result B) e : (inl e ≫= f) = inl e.
Proof. done. Qed.

Lemma bind_inr {A B} (f : A → Result B) a : (inr a ≫= f) = f a.
Proof. done. Qed.

(** Evaluate the binds whose first argument is already a result. *)
Ltac result_step :=
  cbn [assertObject mbind mret result_bind result_ret throw].

Lemma parseUsers_wildcard value roleName :
  isStar value = true → parseUsers value roleName = inr Star.
Proof. unfold parseUsers. by intros ->. Qed.

Lemma parseUsers_specific value roleName :
  isStar value = false → is_Some (stringArray value) →
  ∃ l, parseUsers value roleName = inr (Items l).
Proof. unfold parseUsers. intros -> [l ->]. by exists l. Qed.

Lemma parseUsers_inr value roleName u :
  parseUsers value roleName = inr u →
  (u = Star ∧ isStar value = true)
  ∨ (∃ l, u = Items l ∧ isStar value = false ∧ is_Some (stringArray value)).
Proof.
  unfold parseUsers. destruct (isStar value).
  - intros [= <-]. by left.
  - destruct (stringArray value) as [l|] eqn:E; [|done].
    intros [= <-]. right. exists l. eauto.
Qed.

(** One turn of the role loop either throws or goes on with the rest;
    when it goes on, a wildcard that was seen stays seen, a role with
    wildcard users is recorded, and a role with specific users can only
    have passed because no wildcard was seen before. *)
Lemma rolesLoop_turn roleName roleRaw rest roles warnings fw :
  (∃ e, rolesLoop ((roleName, roleRaw) :: rest) roles warnings fw = inl e)
  ∨ (∃ roles' warnings' fw',
       rolesLoop ((roleName, roleRaw) :: rest) roles warnings fw
       = rolesLoop rest roles' warnings' fw'
       ∧ (is_Some fw → is_Some fw')
       ∧ (wildcardUsers roleRaw → is_Some fw')
       ∧ (specificUsers roleRaw → fw = None)).
Proof.
  cbn [rolesLoop].
  destruct roleRaw as [| | | | |items|role]; try (left; by eexists).
  result_step.
  destruct (parseUsers (get "users" role) roleName) as [e|u] eqn:Hu; [left; by eexists|].
  result_step.
  destruct (parseTools (get "tools" role) roleName) as [e|t]; [left; by eexists|].
  result_step.
  destruct (parseChannels (get "channels" role) roleName) as [e|c]; [left; by eexists|].
  result_step.
  apply parseUsers_inr in Hu as [[-> Hstar]|(l & -> & Hstar & Harr)].
  - right. destruct fw as [w|]; result_step; do 3 eexists; (split; [done|]).
    all: unfold wildcardUsers, specificUsers, rawUsers; rewrite Hstar.
    all: by intuition eauto.
  - destruct fw as [w|]; [left; by eexists|].
    right. result_step. do 3 eexists. split; [done|].
    unfold wildcardUsers, specificUsers, rawUsers. rewrite Hstar.
    by intuition eauto.
Qed.

(** Once a wildcard role has been seen, a later role with specific users
    makes the loop throw, at that role or earlier. *)
Lemma rolesLoop_fails_seen entries roles warnings fw :
  is_Some fw →
  (∃ j s rs, entries !! j = Some (s, rs) ∧ specificUsers rs) →
  ∃ e, rolesLoop entries roles warnings fw = inl e.
Proof.
  revert roles warnings fw.
  induction entries as [|[n raw] rest IH]; intros roles warnings fw Hfw (j & s & rs & Hj & Hs).
  - by rewrite lookup_nil in Hj.
  - destruct (rolesLoop_turn n raw rest roles warnings fw)
      as [?|(roles' & warnings' & fw' & -> & Hkeep & _ & Hspec)]; [done|].
    destruct j as [|j]; simpl in Hj.
    + injection Hj as -> ->. rewrite (Hspec Hs) in Hfw. by destruct Hfw.
    + apply IH; eauto.
Qed.

Lemma rolesLoop_fails entries roles warnings fw :
  precedesIn entries → ∃ e, rolesLoop entries roles warnings fw = inl e.
Proof.
  revert roles warnings fw.
  induction entries as [|[n raw] rest IH];
    intros roles warnings fw (i & j & w & rw & s & rs & Hij & Hi & Hj & Hw & Hs).
  - by rewrite lookup_nil in Hi.
  - destruct (rolesLoop_turn n raw rest roles warnings fw)
      as [?|(roles' & warnings' & fw' & -> & _ & Hwild & _)]; [done|].
    destruct j as [|j]; [lia|]. simpl in Hj.
    destruct i as [|i]; simpl in Hi.
    + injection Hi as -> ->. apply rolesLoop_fails_seen; eauto.
    + apply IH. exists i, j, w, rw, s, rs. split; [lia|tauto].
Qed.

Lemma rolesOf_inv doc entries :
  rolesOf doc = entries → entries ≠ [] →
  ∃ cfg, doc = JObj cfg ∧ get "roles" cfg = JObj entries.
Proof.
  unfold rolesOf. intros H Hne. destruct doc as [| | | | | |cfg]; try congruence.
  exists cfg. split; [done|]. destruct (get "roles" cfg); congruence.
Qed.

Lemma parse_rolesLoop_error doc e :
  rolesOf doc ≠ [] →
  rolesLoop (rolesOf doc) noRoles [] None = inl e → parse doc = inl e.
Proof.
  intros Hne He. destruct (rolesOf_inv doc _ eq_refl Hne) as (cfg & -> & Hroles).
  unfold rolesOf in He. rewrite Hroles in He.
  unfold parse. result_step. rewrite Hroles. result_step. by rewrite He.
Qed.

Lemma precedesIn_nonempty entries : precedesIn entries → entries ≠ [].
Proof. intros (i & j & w & rw & s & rs & _ & Hi & _) ->. by rewrite lookup_nil in Hi. Qed.

(** A well-formed entry with wildcard users lets the loop go on, with a
    wildcard recorded. *)
Lemma rolesLoop_wild n raw rest roles warnings fw :
  roleEntryOk (n, raw) → wildcardUsers raw →
  ∃ roles' warnings',
    rolesLoop ((n, raw) :: rest) roles warnings fw
    = rolesLoop rest roles' warnings' (Some (default n fw)).
Proof.
  intros (role & u & t & c & Hraw & Hu & Ht & Hc) Hw. simpl in *. subst raw.
  unfold wildcardUsers, rawUsers in Hw.
  rewrite (parseUsers_wildcard _ n Hw) in Hu. injection Hu as <-.
  cbn [rolesLoop]. result_step. rewrite (parseUsers_wildcard _ n Hw), Ht, Hc.
  destruct fw; result_step; by do 2 eexists.
Qed.

(** A well-formed entry with specific users lets the loop go on while no
    wildcard has been seen, and makes it throw the ordering error once
    one has. *)
Lemma rolesLoop_specific n raw rest roles warnings fw :
  roleEntryOk (n, raw) → specificUsers raw →
  match fw with
  | None => ∃ roles' warnings',
      rolesLoop ((n, raw) :: rest) roles warnings None
      = rolesLoop rest roles' warnings' None
  | Some w =>
      rolesLoop ((n, raw) :: rest) roles warnings (Some w)
      = inl (WildcardBeforeSpecific w n)
  end.
Proof.
  intros (role & u & t & c & Hraw & Hu & Ht & Hc) [Hstar Harr]. simpl in *. subst raw.
  unfold rawUsers in *.
  destruct (parseUsers_specific _ n Hstar Harr) as [l Hl].
  cbn [rolesLoop]. result_step. rewrite Hl, Ht, Hc.
  destruct fw; result_step; [done|by do 2 eexists].
Qed.

Lemma rolesLoop_walk_specific pre rest roles warnings :
  Forall (λ e, roleEntryOk e ∧ specificUsers e.2) pre →
  ∃ roles' warnings',
    rolesLoop (pre ++ rest) roles warnings None = rolesLoop rest roles' warnings' None.
Proof.
  intros Hpre. revert roles warnings.
  induction Hpre as [|[n raw] pre [Hok Hs] _ IH]; intros roles warnings.
  - by do 2 eexists.
  - rewrite <-app_comm_cons.
    destruct (rolesLoop_specific n raw (pre ++ rest) roles warnings None Hok Hs)
      as (roles1 & warnings1 & ->). apply IH.
Qed.

Lemma rolesLoop_walk_wild pre rest roles warnings w :
  Forall (λ e, roleEntryOk e ∧ wildcardUsers e.2) pre →
  ∃ roles' warnings',
    rolesLoop (pre ++ rest) roles warnings (Some w)
    = rolesLoop rest roles' warnings' (Some w).
Proof.
  intros Hpre. revert roles warnings.
  induction Hpre as [|[n raw] pre [Hok Hw] _ IH]; intros roles warnings.
  - by do 2 eexists.
  - rewrite <-app_comm_cons.
    destruct (rolesLoop_wild n raw (pre ++ rest) roles warnings (Some w) Hok Hw)
      as (roles1 & warnings1 & ->). apply IH.
Qed.

(** The ordering error names the first wildcard role and the first
    specific role after it, when the entries up to there are well formed. *)
Lemma rolesLoop_ordering pre1 w rw pre2 s rs post roles warnings :
  Forall (λ e, specificUsers e.2) pre1 →
  wildcardUsers rw →
  Forall (λ e, wildcardUsers e.2) pre2 →
  specificUsers rs →
  Forall roleEntryOk (pre1 ++ (w, rw) :: pre2 ++ [(s, rs)]) →
  rolesLoop (pre1 ++ (w, rw) :: pre2 ++ (s, rs) :: post) roles warnings None
  = inl (WildcardBeforeSpecific w s).
Proof.
  intros Hpre1 Hw Hpre2 Hs Hok.
  apply Forall_app in Hok as [Hok1 Hok]. apply Forall_cons in Hok as [Hokw Hok].
  apply Forall_app in Hok as [Hok2 Hok]. apply Forall_inv in Hok.
  destruct (rolesLoop_walk_specific pre1 ((w, rw) :: pre2 ++ (s, rs) :: post) roles warnings)
    as (roles1 & warnings1 & ->).
  { apply Forall_and. done. }
  destruct (rolesLoop_wild w rw (pre2 ++ (s, rs) :: post) roles1 warnings1 None Hokw Hw)
    as (roles2 & warnings2 & ->). simpl.
  destruct (rolesLoop_walk_wild pre2 ((s, rs) :: post) roles2 warnings2 w)
    as (roles3 & warnings3 & ->).
  { apply Forall_and. done. }
  exact (rolesLoop_specific s rs post roles3 warnings3 (Some w) Hok Hs).
Qed.

Lemma getProp_key {A} k (fields : list (string * A)) :
  is_Some (getProp k fields) → k ∈ fields.*1.
Proof.
  induction fields as [|[k' v] rest IH]; simpl; [by intros [? ?]|].
  destruct (String.eqb k' k) eqn:E.
  - apply String.eqb_eq in E as ->. intros _. apply list_elem_of_here.
  - intros H. apply list_elem_of_further. auto.
Qed.

(** A policy only comes out of the loader when the read of its default
    role in its roles is truthy, and with at least one own role. *)
Lemma parse_default_is_read doc config :
  parse doc = inr config →
  roleAt (defaultRole config) (roles config) ≠ NoRole
  ∧ ownRoles (roles config) ≠ [].
Proof.
  unfold parse. destruct doc as [| | | | | |cfg]; try done. result_step.
  destruct (get "roles" cfg) as [| | | | | |rolesRaw]; try done. result_step.
  destruct (rolesLoop rolesRaw noRoles [] None) as [e|[roles warnings]]; [done|].
  result_step. case_bool_decide as Hlen; [done|].
  destruct (isFalsyRole _) eqn:Hdef; [done|].
  destruct (parseToolGroups _) as [?|toolGroups]; [done|]. result_step.
  destruct (parseFailSafe _) as [?|failSafe]; [done|]. result_step.
  destruct (parseRateLimit _) as [?|rateLimit]; [done|]. result_step.
  destruct (parseSystemCommands _) as [?|systemCommands]; [done|]. result_step.
  destruct (validateGroupRefs _ _) as [?|[]]; [done|]. result_step.
  intros [= <-]. cbn. split; [|by destruct (ownRoles roles)].
  intros H. by rewrite H in Hdef.
Qed.

(** So the resolver, run on a loaded policy, answers with an own role of
    the policy or with a name whose read in the roles is truthy. *)
Lemma resolveRole_loaded doc config peerId channel :
  parse doc = inr config →
  RoleResolver.resolveRole peerId channel config ∈ (ownRoles (roles config)).*1
  ∨ roleAt (RoleResolver.resolveRole peerId channel config) (roles config) ≠ NoRole.
Proof.
  intros [Hdef _]%parse_default_is_read. unfold RoleResolver.resolveRole.
  destruct (resolveLoop_key_or_default peerId channel (ownRoles (roles config))
              (defaultRole config)) as [H|H]; [by left|right; by rewrite H].
Qed.

(** C2, at the failing input.  The document names [toString], a member of
    [Object.prototype], as its default role.  The loader tests
    [!roles[defaultRole]], which reads the inherited function, and accepts
    the document.  A peer that no role matches is then resolved to
    [toString], which is not a key of the roles of the loaded policy, and the
    guard throws on that name instead of answering. *)
Lemma loaded_default_role_is_no_key :
  ∃ config,
    parse Documents.inheritedDefaultDoc = inr config
    ∧ defaultRole config = "toString"
    ∧ RoleResolver.resolveRole "555666777" (Some "telegram") config = "toString"
    ∧ ("toString" ∉ (ownRoles (roles config)).*1)
    ∧ roleAt "toString" (roles config) = NotRole
    ∧ ToolGuard.checkToolAccess "exec" "toString" config = inl ToolGuard.NotIterable.
Proof.
  eexists. split; [vm_compute; reflexivity|]. split_and!; try reflexivity.
  apply (bool_decide_unpack _). vm_compute. exact I.
Qed.

Lemma roleEntryOk_users e :
  roleEntryOk e → wildcardUsers e.2 ∨ specificUsers e.2.
Proof.
  intros (role & u & t & c & Hraw & Hu & _). unfold wildcardUsers, specificUsers.
  rewrite Hraw. simpl. apply parseUsers_inr in Hu as [[_ ?]|(l & _ & ? & ?)]; auto.
Qed.

Lemma wildcard_not_specific raw : wildcardUsers raw → ¬ specificUsers raw.
Proof. unfold wildcardUsers. intros Hw [Hs _]. congruence. Qed.

Lemma first_specific entries :
  Forall roleEntryOk entries →
  (∃ j s rs, entries !! j = Some (s, rs) ∧ specificUsers rs) →
  ∃ pre s rs post,
    entries = pre ++ (s, rs) :: post
    ∧ Forall (λ e, wildcardUsers e.2) pre ∧ specificUsers rs.
Proof.
  induction 1 as [|[n raw] rest Hok _ IH]; intros (j & s & rs & Hj & Hs).
  - by rewrite lookup_nil in Hj.
  - destruct (roleEntryOk_users _ Hok) as [Hw|Hsp]; simpl in *.
    + destruct j as [|j]; simpl in Hj.
      { injection Hj as -> ->. by destruct (wildcard_not_specific rs). }
      destruct IH as (pre & s' & rs' & post & -> & Hpre & Hs'); [eauto|].
      exists ((n, raw) :: pre), s', rs', post. repeat split; try apply Hs'; auto.
    + exists [], n, raw, rest. repeat split; try apply Hsp; auto.
Qed.

Lemma first_pair entries :
  Forall roleEntryOk entries → precedesIn entries →
  ∃ w s, firstOffendingPair entries w s.
Proof.
  induction 1 as [|[n raw] rest Hok Hrest IH];
    intros (i & j & w & rw & s & rs & Hij & Hi & Hj & Hw & Hs).
  - by rewrite lookup_nil in Hi.
  - destruct j as [|j]; [lia|]. simpl in Hj.
    destruct (roleEntryOk_users _ Hok) as [Hwild|Hspec]; simpl in *.
    + destruct (first_specific rest Hrest) as (pre & s' & rs' & post & -> & Hpre & Hs');
        [eauto|].
      exists n, s', [], raw, pre, rs', post. by repeat split; try apply Hs'.
    + destruct i as [|i]; simpl in Hi.
      { injection Hi as -> ->. by destruct (wildcard_not_specific rw). }
      destruct IH as (w' & s' & pre1 & rw' & pre2 & rs' & post & -> & H1 & H2 & H3 & H4).
      { exists i, j, w, rw, s, rs. split; [lia|tauto]. }
      exists w', s', ((n, raw) :: pre1), rw', pre2, rs', post.
      split; [done|]. split; [by constructor|]. tauto.
Qed.

(** An entry with a structural diagnostic makes the loop throw it,
    whatever has been seen before. *)
Lemma rolesLoop_diagnostic n raw rest roles warnings fw d :
  entryDiagnostic (n, raw) = Some d →
  rolesLoop ((n, raw) :: rest) roles warnings fw = inl d.
Proof.
  unfold entryDiagnostic. cbn [fst snd rolesLoop].
  destruct raw as [| | | | | |role]; try (by intros [= <-]). result_step.
  destruct (parseUsers (get "users" role) n) as [e|u]; [by intros [= <-]|]. result_step.
  destruct (parseTools (get "tools" role) n) as [e|t]; [by intros [= <-]|]. result_step.
  destruct (parseChannels (get "channels" role) n) as [e|c]; [by intros [= <-]|done].
Qed.

Lemma entry_ok_or_diagnostic entry :
  roleEntryOk entry ∨ is_Some (entryDiagnostic entry).
Proof.
  unfold roleEntryOk, entryDiagnostic. destruct entry as [n raw]. cbn [fst snd].
  destruct raw as [| | | | | |role]; try (right; by eexists).
  destruct (parseUsers (get "users" role) n) as [e|u] eqn:Hu; [right; by eexists|].
  destruct (parseTools (get "tools" role) n) as [e|t] eqn:Ht; [right; by eexists|].
  destruct (parseChannels (get "channels" role) n) as [e|c] eqn:Hc; [right; by eexists|].
  left. by exists role, u, t, c.
Qed.

(** Well-formed entries that give no ordering error let the loop go on. *)
Lemma rolesLoop_walk_ok pre rest roles warnings fw :
  Forall roleEntryOk pre →
  match fw with
  | Some _ => Forall (λ e, wildcardUsers e.2) pre
  | None => ¬ precedesIn pre
  end →
  ∃ roles' warnings' fw',
    rolesLoop (pre ++ rest) roles warnings fw = rolesLoop rest roles' warnings' fw'.
Proof.
  intros Hok. revert roles warnings fw.
  induction Hok as [|[n raw] pre Hentry Hpre IH]; intros roles warnings fw Hfw.
  { by do 3 eexists. }
  rewrite <-app_comm_cons. destruct fw as [w|].
  - apply Forall_cons in Hfw as [Hw Hfw]. cbn [snd] in Hw.
    destruct (rolesLoop_wild n raw (pre ++ rest) roles warnings (Some w) Hentry Hw)
      as (roles1 & warnings1 & ->). by apply IH.
  - destruct (roleEntryOk_users _ Hentry) as [Hw|Hs]; cbn [snd] in *.
    + destruct (rolesLoop_wild n raw (pre ++ rest) roles warnings None Hentry Hw)
        as (roles1 & warnings1 & ->). apply IH. cbn [default].
      apply Forall_forall. intros [s rs] Hin.
      destruct (roleEntryOk_users (s, rs)) as [?|Hspec]; [|done|].
      { rewrite Forall_forall in Hpre. by apply Hpre. }
      destruct Hfw. apply list_elem_of_lookup in Hin as [j Hj].
      exists 0, (S j), n, raw, s, rs. split; [lia|]. by split_and!.
    + destruct (rolesLoop_specific n raw (pre ++ rest) roles warnings None Hentry Hs)
        as (roles1 & warnings1 & ->). apply IH.
      intros (i & j & w & rw & s & rs & Hij & Hi & Hj & Hwild & Hspec). apply Hfw.
      exists (S i), (S j), w, rw, s, rs. split; [lia|]. by split_and!.
Qed.

(** C4.  A document in which some role with wildcard users precedes a role
    with a specific user list is never loaded: the loader throws.  The error
    is the ordering diagnostic, naming the first role with wildcard users
    and the first role with specific users after it, when the role entries
    up to and including that one are well formed (objects whose users, tools
    and channels parse).  Otherwise it is the structural diagnostic of the
    first ill-formed entry: an entry that is not well formed has such a
    diagnostic, and the loader throws it when the entries before it are well
    formed and hold no wildcard role before a specific one. *)
Theorem loader_rejects_wildcard_before_specific (doc : JValue) :
  wildcardPrecedesSpecific doc →
  (∃ e, parse doc = inl e)
  ∧ (∀ pre1 w rw pre2 s rs post,
       rolesOf doc = pre1 ++ (w, rw) :: pre2 ++ (s, rs) :: post →
       Forall (λ e, specificUsers e.2) pre1 →
       wildcardUsers rw →
       Forall (λ e, wildcardUsers e.2) pre2 →
       specificUsers rs →
       Forall roleEntryOk (pre1 ++ (w, rw) :: pre2 ++ [(s, rs)]) →
       parse doc = inl (WildcardBeforeSpecific w s))
  ∧ (Forall roleEntryOk (rolesOf doc) →
     ∃ w s, firstOffendingPair (rolesOf doc) w s
            ∧ parse doc = inl (WildcardBeforeSpecific w s))
  ∧ (∀ pre name raw post,
       rolesOf doc = pre ++ (name, raw) :: post →
       Forall roleEntryOk pre → ¬ precedesIn pre →
       ¬ roleEntryOk (name, raw) →
       ∃ d, entryDiagnostic (name, raw) = Some d ∧ parse doc = inl d).
Proof.
  intros Hprec. pose proof (precedesIn_nonempty _ Hprec) as Hne.
  assert (Hexact : ∀ pre1 w rw pre2 s rs post,
    rolesOf doc = pre1 ++ (w, rw) :: pre2 ++ (s, rs) :: post →
    Forall (λ e, specificUsers e.2) pre1 →
    wildcardUsers rw →
    Forall (λ e, wildcardUsers e.2) pre2 →
    specificUsers rs →
    Forall roleEntryOk (pre1 ++ (w, rw) :: pre2 ++ [(s, rs)]) →
    parse doc = inl (WildcardBeforeSpecific w s)).
  { intros pre1 w rw pre2 s rs post Hroles H1 H2 H3 H4 Hok.
    apply parse_rolesLoop_error; [done|]. rewrite Hroles.
    by apply rolesLoop_ordering. }
  split; [|split; [exact Hexact|split]].
  - destruct (rolesLoop_fails (rolesOf doc) noRoles [] None Hprec) as [e He].
    exists e. by apply parse_rolesLoop_error.
  - intros Hok. destruct (first_pair _ Hok Hprec) as (w & s & Hpair).
    exists w, s. split; [done|].
    destruct Hpair as (pre1 & rw & pre2 & rs & post & Hroles & H1 & H2 & H3 & H4).
    apply (Hexact pre1 w rw pre2 s rs post); try done.
    rewrite Hroles in Hok.
    rewrite !Forall_app, !Forall_cons, !Forall_app, !Forall_cons in *.
    rewrite Forall_nil. tauto.
  - intros pre name raw post Hroles Hok Hnone Hbad.
    destruct (entry_ok_or_diagnostic (name, raw)) as [?|[d Hd]]; [done|].
    exists d. split; [done|]. apply parse_rolesLoop_error; [done|]. rewrite Hroles.
    destruct (rolesLoop_walk_ok pre ((name, raw) :: post) noRoles [] None Hok Hnone)
      as (roles1 & warnings1 & fw1 & ->).
    by apply rolesLoop_diagnostic.
Qed.

Lemma shadowedDoc_precedes : wildcardPrecedesSpecific Examples.shadowedDoc.
Proof.
  exists 0, 1, "everyone", (JObj [("users", JStr "*");
                                  ("tools", JArr [JStr "get_recent_news"])]),
         "admin", (JObj [("users", JArr [JStr "408001372"]); ("tools", JStr "*")]).
  split; [lia|]. repeat split; try reflexivity. by eexists.
Defined.

(** Witness for C4: the catch-all role before the administrators. *)
Lemma loader_rejects_wildcard_before_specific_witness :
  wildcardPrecedesSpecific Examples.shadowedDoc
  ∧ parse Examples.shadowedDoc = inl (WildcardBeforeSpecific "everyone" "admin").
Proof.
  split; [exact shadowedDoc_precedes|].
  refine (proj1 (proj2 (loader_rejects_wildcard_before_specific
                          Examples.shadowedDoc shadowedDoc_precedes))
            [] "everyone" _ [] "admin" _ [] eq_refl _ _ _ _ _).
  - constructor.
  - reflexivity.
  - constructor.
  - split; [reflexivity|by eexists].
  - repeat constructor; do 4 eexists; repeat split; reflexivity.
Defined.

(** C4 as stated fails on the diagnostic: when the catch-all role has a
    number for its tools, the loader stops at that role with the error
    about its tools, which names the catch-all role only; the ordering
    diagnostic is never produced. *)
Lemma loader_diagnostic_counterexample :
  wildcardPrecedesSpecific Examples.malformedDoc
  ∧ parse Examples.malformedDoc = inl (BadTools "everyone")
  ∧ entryDiagnostic ("everyone", JObj [("users", JStr "*"); ("tools", JNum 5)])
    = Some (BadTools "everyone")
  ∧ ¬ ∃ w s, parse Examples.malformedDoc = inl (WildcardBeforeSpecific w s).
Proof.
  split; [|split; [reflexivity|split; [reflexivity|]]].
  - exists 0, 1, "everyone", (JObj [("users", JStr "*"); ("tools", JNum 5)]),
           "admin", (JObj [("users", JArr [JStr "408001372"]); ("tools", JStr "*")]).
    split; [lia|]. repeat split; try reflexivity. by eexists.
  - intros (w & s & H). vm_compute in H. discriminate.
Qed.

End LoaderFacts.

(** ** The rate limiter *)

Section RateLimiterFacts.
Import RateLimit.

Lemma budget_nonneg max a b k stored : (0 ≤ budget max a b k stored)%Z.
Proof. unfold budget. destruct stored; repeat case_decide; lia. Qed.

Lemma filter_length_cons {A} (P : A → Prop) `{∀ x, Decision (P x)} x l :
  length (filter P (x :: l)) = (if decide (P x) then 1 else 0) + length (filter P l).
Proof. rewrite filter_cons. by case_decide. Qed.

(** The counted calls of a run never exceed the budget of its start. *)
Lemma run_budget peerId a b tau k calls rl :
  (b ≤ a + WINDOW_MS)%Z → (0 ≤ k ≤ 1)%Z → (k = 1 → b ≤ tau)%Z →
  (Z.of_nat (length (filter (counted peerId a b tau) (run calls rl)))
   ≤ budget (maxPerMinute rl) a b k (peers rl !! peerId))%Z.
Proof.
  intros Hab Hk Htau. revert rl.
  induction calls as [|[q t] rest IH]; intros rl.
  - simpl. apply budget_nonneg.
  - cbn [run]. unfold shouldLog.
    set (cw := currentWindow t (peers rl !! q)).
    destruct (logged cw <? maxPerMinute rl)%Z eqn:Hlt;
      [apply Z.ltb_lt in Hlt|apply Z.ltb_ge in Hlt].
    all: rewrite filter_length_cons, Nat2Z.inj_add.
    all: match goal with
         | |- context [run _ ?rl'] => specialize (IH rl'); cbn [maxPerMinute peers] in IH
         end.
    all: destruct (decide (q = peerId)) as [->|Hq];
      [rewrite lookup_insert_eq in IH|rewrite lookup_insert_ne in IH by done].
    all: case_decide as Hc; unfold counted, loggedFor in Hc; cbn in Hc.
    all: try (exfalso; by intuition congruence).
    all: try (etrans; [|exact IH]; lia).
    all: subst cw; unfold budget, currentWindow, WINDOW_MS in *.
    all: destruct (peers rl !! peerId) as [peer|]; cbn in *.
    all: repeat (case_decide || case_match); cbn in *; lia.
Qed.

Lemma shouldLog_run_cons q t rest rl :
  run ((q, t) :: rest) rl =
  {| callPeer := q; callTime := t;
     callWindow := windowStart (currentWindow t (peers rl !! q));
     callLogged := (shouldLog q t rl).1 |} :: run rest (shouldLog q t rl).2.
Proof. cbn [run]. by destruct (shouldLog q t rl). Qed.

Lemma shouldLog_peers q t rl peerId :
  peers (shouldLog q t rl).2 !! peerId =
  if decide (q = peerId)
  then Some {| windowStart := windowStart (currentWindow t (peers rl !! q));
               logged := logged (currentWindow t (peers rl !! q))
                         + (if (shouldLog q t rl).1 then 1 else 0);
               suppressed := suppressed (currentWindow t (peers rl !! q))
                             + (if (shouldLog q t rl).1 then 0 else 1) |}
  else peers rl !! peerId.
Proof.
  unfold shouldLog.
  destruct (logged _ <? maxPerMinute rl)%Z; cbn [fst snd peers];
    rewrite lookup_insert; case_decide; [|done| |done]; do 2 f_equal; lia.
Qed.

Lemma currentWindow_start t stored :
  windowStart (currentWindow t stored) = t
  ∨ ∃ peer, stored = Some peer
            ∧ windowStart (currentWindow t stored) = windowStart peer
            ∧ (t - windowStart peer < WINDOW_MS)%Z.
Proof.
  unfold currentWindow. destruct stored as [peer|]; [|by left].
  destruct (WINDOW_MS <=? t - windowStart peer)%Z eqn:E; [by left|].
  apply Z.leb_gt in E. right. eauto.
Qed.

(** With times that do not go backwards, every call lies within the 60
    seconds after the start of the window it is counted in. *)
Lemma run_withinWindow calls rl :
  nondecreasing calls → startsBefore rl calls → Forall withinWindow (run calls rl).
Proof.
  revert rl. induction calls as [|[q t] rest IH]; intros rl Hmono Hstart; [constructor|].
  rewrite shouldLog_run_cons. destruct Hmono as [Hlater Hmono].
  pose proof (currentWindow_start t (peers rl !! q)) as Hcw.
  constructor.
  - unfold withinWindow, WINDOW_MS in *. cbn.
    destruct Hcw as [->|(peer & Hpeer & -> & Hlt)]; [lia|].
    specialize (Hstart q peer Hpeer). apply Forall_cons in Hstart as [Ht _].
    cbn in Ht. lia.
  - apply IH; [done|]. intros peerId peer. rewrite shouldLog_peers.
    case_decide as Hq.
    + intros [= <-]. cbn.
      destruct Hcw as [->|(peer & Hpeer & -> & _)]; [done|].
      specialize (Hstart q peer Hpeer). by apply Forall_cons in Hstart as [_ ?].
    + intros Hpeer. specialize (Hstart peerId peer Hpeer).
      by apply Forall_cons in Hstart as [_ ?].
Qed.

Lemma filter_length_le {A} (I P Q : A → Prop)
    `{∀ x, Decision (P x)} `{∀ x, Decision (Q x)} l :
  Forall I l → (∀ x, I x → P x → Q x) →
  length (filter P l) ≤ length (filter Q l).
Proof.
  intros HI Himp. induction HI as [|x l Hx _ IH]; [done|].
  rewrite !filter_length_cons. specialize (Himp x Hx).
  repeat case_decide; try lia. tauto.
Qed.

Lemma filter_length_split {A} (I P Q1 Q2 : A → Prop)
    `{∀ x, Decision (P x)} `{∀ x, Decision (Q1 x)} `{∀ x, Decision (Q2 x)} l :
  Forall I l → (∀ x, I x → P x → Q1 x ∨ Q2 x) →
  length (filter P l) ≤ length (filter Q1 l) + length (filter Q2 l).
Proof.
  intros HI Himp. induction HI as [|x l Hx _ IH]; [done|].
  rewrite !filter_length_cons. specialize (Himp x Hx).
  repeat case_decide; try lia. tauto.
Qed.

Lemma startsBefore_create max calls : startsBefore (create max) calls.
Proof. intros peerId peer. unfold create. cbn. by rewrite lookup_empty. Qed.

(** C5, as the code has it.  The limiter counts in windows that start at a
    call (the first of the peer, or the first made 60 s or more after the
    start of the previous window) and are not moved afterwards.  For calls
    at nondecreasing times: every call lies within the 60 seconds after the
    start of its window; at most N calls of a peer return true per window;
    and within an arbitrary 60-second interval, which can overlap two
    windows, at most 2N - 1 calls of a peer return true (none when N is
    not positive). *)
Theorem shouldLog_bound (max : Z) (calls : list (string * Z)) (peerId : string) :
  nondecreasing calls →
  Forall withinWindow (run calls (create max))
  ∧ (∀ w, (Z.of_nat (length (loggedInWindow peerId w (run calls (create max))))
           ≤ Z.max 0 max)%Z)
  ∧ (∀ t0, (Z.of_nat (length (loggedInInterval peerId t0 (run calls (create max))))
            ≤ Z.max 0 (2 * max - 1))%Z).
Proof.
  intros Hmono.
  pose proof (run_withinWindow calls (create max) Hmono (startsBefore_create _ _)) as Hin.
  split; [done|]. split.
  - intros w.
    pose proof (run_budget peerId w (w + 1) w 0 calls (create max)) as Hb.
    unfold WINDOW_MS in Hb. cbn in Hb. rewrite lookup_empty in Hb. cbn in Hb.
    specialize (Hb ltac:(lia) ltac:(lia) ltac:(lia)).
    assert (Hle : length (loggedInWindow peerId w (run calls (create max)))
                  ≤ length (filter (counted peerId w (w + 1) w) (run calls (create max)))).
    { apply (filter_length_le withinWindow); [done|].
      unfold withinWindow, counted. intros c Hc [Hl Hw]. split; [done|lia]. }
    lia.
  - intros t0.
    pose proof (run_budget peerId (t0 - WINDOW_MS + 1) t0 t0 1 calls (create max)) as Hb1.
    pose proof (run_budget peerId t0 (t0 + WINDOW_MS) t0 0 calls (create max)) as Hb2.
    cbn in Hb1, Hb2. rewrite lookup_empty in Hb1, Hb2. cbn in Hb1, Hb2.
    unfold WINDOW_MS in *.
    specialize (Hb1 ltac:(lia) ltac:(lia) ltac:(lia)).
    specialize (Hb2 ltac:(lia) ltac:(lia) ltac:(lia)).
    pose proof (filter_length_split withinWindow
      (λ c, loggedFor peerId c ∧ (t0 ≤ callTime c < t0 + 60000)%Z)
      (counted peerId (t0 - 60000 + 1) t0 t0)
      (counted peerId t0 (t0 + 60000) t0)
      (run calls (create max)) Hin) as Hsplit.
    unfold loggedInInterval, WINDOW_MS.
    assert (Himp : ∀ c, withinWindow c →
              (loggedFor peerId c ∧ (t0 ≤ callTime c < t0 + 60000)%Z) →
              counted peerId (t0 - 60000 + 1) t0 t0 c
              ∨ counted peerId t0 (t0 + 60000) t0 c).
    { unfold withinWindow, counted, WINDOW_MS. intros c Hc [Hl Ht].
      destruct (decide (callWindow c < t0)%Z); [left|right]; (split; [done|lia]). }
    specialize (Hsplit Himp). lia.
Qed.

Lemma burst_nondecreasing : nondecreasing Examples.burst.
Proof. unfold Examples.burst. cbn. repeat constructor; cbn; lia. Defined.

(** Witness for C5: four calls with a limit of two. *)
Lemma shouldLog_bound_witness :
  nondecreasing Examples.burst
  ∧ (Z.of_nat (length (loggedInInterval "peer-1" 59999
                         (run Examples.burst (create 2))))
     ≤ Z.max 0 (2 * 2 - 1))%Z.
Proof.
  split; [exact burst_nondecreasing|].
  exact (proj2 (proj2 (shouldLog_bound 2 Examples.burst "peer-1" burst_nondecreasing))
           59999%Z).
Defined.

(** C5 as stated fails: with a limit of two, the second call of the first
    window and the two calls that open the next window all return true,
    three of them within two milliseconds. *)
Lemma shouldLog_sliding_window_counterexample :
  nondecreasing Examples.burst
  ∧ callLogged <$> run Examples.burst (create 2) = [true; true; true; true]
  ∧ length (loggedInInterval "peer-1" 59999 (run Examples.burst (create 2))) = 3
  ∧ ¬ (Z.of_nat (length (loggedInInterval "peer-1" 59999
                           (run Examples.burst (create 2)))) ≤ 2)%Z.
Proof.
  split; [exact burst_nondecreasing|].
  assert (H : length (loggedInInterval "peer-1" 59999 (run Examples.burst (create 2))) = 3)
    by (vm_compute; reflexivity).
  split; [vm_compute; reflexivity|]. split; [exact H|]. rewrite H. lia.
Qed.

End RateLimiterFacts.

(** * Further properties of the engine *)

(** ** Trimming and lower-casing *)

Section NormalizationFacts.

Lemma lowerUnit_idemp a : JS.lowerUnit (JS.lowerUnit a) = JS.lowerUnit a.
Proof. by destruct a as [[] [] [] [] [] [] [] []]. Qed.

Lemma lowerUnit_whiteSpace a : JS.isWhiteSpace (JS.lowerUnit a) = JS.isWhiteSpace a.
Proof. by destruct a as [[] [] [] [] [] [] [] []]. Qed.

Lemma lowerUnit_slash a : Ascii.eqb (JS.lowerUnit a) "/" = Ascii.eqb a "/".
Proof. by destruct a as [[] [] [] [] [] [] [] []]. Qed.

Lemma lowerUnit_space a : Ascii.eqb (JS.lowerUnit a) " " = Ascii.eqb a " ".
Proof. by destruct a as [[] [] [] [] [] [] [] []]. Qed.

Lemma toLowerCase_idemp s : JS.toLowerCase (JS.toLowerCase s) = JS.toLowerCase s.
Proof. induction s as [|a s IH]; simpl; [done|]. by rewrite lowerUnit_idemp, IH. Qed.

Lemma toLowerCase_trimStart s :
  JS.toLowerCase (JS.trimStart s) = JS.trimStart (JS.toLowerCase s).
Proof.
  induction s as [|a s IH]; simpl; [done|].
  rewrite lowerUnit_whiteSpace. by destruct (JS.isWhiteSpace a).
Qed.

Lemma toLowerCase_trimEnd s :
  JS.toLowerCase (JS.trimEnd s) = JS.trimEnd (JS.toLowerCase s).
Proof.
  induction s as [|a s IH]; simpl; [done|].
  rewrite <-IH, lowerUnit_whiteSpace.
  destruct (JS.trimEnd s); simpl; [by destruct (JS.isWhiteSpace a)|done].
Qed.

Lemma toLowerCase_trim s : JS.toLowerCase (JS.trim s) = JS.trim (JS.toLowerCase s).
Proof. unfold JS.trim. by rewrite toLowerCase_trimEnd, toLowerCase_trimStart. Qed.

Lemma toLowerCase_startsWith_slash s :
  JS.startsWith (JS.toLowerCase s) "/" = JS.startsWith s "/".
Proof.
  destruct s as [|a s]; simpl; [done|]. rewrite lowerUnit_slash.
  by destruct (Ascii.eqb a "/"), s.
Qed.

Lemma toLowerCase_cons_slash s :
  JS.toLowerCase ("/" +:+ s) = "/" +:+ JS.toLowerCase s.
Proof. done. Qed.

Lemma trimEnd_keep a s :
  JS.isWhiteSpace a = false → JS.trimEnd (String a s) = String a (JS.trimEnd s).
Proof. intros Ha. simpl. rewrite Ha. by destruct (JS.trimEnd s). Qed.

Lemma trimEnd_idemp s : JS.trimEnd (JS.trimEnd s) = JS.trimEnd s.
Proof.
  induction s as [|a s IH]; simpl; [done|].
  destruct (JS.trimEnd s) as [|b t] eqn:E.
  - destruct (JS.isWhiteSpace a) eqn:Ha; simpl; [done|]. by rewrite Ha.
  - change (JS.trimEnd (String a (String b t))) with
      (match JS.trimEnd (String b t) with
       | EmptyString => if JS.isWhiteSpace a then EmptyString else String a EmptyString
       | u => String a u
       end).
    by rewrite IH.
Qed.

(** [trimEnd] keeps the first unit of whatever it leaves. *)
Lemma trimEnd_head s a t : JS.trimEnd s = String a t → ∃ s', s = String a s'.
Proof.
  destruct s as [|b s]; simpl; [done|].
  destruct (JS.trimEnd s); [destruct (JS.isWhiteSpace b)|]; intros [= <- <-]; eauto.
Qed.

Lemma trimStart_head s a t : JS.trimStart s = String a t → JS.isWhiteSpace a = false.
Proof.
  induction s as [|b s IH]; simpl; [done|].
  destruct (JS.isWhiteSpace b) eqn:Hb; [done|]. by intros [= <- <-].
Qed.

Lemma trimStart_keep a s :
  JS.isWhiteSpace a = false → JS.trimStart (String a s) = String a s.
Proof. intros Ha. simpl. by rewrite Ha. Qed.

(** What [trim] leaves is empty or starts with a unit that is not white
    space. *)
Lemma trim_head s a t : JS.trim s = String a t → JS.isWhiteSpace a = false.
Proof.
  unfold JS.trim. intros H. destruct (trimEnd_head _ _ _ H) as [s' Hs'].
  by apply trimStart_head in Hs'.
Qed.

Lemma trim_idemp s : JS.trim (JS.trim s) = JS.trim s.
Proof.
  destruct (JS.trim s) as [|a t] eqn:E; [done|].
  pose proof (trim_head _ _ _ E) as Ha.
  unfold JS.trim at 1. rewrite trimStart_keep by done.
  rewrite <-E. unfold JS.trim. apply trimEnd_idemp.
Qed.

Lemma trim_cons_slash s : JS.trim s = s → JS.trim ("/" +:+ s) = "/" +:+ s.
Proof.
  intros Hs. change ("/" +:+ s) with (String "/" s).
  unfold JS.trim. rewrite trimStart_keep, trimEnd_keep by done. f_equal.
  rewrite <-Hs at 1. unfold JS.trim. rewrite trimEnd_idemp. exact Hs.
Qed.

Lemma normalCommand_of cmd :
  Notions.normalCommand
    (let c := JS.trim (JS.toLowerCase cmd) in
     if JS.startsWith c "/" then c else "/" +:+ c).
Proof.
  cbv zeta. set (c := JS.trim (JS.toLowerCase cmd)).
  assert (Hlow : JS.toLowerCase c = c).
  { unfold c. by rewrite toLowerCase_trim, toLowerCase_idemp. }
  assert (Htrim : JS.trim c = c) by apply trim_idemp.
  destruct (JS.startsWith c "/") eqn:Hs; [done|].
  split; [by destruct c|]. split.
  - change (JS.toLowerCase ("/" +:+ c)) with ("/" +:+ JS.toLowerCase c). by rewrite Hlow.
  - by apply trim_cons_slash.
Qed.

Lemma normalizeCommands_all_normal (arr : list string) :
  Forall Notions.normalCommand (Config.normalizeCommands arr).
Proof.
  unfold Config.normalizeCommands. apply Forall_fmap, Forall_forall.
  intros cmd _. apply normalCommand_of.
Qed.

(** X1.  Whatever list is normalized, every command that comes out starts
    with a slash and is unchanged by lower-casing and by trimming; and
    normalizing a second time changes nothing. *)
Theorem normalizeCommands_normal (arr : list string) :
  Forall Notions.normalCommand (Config.normalizeCommands arr)
  ∧ Config.normalizeCommands (Config.normalizeCommands arr) = Config.normalizeCommands arr.
Proof.
  pose proof (normalizeCommands_all_normal arr) as Hall.
  split; [done|].
  unfold Config.normalizeCommands at 1.
  induction Hall as [|c l (Hs & Hlow & Htrim) _ IH]; [done|].
  rewrite fmap_cons, IH. f_equal. by rewrite Hlow, Htrim, Hs.
Qed.

End NormalizationFacts.

(** ** More on the command guard *)

Section CommandGuardMore.
Import Config CommandGuard.

Lemma takeUntil_head stop a s :
  stop a = false → takeUntil stop (String a s) = String a (takeUntil stop s).
Proof. intros Ha. simpl. by rewrite Ha. Qed.

Lemma headUpToSpace_slash trimmed :
  JS.startsWith trimmed "/" = true → JS.startsWith (headUpToSpace trimmed) "/" = true.
Proof.
  intros (s' & -> & _)%startsWith_cons. unfold headUpToSpace.
  rewrite takeUntil_head by done. simpl. by destruct (takeUntil isSpace s').
Qed.

Lemma headUpToSpace_lower s :
  JS.toLowerCase (headUpToSpace (JS.toLowerCase s)) = headUpToSpace (JS.toLowerCase s).
Proof.
  unfold headUpToSpace. induction s as [|a s IH]; simpl; [done|].
  destruct (isSpace (JS.lowerUnit a)); simpl; [done|]. by rewrite lowerUnit_idemp, IH.
Qed.

Lemma headUpToSpace_no_space s : JS.indexOf " " (headUpToSpace s) = None.
Proof.
  destruct (JS.indexOf " " (headUpToSpace s)) eqn:E; [|done].
  assert (H : isSpace " " = false); [|done].
  apply (takeUntil_clean isSpace s). fold (headUpToSpace s). by rewrite E.
Qed.

Lemma headUpToSpace_whole s : JS.indexOf " " s = None → headUpToSpace s = s.
Proof.
  unfold headUpToSpace. induction s as [|a s IH]; simpl; [done|].
  unfold isSpace at 1. destruct (Ascii.eqb a " "); [done|].
  destruct (JS.indexOf " " s); [done|]. intros _. by rewrite IH.
Qed.

Lemma matchBlockedCommand_unfold content config :
  matchBlockedCommand content config =
  if JS.startsWith (normalize content) "/"
  then verdict (headUpToSpace (normalize content)) config
  else None.
Proof.
  unfold matchBlockedCommand. destruct (JS.startsWith (normalize content) "/") eqn:Hs.
  - destruct (extractCommand_head _ Hs) as [-> ->]. done.
  - unfold extractCommand. by rewrite Hs.
Qed.

(** X2.  Whatever [matchBlockedCommand] returns is a command in normal
    form: it starts with a slash, holds no space and no upper-case letter.
    It is [/help], or a member of the blocked list in blocklist mode, or a
    command outside the allowed list in allowlist mode.  A list entry that
    holds a space or an upper-case letter is therefore never matched. *)
Theorem matchBlockedCommand_result
    (content : string) (config : SystemCommandsConfig) (command : string) :
  matchBlockedCommand content config = Some command →
  JS.startsWith command "/" = true
  ∧ JS.indexOf " "%char command = None
  ∧ JS.toLowerCase command = command
  ∧ (command = "/help" ∧ is_Some (guestHelp config)
     ∨ mode config = Blocklist ∧ command ∈ blocked config
     ∨ mode config = Allowlist ∧ command ∉ allowed config).
Proof.
  rewrite matchBlockedCommand_unfold.
  destruct (JS.startsWith (normalize content) "/") eqn:Hs; [|done].
  set (head := headUpToSpace (normalize content)).
  assert (Hhead : JS.startsWith head "/" = true
                  ∧ JS.indexOf " " head = None ∧ JS.toLowerCase head = head).
  { split; [by apply headUpToSpace_slash|]. split; [apply headUpToSpace_no_space|].
    apply headUpToSpace_lower. }
  unfold verdict.
  destruct (bool_decide (is_Some (guestHelp config)) && String.eqb head "/help") eqn:Hhelp.
  - apply andb_true_iff in Hhelp as [Hg%bool_decide_eq_true _].
    intros [= <-]. repeat split; try done. by left.
  - destruct (mode config) eqn:Hmode.
    + destruct (JS.includes (blocked config) head) eqn:Hin; [|done].
      intros [= <-]. apply includes_true in Hin. split_and!; try apply Hhead. auto.
    + destruct (JS.includes (allowed config) head) eqn:Hin; [done|].
      intros [= <-]. apply includes_false in Hin. split_and!; try apply Hhead. auto.
Qed.

(** Witness for X2. *)
Lemma matchBlockedCommand_result_witness :
  matchBlockedCommand "  /Status now" Examples.blocklist = Some "/status"
  ∧ JS.indexOf " "%char "/status" = None.
Proof.
  assert (H : matchBlockedCommand "  /Status now" Examples.blocklist = Some "/status")
    by reflexivity.
  split; [exact H|].
  exact (proj1 (proj2 (matchBlockedCommand_result _ _ _ H))).
Defined.

(** X3.  In allowlist mode every slash command whose head is not on the
    allowed list is blocked, and the head is what is returned; with an empty
    allowed list this is every slash command. *)
Theorem allowlist_blocks_unlisted (content : string) (config : SystemCommandsConfig) :
  mode config = Allowlist →
  JS.startsWith (normalize content) "/" = true →
  headUpToSpace (normalize content) ∉ allowed config →
  matchBlockedCommand content config = Some (headUpToSpace (normalize content)).
Proof.
  intros Hmode Hs Hnot. rewrite matchBlockedCommand_unfold, Hs. unfold verdict.
  rewrite Hmode. apply includes_false in Hnot. rewrite Hnot.
  destruct (bool_decide _ && String.eqb _ "/help") eqn:Hhelp; [|done].
  apply andb_true_iff in Hhelp as [_ Heq]. by apply String.eqb_eq in Heq as ->.
Qed.

(** Witness for X3. *)
Lemma allowlist_blocks_unlisted_witness :
  mode Examples.allowlist = Allowlist
  ∧ JS.startsWith (normalize "/newfeature2027") "/" = true
  ∧ matchBlockedCommand "/newfeature2027" Examples.allowlist = Some "/newfeature2027".
Proof.
  split; [reflexivity|]. split; [reflexivity|].
  refine (allowlist_blocks_unlisted "/newfeature2027" Examples.allowlist
            eq_refl eq_refl _).
  apply includes_false. reflexivity.
Defined.

(** X4.  The loader's normal form and the guard's treatment of messages
    fit together: an entry in normal form without a space, sent as a
    message, is its own head; so it is blocked when it is on the blocked
    list in blocklist mode, and let through when it is on the allowed list
    in allowlist mode and is not an intercepted [/help]. *)
Theorem normal_entry_matches_itself (entry : string) (config : SystemCommandsConfig) :
  Notions.normalCommand entry →
  JS.indexOf " "%char entry = None →
  headUpToSpace (normalize entry) = entry
  ∧ (mode config = Blocklist → entry ∈ blocked config →
     matchBlockedCommand entry config = Some entry)
  ∧ (mode config = Allowlist → entry ∈ allowed config →
     guestHelp config = None ∨ entry ≠ "/help" →
     matchBlockedCommand entry config = None).
Proof.
  intros (Hs & Hlow & Htrim) Hspace.
  assert (Hnorm : normalize entry = entry) by (unfold normalize; by rewrite Htrim, Hlow).
  assert (Hhead : headUpToSpace (normalize entry) = entry).
  { rewrite Hnorm. by apply headUpToSpace_whole. }
  split; [done|]. rewrite matchBlockedCommand_unfold, Hhead, Hnorm, Hs. unfold verdict. split.
  - intros -> Hin%includes_true. rewrite Hin.
    destruct (bool_decide _ && String.eqb entry "/help") eqn:Hhelp; [|done].
    apply andb_true_iff in Hhelp as [_ Heq]. by apply String.eqb_eq in Heq as ->.
  - intros -> Hin%includes_true Hno. rewrite Hin.
    destruct (bool_decide _ && String.eqb entry "/help") eqn:Hhelp; [|done].
    apply andb_true_iff in Hhelp as [Hg%bool_decide_eq_true Heq%String.eqb_eq].
    destruct Hno as [Hnone|Hne]; [|done]. rewrite Hnone in Hg. by destruct Hg.
Qed.

(** Witness for X4. *)
Lemma normal_entry_matches_itself_witness :
  Notions.normalCommand "/status" ∧ JS.indexOf " "%char "/status" = None
  ∧ matchBlockedCommand "/status" Examples.blocklist = Some "/status".
Proof.
  assert (Hn : Notions.normalCommand "/status") by (repeat split).
  assert (Hs : JS.indexOf " "%char "/status" = None) by reflexivity.
  split; [exact Hn|]. split; [exact Hs|].
  refine (proj1 (proj2 (normal_entry_matches_itself "/status" Examples.blocklist Hn Hs))
            eq_refl _).
  apply includes_true. reflexivity.
Defined.

End CommandGuardMore.

(** ** What a loaded policy guarantees *)

Section LoadedPolicy.
Import Config Notions.

Ltac result_step :=
  cbn [assertObject mbind mret result_bind result_ret throw].

Lemma getProp_None {A} k (fields : list (string * A)) :
  getProp k fields = None ↔ k ∉ fields.*1.
Proof.
  induction fields as [|[k' v] rest IH]; simpl.
  - split; [intros _; apply not_elem_of_nil|done].
  - destruct (String.eqb k' k) eqn:E.
    + apply String.eqb_eq in E as ->. split; [done|]. intros []. apply list_elem_of_here.
    + apply String.eqb_neq in E. rewrite IH, not_elem_of_cons.
      split; [intros H; split; [congruence|exact H]|by intros [_ H]].
Qed.

Lemma getProp_elem {A} k (v : A) fields : getProp k fields = Some v → (k, v) ∈ fields.
Proof.
  induction fields as [|[k' v'] rest IH]; simpl; [done|].
  destruct (String.eqb k' k) eqn:E.
  - apply String.eqb_eq in E as ->. intros [= ->]. apply list_elem_of_here.
  - intros H. apply list_elem_of_further. auto.
Qed.

Lemma setProp_fresh {A} k (v : A) fields :
  k ∉ fields.*1 → setProp k v fields = fields ++ [(k, v)].
Proof.
  induction fields as [|[k' v'] rest IH]; simpl; [done|].
  rewrite not_elem_of_cons. intros [Hne Hrest].
  destruct (String.eqb k' k) eqn:E; [by apply String.eqb_eq in E|]. by rewrite IH.
Qed.

Lemma setProp_elem {A} k (v : A) fields x :
  x ∈ setProp k v fields → x = (k, v) ∨ x ∈ fields.
Proof.
  induction fields as [|[k' v'] rest IH]; simpl.
  - intros ->%list_elem_of_singleton. by left.
  - destruct (String.eqb k' k).
    + intros [->| ?]%elem_of_cons; [by left|]. right. by apply list_elem_of_further.
    + intros [->| ?]%elem_of_cons; [right; apply list_elem_of_here|].
      destruct IH as [?|?]; [done|by left|]. right. by apply list_elem_of_further.
Qed.

(** What a successful turn of the role loop has done. *)
Lemma rolesLoop_cons_inr n raw rest roles0 w0 fw roles w :
  rolesLoop ((n, raw) :: rest) roles0 w0 fw = inr (roles, w) →
  ∃ r wnew fw',
    loadsAs (n, raw) (n, r)
    ∧ rolesLoop rest (setRole n r roles0) (w0 ++ wnew) fw' = inr (roles, w)
    ∧ (users r = Star → is_Some fw')
    ∧ (users r ≠ Star → fw = None ∧ fw' = None)
    ∧ (is_Some fw → is_Some fw')
    ∧ (∀ x, x ∈ wnew ↔ x = EmptyTools n ∧ tools r = Items []
                        ∨ x = EmptyChannels n ∧ channels r = Items []).
Proof.
  cbn [rolesLoop]. destruct raw as [| | | | | |role]; try done. result_step.
  destruct (parseUsers (get "users" role) n) as [|u] eqn:Hu; [done|]. result_step.
  destruct (parseTools (get "tools" role) n) as [|t] eqn:Ht; [done|]. result_step.
  destruct (parseChannels (get "channels" role) n) as [|c] eqn:Hc; [done|]. result_step.
  set (r := {| users := u; tools := t; channels := c |}).
  set (wnew := match t with Items [] => [EmptyTools n] | _ => [] end
               ++ match c with Items [] => [EmptyChannels n] | _ => [] end).
  assert (Hw : match c with
               | Items [] =>
                   match t with Items [] => w0 ++ [EmptyTools n] | _ => w0 end
                   ++ [EmptyChannels n]
               | _ => match t with Items [] => w0 ++ [EmptyTools n] | _ => w0 end
               end = w0 ++ wnew).
  { unfold wnew. destruct t as [|[|]], c as [|[|]]; simpl;
      rewrite ?app_nil_r, <-?app_assoc; done. }
  rewrite Hw. clear Hw.
  assert (Hwnew : ∀ x, x ∈ wnew ↔ x = EmptyTools n ∧ tools r = Items []
                                  ∨ x = EmptyChannels n ∧ channels r = Items []).
  { intros x. unfold wnew. simpl. rewrite elem_of_app.
    destruct t as [|[|]], c as [|[|]]; simpl;
      rewrite ?list_elem_of_singleton, ?elem_of_nil;
      intuition (discriminate || auto). }
  assert (Hloads : loadsAs (n, JObj role) (n, r)).
  { split; [done|]. exists role. simpl. eauto. }
  destruct u as [|l], fw as [v|]; result_step; try done; intros Hloop.
  - exists r, wnew, (Some v). split_and!; eauto; simpl; done.
  - exists r, wnew, (Some n). split_and!; eauto; simpl; done.
  - exists r, wnew, None. split_and!; eauto; simpl; done.
Qed.

Lemma Forall_filter_keep {A} (P Q : A → Prop) `{∀ x, Decision (Q x)} (l : list A) :
  Forall P l → Forall P (filter Q l).
Proof.
  induction 1 as [|x l Hx _ IH]; [constructor|].
  destruct (decide (Q x)).
  - rewrite filter_cons_True by done. by constructor.
  - by rewrite filter_cons_False.
Qed.

Lemma loadsAs_names entries parsed :
  Forall2 loadsAs entries parsed → parsed.*1 = entries.*1.
Proof.
  induction 1 as [|e r es rs [Hname _] _ IH]; [done|].
  rewrite !fmap_cons. by rewrite Hname, IH.
Qed.

(** With distinct role names in the document, a successful loop parses
    every entry.  The entries not named [__proto__] are appended to the own
    roles, in order; an entry named [__proto__] becomes the prototype.  The
    parsed roles are first those with a user list and then those with
    wildcard users. *)
Lemma rolesLoop_inr_shape entries roles0 w0 fw roles w :
  rolesLoop entries roles0 w0 fw = inr (roles, w) →
  NoDup ((ownRoles roles0).*1 ++ entries.*1) →
  ∃ parsed,
    Forall2 loadsAs entries parsed
    ∧ ownRoles roles = ownRoles roles0 ++ filter (λ r, r.1 ≠ "__proto__") parsed
    ∧ rolesProto roles = match getProp "__proto__" parsed with
                         | Some r => Some r
                         | None => rolesProto roles0
                         end
    ∧ (is_Some fw → Forall (λ r, users r.2 = Star) parsed)
    ∧ ∃ l1 l2, parsed = l1 ++ l2
        ∧ Forall (λ r, users r.2 ≠ Star) l1 ∧ Forall (λ r, users r.2 = Star) l2.
Proof.
  revert roles0 w0 fw. induction entries as [|[n raw] rest IH]; intros roles0 w0 fw Hloop Hnd.
  - injection Hloop as <- <-. exists []. rewrite app_nil_r.
    split_and!; [constructor|done|done|by constructor|]. exists [], []. by split_and!.
  - apply rolesLoop_cons_inr in Hloop
      as (r & wnew & fw' & Hloads & Hloop & Hstar & Hitems & Hkeep & _).
    cbn [fmap list_fmap fst] in Hnd.
    assert (Hfresh : n ∉ (ownRoles roles0).*1).
    { apply NoDup_app in Hnd as (_ & Hdisj & _).
      intros Hin. apply (Hdisj n Hin), list_elem_of_here. }
    assert (Hlater : n ∉ rest.*1).
    { apply NoDup_app in Hnd as (_ & _ & Hnd). by apply NoDup_cons in Hnd as [? _]. }
    assert (Hshape : ∃ parsed,
      Forall2 loadsAs rest parsed
      ∧ ownRoles roles
        = ownRoles roles0 ++ filter (λ r, r.1 ≠ "__proto__") ((n, r) :: parsed)
      ∧ rolesProto roles = match getProp "__proto__" ((n, r) :: parsed) with
                           | Some r => Some r
                           | None => rolesProto roles0
                           end
      ∧ (is_Some fw' → Forall (λ r, users r.2 = Star) parsed)
      ∧ ∃ l1 l2, parsed = l1 ++ l2
          ∧ Forall (λ r, users r.2 ≠ Star) l1 ∧ Forall (λ r, users r.2 = Star) l2).
    { unfold setRole in Hloop. destruct (String.eqb n "__proto__") eqn:Hname.
      - apply String.eqb_eq in Hname as ->.
        apply IH in Hloop as (parsed & Hall & Hown & Hproto & Hsome & Hparts).
        2:{ cbn [ownRoles]. apply NoDup_app in Hnd as (Hnd0 & Hdisj & Hnd).
            apply NoDup_cons in Hnd as [_ Hnd]. apply NoDup_app. split_and!; try done.
            intros x Hx Hin. apply (Hdisj x Hx). by apply list_elem_of_further. }
        exists parsed. cbn [ownRoles rolesProto] in *.
        rewrite filter_cons_False by (cbn; auto). cbn [getProp]. rewrite String.eqb_refl.
        split_and!; try done. rewrite Hproto.
        assert (Hnone : getProp "__proto__" parsed = None).
        { apply getProp_None. by rewrite (loadsAs_names _ _ Hall). }
        by rewrite Hnone.
      - apply String.eqb_neq in Hname. cbn [ownRoles rolesProto] in Hloop.
        rewrite (setProp_fresh n r _ Hfresh) in Hloop.
        apply IH in Hloop as (parsed & Hall & Hown & Hproto & Hsome & Hparts).
        2:{ cbn [ownRoles]. by rewrite fmap_app, <-app_assoc. }
        exists parsed. cbn [ownRoles rolesProto] in *.
        rewrite filter_cons_True by (cbn; auto). cbn [getProp].
        apply String.eqb_neq in Hname. rewrite Hname.
        split_and!; try done. by rewrite Hown, <-app_assoc. }
    destruct Hshape as (parsed & Hall & Hown & Hproto & Hsome & l1 & l2 & -> & Hl1 & Hl2).
    exists ((n, r) :: l1 ++ l2). split; [by constructor|]. split; [done|]. split; [done|].
    assert (Hcases : users r = Star ∨ users r ≠ Star)
      by (destruct (users r); [by left|by right]).
    destruct Hcases as [Hu|Hu].
    + specialize (Hsome (Hstar Hu)). split; [intros _; by constructor|].
      exists [], ((n, r) :: l1 ++ l2). split_and!; [done|constructor|by constructor].
    + destruct (Hitems Hu) as [-> ->]. split; [by intros [??]|].
      exists ((n, r) :: l1), l2. split_and!; [done|by constructor|done].
Qed.

(** A role read under a name: an own role of that name, or the prototype
    read under [__proto__]. *)
Lemma roleAt_IsRole roleName roles r :
  roleAt roleName roles = IsRole r →
  (roleName, r) ∈ ownRoles roles
  ∨ roleName = "__proto__" ∧ rolesProto roles = Some r.
Proof.
  unfold roleAt. destruct (getProp roleName (ownRoles roles)) as [r'|] eqn:Hown.
  - intros [= <-]. left. by apply getProp_elem.
  - destruct (rolesProto roles) as [p|]; [|by case_bool_decide].
    destruct (String.eqb roleName "__proto__") eqn:Hname.
    + apply String.eqb_eq in Hname. intros [= <-]. by right.
    + by repeat case_bool_decide.
Qed.

Lemma roleAt_own roleName roles r :
  getProp roleName (ownRoles roles) = Some r → roleAt roleName roles = IsRole r.
Proof. unfold roleAt. by intros ->. Qed.

(** Whatever the document, after a successful loop every role with an
    empty tools or channels list has its warning, the prototype included. *)
Lemma rolesLoop_inr_warned entries roles0 w0 fw roles w :
  rolesLoop entries roles0 w0 fw = inr (roles, w) →
  (∀ n r, (n, r) ∈ ownRoles roles0 ∨ n = "__proto__" ∧ rolesProto roles0 = Some r →
     (tools r = Items [] → EmptyTools n ∈ w0)
     ∧ (channels r = Items [] → EmptyChannels n ∈ w0)) →
  ∀ n r, (n, r) ∈ ownRoles roles ∨ n = "__proto__" ∧ rolesProto roles = Some r →
    (tools r = Items [] → EmptyTools n ∈ w)
    ∧ (channels r = Items [] → EmptyChannels n ∈ w).
Proof.
  revert roles0 w0 fw. induction entries as [|[k raw] rest IH]; intros roles0 w0 fw Hloop Hinv.
  - by injection Hloop as <- <-.
  - apply rolesLoop_cons_inr in Hloop as (r' & wnew & fw' & _ & Hloop & _ & _ & _ & Hwnew).
    apply (IH _ _ _ Hloop). intros n r Hheld.
    assert (Hcases : n = k ∧ r = r'
                     ∨ ((n, r) ∈ ownRoles roles0
                        ∨ n = "__proto__" ∧ rolesProto roles0 = Some r)).
    { unfold setRole in Hheld. destruct (String.eqb k "__proto__") eqn:Hname;
        cbn [ownRoles rolesProto] in Hheld.
      - apply String.eqb_eq in Hname as ->.
        destruct Hheld as [?|[-> [= <-]]]; [right; by left|by left].
      - destruct Hheld as [[[= -> ->]|?]%setProp_elem|?];
          [by left|right; by left|right; by right]. }
    destruct Hcases as [[-> ->]|Hold].
    + split; intros Hempty; apply elem_of_app; right; apply Hwnew; auto.
    + destruct (Hinv n r Hold) as [Ht Hc].
      split; intros Hempty; apply elem_of_app; left; auto.
Qed.

(** The steps a successful [parse] has gone through. *)
Lemma parse_inr_inv doc config :
  parse doc = inr config →
  ∃ cfg,
    doc = JObj cfg
    ∧ rolesLoop (rolesOf doc) noRoles [] None = inr (roles config, warnings config)
    ∧ roleAt (defaultRole config) (roles config) ≠ NoRole
    ∧ parseToolGroups (get "toolGroups" cfg) = inr (toolGroups config)
    ∧ parseFailSafe (get "failSafe" cfg) = inr (failSafe config)
    ∧ parseRateLimit (get "rateLimit" cfg) = inr (rateLimit config)
    ∧ parseSystemCommands (get "systemCommands" cfg) = inr (systemCommands config)
    ∧ validateGroupRefs (ownRoles (roles config)) (toolGroups config) = inr ().
Proof.
  unfold parse. destruct doc as [| | | | | |cfg]; try done. result_step.
  unfold rolesOf.
  destruct (get "roles" cfg) as [| | | | | |rolesRaw]; try done. result_step.
  destruct (rolesLoop rolesRaw noRoles [] None) as [e|[roles warnings]]; [done|].
  result_step. case_bool_decide as Hlen; [done|].
  destruct (isFalsyRole _) eqn:Hdef; [done|].
  destruct (parseToolGroups _) as [?|toolGroups] eqn:Htg; [done|]. result_step.
  destruct (parseFailSafe _) as [?|failSafe] eqn:Hfs; [done|]. result_step.
  destruct (parseRateLimit _) as [?|rateLimit] eqn:Hrl; [done|]. result_step.
  destruct (parseSystemCommands _) as [?|systemCommands] eqn:Hsc; [done|]. result_step.
  destruct (validateGroupRefs _ _) as [?|[]] eqn:Hval; [done|]. result_step.
  intros [= <-]. exists cfg. cbn. split_and!; try done.
  intros H. by rewrite H in Hdef.
Qed.

Lemma wildcardsLast_split (l1 l2 : list (string * RBACRoleConfig)) :
  Forall (λ r, users r.2 ≠ Star) l1 → Forall (λ r, users r.2 = Star) l2 →
  wildcardsLast (l1 ++ l2).
Proof.
  intros Hl1 Hl2 i j ni ri nj rj Hij Hi Hj Hstar.
  destruct (decide (j < length l1)) as [Hlt|Hge].
  - rewrite lookup_app_l in Hi by lia.
    rewrite Forall_lookup in Hl1. by destruct (Hl1 i _ Hi).
  - rewrite lookup_app_r in Hj by lia.
    rewrite Forall_lookup in Hl2. exact (Hl2 _ _ Hj).
Qed.

Lemma fullDoc_loads : ∃ config, parse Documents.fullDoc = inr config.
Proof. vm_compute. eexists. reflexivity. Defined.

Lemma fullDoc_names : NoDup (rolesOf Documents.fullDoc).*1.
Proof. apply (bool_decide_unpack _). vm_compute. exact I. Defined.

(** X5.  When the role names of the document are distinct, as the members
    of an object are, every role entry is parsed, each to the users, tools
    and channels of its own entry and under its own name.  The roles parsed
    from the entries not named [__proto__] are the own roles of the loaded
    policy, in declared order; the role parsed from an entry named
    [__proto__] is no own role but the prototype of the roles.  So a
    document without a role of that name loads with one role per entry, in
    declared order, and with no prototype. *)
Theorem loaded_roles_in_declared_order (doc : JValue) (config : RBACConfig) :
  parse doc = inr config →
  NoDup (rolesOf doc).*1 →
  (∃ parsed,
     Forall2 loadsAs (rolesOf doc) parsed
     ∧ ownRoles (roles config) = filter (λ r, r.1 ≠ "__proto__") parsed
     ∧ rolesProto (roles config) = getProp "__proto__" parsed)
  ∧ ("__proto__" ∉ (rolesOf doc).*1 →
     Forall2 loadsAs (rolesOf doc) (ownRoles (roles config))
     ∧ (ownRoles (roles config)).*1 = (rolesOf doc).*1
     ∧ rolesProto (roles config) = None).
Proof.
  intros (cfg & _ & Hloop & _)%parse_inr_inv Hnd.
  apply rolesLoop_inr_shape in Hloop as (parsed & Hall & Hown & Hproto & _); [|done].
  cbn [noRoles ownRoles rolesProto app] in Hown, Hproto.
  assert (Hread : rolesProto (roles config) = getProp "__proto__" parsed).
  { rewrite Hproto. by destruct (getProp "__proto__" parsed). }
  split; [by exists parsed|]. intros Hplain.
  assert (Hsame : filter (λ r : string * RBACRoleConfig, r.1 ≠ "__proto__") parsed = parsed).
  { rewrite <-(loadsAs_names _ _ Hall) in Hplain. clear -Hplain.
    induction parsed as [|[n r] rest IH]; [done|].
    rewrite fmap_cons, not_elem_of_cons in Hplain. destruct Hplain as [Hne Hrest].
    rewrite filter_cons_True by (cbn; auto). by rewrite IH. }
  rewrite Hown, Hsame. split_and!; [done|by apply loadsAs_names|].
  rewrite Hread. apply getProp_None. by rewrite (loadsAs_names _ _ Hall).
Qed.

(** A document with a role named [__proto__] loads with that role as the
    prototype of its roles, not as one of them: the role is returned by no
    resolution, but is read under the name [__proto__]. *)
Example protoRoleDoc_roles :
  ∃ config,
    parse Documents.protoRoleDoc = inr config
    ∧ (ownRoles (roles config)).*1 = ["admin"; "guest"]
    ∧ rolesProto (roles config) = Some {| users := Star; tools := Star; channels := Star |}
    ∧ RoleResolver.resolveRole "555666777" None config = "guest"
    ∧ roleAt "__proto__" (roles config)
      = IsRole {| users := Star; tools := Star; channels := Star |}.
Proof. eexists. split; [vm_compute; reflexivity|]. by split_and!. Qed.

(** A document whose guest role refers to the group [toString] loads, though
    it defines no such group, and the guard throws for that role. *)
Example inheritedGroupDoc_loads :
  ∃ config,
    parse Documents.inheritedGroupDoc = inr config
    ∧ ownGroups (toolGroups config) = ∅
    ∧ ToolGuard.checkToolAccess "get_recent_news" "guest" config
      = inl ToolGuard.NotIterable.
Proof. eexists. split; [vm_compute; reflexivity|]. by split_and!. Qed.

(** C1, at the failing input.  The only role of the document lists the
    group reference [@toString] and the pattern [exec_*]; the document
    defines no tool group.  The loader accepts it, because its test
    [!toolGroups[groupName]] reads the function [Object.prototype.toString]
    through the prototype chain.  The pattern [exec_*], without its trailing
    star, is a proper prefix of [exec_shell], so the rule allows that tool;
    but [expandTools] reads the same inherited function, finds it truthy and
    spreads it, which throws: the guard answers for no tool of that role,
    neither allowing [exec_shell] nor denying [exec], and the hook of the
    plugin rejects. *)
Lemma inherited_group_blocks_wildcard :
  ∃ config r,
    parse Documents.inheritedWildcardDoc = inr config
    ∧ roleAt "ops" (roles config) = IsRole r
    ∧ tools r = Items ["@toString"; "exec_*"]
    ∧ ownGroups (toolGroups config) = ∅
    ∧ groupsProto (toolGroups config) = None
    ∧ ToolGuard.viaPatternOf "exec_shell" ["@toString"; "exec_*"]
    ∧ ToolGuard.expandTools ["@toString"; "exec_*"] config = inl ToolGuard.NotIterable
    ∧ ToolGuard.checkToolAccess "exec_shell" "ops" config = inl ToolGuard.NotIterable
    ∧ ToolGuard.checkToolAccess "exec" "ops" config = inl ToolGuard.NotIterable
    ∧ (Plugin.beforeToolCall config "exec_shell"
         (Some "agent:main:telegram:direct:555666777") 0 0 None).1.1
      = inl ToolGuard.NotIterable.
Proof.
  eexists _, _. split; [vm_compute; reflexivity|]. split_and!; try reflexivity.
  exists "exec_*", "exec_". split_and!; try reflexivity.
  - apply list_elem_of_further, list_elem_of_here.
  - vm_compute. lia.
Qed.

(** Witness for X5: the full document, which has no role named
    [__proto__]. *)
Lemma loaded_roles_in_declared_order_witness :
  ∃ config, parse Documents.fullDoc = inr config
            ∧ (ownRoles (roles config)).*1
              = ["admin"; "guest-telegram"; "muted"; "guest"].
Proof.
  destruct fullDoc_loads as [config Hload]. exists config. split; [exact Hload|].
  refine (proj1 (proj2 (proj2 (loaded_roles_in_declared_order _ _ Hload fullDoc_names) _))).
  apply (bool_decide_unpack _). vm_compute. exact I.
Defined.

(** X6.  In a loaded policy no role with wildcard users comes before a
    role with a user list (for a document with distinct role names). *)
Theorem loaded_roles_wildcards_last (doc : JValue) (config : RBACConfig) :
  parse doc = inr config →
  NoDup (rolesOf doc).*1 →
  wildcardsLast (ownRoles (roles config)).
Proof.
  intros (cfg & _ & Hloop & _)%parse_inr_inv Hnd.
  apply rolesLoop_inr_shape in Hloop
    as (parsed & _ & -> & _ & _ & l1 & l2 & -> & Hl1 & Hl2); [|done].
  cbn [noRoles ownRoles app]. rewrite filter_app.
  apply wildcardsLast_split; by apply Forall_filter_keep.
Qed.

(** Witness for X6. *)
Lemma loaded_roles_wildcards_last_witness :
  ∃ config, parse Documents.fullDoc = inr config
            ∧ wildcardsLast (ownRoles (roles config)).
Proof.
  destruct fullDoc_loads as [config Hload]. exists config. split; [exact Hload|].
  exact (loaded_roles_wildcards_last _ _ Hload fullDoc_names).
Defined.

Lemma checkGroupRefs_inr roleName l toolGroups tool :
  checkGroupRefs roleName l toolGroups = inr () →
  tool ∈ l → JS.startsWith tool "@" = true →
  truthyGroup (groupAt (JS.sliceFrom 1 tool) toolGroups) = true.
Proof.
  induction l as [|entry rest IH]; [by intros _ ?%elem_of_nil|].
  cbn [checkGroupRefs]. intros Hcheck [Heq|Hin]%elem_of_cons Hat.
  - subst entry. rewrite Hat in Hcheck.
    by destruct (truthyGroup (groupAt (JS.sliceFrom 1 tool) toolGroups)).
  - apply IH; [|done..]. destruct (JS.startsWith entry "@"); [|done].
    by destruct (truthyGroup (groupAt (JS.sliceFrom 1 entry) toolGroups)).
Qed.

Lemma validateGroupRefs_inr roles toolGroups roleName r l :
  validateGroupRefs roles toolGroups = inr () →
  (roleName, r) ∈ roles → tools r = Items l →
  checkGroupRefs roleName l toolGroups = inr ().
Proof.
  induction roles as [|[n r'] rest IH]; [by intros _ ?%elem_of_nil|].
  cbn [validateGroupRefs]. intros Hval [[= -> ->]|Hin]%elem_of_cons Htools.
  - rewrite Htools in Hval. by destruct (checkGroupRefs n l toolGroups) as [|[]].
  - apply IH; [|done..].
    destruct (tools r') as [|l']; [done|].
    by destruct (checkGroupRefs n l' toolGroups) as [|[]].
Qed.

(** A truthy read under a plain name, in tool groups whose prototype has
    not been replaced, is an own group. *)
Lemma groupAt_plain groupName toolGroups :
  plainName groupName → groupsProto toolGroups = None →
  truthyGroup (groupAt groupName toolGroups) = true →
  is_Some (ownGroups toolGroups !! groupName).
Proof.
  unfold groupAt, plainName. intros Hplain ->.
  destruct (ownGroups toolGroups !! groupName); [eauto|].
  by rewrite bool_decide_eq_false_2.
Qed.

(** X7.  In a loaded policy every entry that starts with [@], in the tool
    list of every own role, reads a truthy value in the tool groups,
    whatever else the entry looks like.  When the name after the [@] is
    not a member of [Object.prototype] and the prototype of the tool groups
    has not been replaced, that value is a group the policy defines; a name
    such as [toString] passes the loader without one. *)
Theorem loaded_group_refs_defined (doc : JValue) (config : RBACConfig) :
  parse doc = inr config → groupRefsDefined config.
Proof.
  intros (cfg & _ & _ & _ & _ & _ & _ & _ & Hval)%parse_inr_inv.
  intros roleName r l tool Hrole Htools Htool Hat.
  assert (Htruthy : truthyGroup (groupAt (JS.sliceFrom 1 tool) (toolGroups config)) = true).
  { eapply checkGroupRefs_inr; [|done..]. by eapply validateGroupRefs_inr. }
  split; [done|]. intros Hplain Hproto. by apply groupAt_plain.
Qed.

(** Witness for X7. *)
Lemma loaded_group_refs_defined_witness :
  ∃ config, parse Documents.fullDoc = inr config ∧ groupRefsDefined config.
Proof.
  destruct fullDoc_loads as [config Hload]. exists config. split; [exact Hload|].
  exact (loaded_group_refs_defined _ _ Hload).
Defined.

(** X8.  In a loaded policy a role with an empty tools list carries its
    warning and is denied every tool; a role with an empty channels list
    carries its warning and matches no peer on any channel, known or not. *)
Theorem loaded_empty_lists_warned
    (doc : JValue) (config : RBACConfig) (roleName : string) (r : RBACRoleConfig) :
  parse doc = inr config →
  roleAt roleName (roles config) = IsRole r →
  (tools r = Items [] →
     EmptyTools roleName ∈ warnings config
     ∧ ∀ toolName,
         ToolGuard.checkToolAccess toolName roleName config
         = inr (ToolGuard.noAccess toolName roleName))
  ∧ (channels r = Items [] →
     EmptyChannels roleName ∈ warnings config
     ∧ ∀ peerId channel, RoleResolver.roleMatches peerId channel r = false).
Proof.
  intros (cfg & _ & Hloop & _)%parse_inr_inv Hrole.
  pose proof (roleAt_IsRole _ _ _ Hrole) as Hheld.
  destruct (rolesLoop_inr_warned _ _ _ _ _ _ Hloop
              ltac:(by intros ?? [?%elem_of_nil|[_ ?]]) roleName r Hheld) as [Ht Hc].
  split.
  - intros Hempty. split; [auto|]. intros toolName.
    unfold ToolGuard.checkToolAccess. by rewrite Hrole, Hempty.
  - intros Hempty. split; [auto|]. intros peerId channel.
    unfold RoleResolver.roleMatches, RoleResolver.channelsMatch. rewrite Hempty.
    destruct channel; [|by rewrite andb_false_r].
    unfold JS.includes. rewrite bool_decide_eq_false_2 by apply not_elem_of_nil.
    by rewrite andb_false_r.
Qed.

(** Witness for X8: the role [muted] of the full document. *)
Lemma loaded_empty_lists_warned_witness :
  ∃ config r,
    parse Documents.fullDoc = inr config
    ∧ roleAt "muted" (roles config) = IsRole r
    ∧ tools r = Items []
    ∧ EmptyTools "muted" ∈ warnings config.
Proof.
  destruct fullDoc_loads as [config Hload].
  assert (Hrole : ∃ r, roleAt "muted" (roles config) = IsRole r ∧ tools r = Items []).
  { vm_compute in Hload. injection Hload as <-. eexists. split; reflexivity. }
  destruct Hrole as (r & Hrole & Hempty). exists config, r.
  split; [exact Hload|]. split; [exact Hrole|]. split; [exact Hempty|].
  exact (proj1 (proj1 (loaded_empty_lists_warned _ _ _ _ Hload Hrole) Hempty)).
Defined.

Lemma commandsOf_normal value : Forall normalCommand (commandsOf value).
Proof.
  unfold commandsOf. destruct (stringArray value); [|constructor].
  apply normalizeCommands_all_normal.
Qed.

Lemma parseSystemCommands_inr value sc :
  parseSystemCommands value = inr (Some sc) →
  Forall normalCommand (blocked sc)
  ∧ Forall normalCommand (allowed sc)
  ∧ (mode sc = Blocklist → blocked sc ≠ []).
Proof.
  unfold parseSystemCommands. destruct (isNullish value); [done|].
  destruct value as [| | | | | |obj]; try done. result_step.
  destruct (parseMode (get "mode" obj)) as [|m]; [done|]. result_step.
  destruct (negb (isNullish (get "blocked" obj)) && _) eqn:Hb; [done|]. result_step.
  assert (Hnonempty : m = Blocklist →
            (∃ x xs, get "blocked" obj = JArr (x :: xs)) → commandsOf (get "blocked" obj) ≠ []).
  { intros _ (x & xs & Hraw). rewrite Hraw in Hb |- *. cbn [isNullish negb andb] in Hb.
    apply negb_false_iff, bool_decide_eq_true in Hb as [l Hl].
    unfold commandsOf. rewrite Hl. simpl in Hl.
    destruct x; try done. simpl in Hl.
    destruct (mapM _ xs); [|done]. by injection Hl as <-. }
  destruct m.
  - destruct (get "blocked" obj) as [| | | | |[|x xs]|] eqn:Hraw; try done. result_step.
    destruct (negb (isNullish (get "allowed" obj)) && _); [done|]. result_step.
    destruct (get "guestHelp" obj); try done; result_step.
    all: destruct (get "blockResponse" obj); try done; result_step.
    all: intros [= <-]; cbn; split_and!; try apply commandsOf_normal.
    all: intros _; rewrite <-Hraw in *; apply Hnonempty; eauto.
  - result_step.
    destruct (negb (isNullish (get "allowed" obj)) && _); [done|]. result_step.
    destruct (isArray (get "allowed" obj)); [|done]. result_step.
    destruct (get "guestHelp" obj); try done; result_step.
    all: destruct (get "blockResponse" obj); try done; result_step.
    all: intros [= <-]; cbn; split_and!; try apply commandsOf_normal; done.
Qed.

Lemma parseRateLimit_inr value rate :
  parseRateLimit value = inr (Some rate) → (1 ≤ maxBlockedPerMinute rate)%Z.
Proof.
  unfold parseRateLimit. destruct (isNullish value); [done|].
  destruct value as [| | | | | |obj]; try done. result_step.
  destruct (get "maxBlockedPerMinute" obj) as [| | |max| | |]; try done.
  destruct (max <? 1)%Z eqn:E; [done|]. intros [= <-]. cbn. by apply Z.ltb_ge in E.
Qed.

(** X9.  The command-guard settings of a loaded policy are in normal
    form: every blocked and every allowed command starts with a slash and
    is unchanged by lower-casing and trimming, and in blocklist mode the
    blocked list is not empty.  A log limit, when one is loaded, is at
    least one. *)
Theorem loaded_settings_normal (doc : JValue) (config : RBACConfig) :
  parse doc = inr config →
  (∀ sc, systemCommands config = Some sc →
     Forall normalCommand (blocked sc)
     ∧ Forall normalCommand (allowed sc)
     ∧ (mode sc = Blocklist → blocked sc ≠ []))
  ∧ (∀ rate, rateLimit config = Some rate → (1 ≤ maxBlockedPerMinute rate)%Z).
Proof.
  intros (cfg & _ & _ & _ & _ & _ & Hrate & Hsc & _)%parse_inr_inv. split.
  - intros sc Hsome. rewrite Hsome in Hsc. by eapply parseSystemCommands_inr.
  - intros rate Hsome. rewrite Hsome in Hrate. by eapply parseRateLimit_inr.
Qed.

(** Witness for X9: the allowed list of the full document is stored in
    normal form. *)
Lemma loaded_settings_normal_witness :
  ∃ config sc,
    parse Documents.fullDoc = inr config
    ∧ systemCommands config = Some sc
    ∧ allowed sc = ["/start"; "/stop"; "/news"]
    ∧ Forall normalCommand (allowed sc).
Proof.
  destruct fullDoc_loads as [config Hload].
  assert (Hsc : ∃ sc, systemCommands config = Some sc
                      ∧ allowed sc = ["/start"; "/stop"; "/news"]).
  { vm_compute in Hload. injection Hload as <-. eexists. split; reflexivity. }
  destruct Hsc as (sc & Hsc & Hallowed). exists config, sc.
  split; [exact Hload|]. split; [exact Hsc|]. split; [exact Hallowed|].
  exact (proj1 (proj2 (proj1 (loaded_settings_normal _ _ Hload) sc Hsc))).
Defined.


Lemma get_insert_other k k' (v : JValue) fields1 fields2 :
  k ≠ k' → get k' (fields1 ++ (k, v) :: fields2) = get k' (fields1 ++ fields2).
Proof.
  intros Hne. unfold get. f_equal.
  induction fields1 as [|[k1 v1] rest IH]; simpl.
  - destruct (String.eqb k k') eqn:E; [by apply String.eqb_eq in E|done].
  - by destruct (String.eqb k1 k').
Qed.

(** X10.  The loader reads eight members of the document and nothing else:
    two documents that agree on them load alike, error for error and policy
    for policy.  In particular a member under any other name, wherever it
    stands in the document, changes nothing. *)
Theorem parse_reads_known_members_only :
  (∀ fields fields',
     (∀ k, k ∈ knownKeys → get k fields = get k fields') →
     parse (JObj fields) = parse (JObj fields'))
  ∧ (∀ fields1 fields2 k v,
       k ∉ knownKeys →
       parse (JObj (fields1 ++ (k, v) :: fields2)) = parse (JObj (fields1 ++ fields2))).
Proof.
  assert (Hagree : ∀ fields fields',
     (∀ k, k ∈ knownKeys → get k fields = get k fields') →
     parse (JObj fields) = parse (JObj fields')).
  { intros fields fields' Hsame. unfold parse. result_step.
    assert (Hk : ∀ k, bool_decide (k ∈ knownKeys) = true → get k fields = get k fields').
    { intros k Hk. apply Hsame. by apply bool_decide_eq_true in Hk. }
    by rewrite (Hk "roles" eq_refl), (Hk "defaultRole" eq_refl),
      (Hk "toolGroups" eq_refl), (Hk "failSafe" eq_refl), (Hk "rateLimit" eq_refl),
      (Hk "systemCommands" eq_refl), (Hk "logBlocked" eq_refl), (Hk "logAllowed" eq_refl). }
  split; [exact Hagree|].
  intros fields1 fields2 k v Hk. apply Hagree. intros k' Hk'.
  apply get_insert_other. by intros ->.
Qed.

(** Witness for X10: a comment member in front of the roles. *)
Lemma parse_reads_known_members_only_witness :
  ("comment" ∉ knownKeys)
  ∧ parse (JObj ([] ++ ("comment", JStr "draft") :: [("roles", JObj [])]))
    = parse (JObj ([] ++ [("roles", JObj [])])).
Proof.
  assert (H : "comment" ∉ knownKeys) by (apply (bool_decide_unpack _); vm_compute; exact I).
  split; [exact H|].
  exact (proj2 parse_reads_known_members_only [] [("roles", JObj [])]
           "comment" (JStr "draft") H).
Defined.

End LoadedPolicy.

(** ** More on the resolver and the tool guard *)

Section AccessMore.
Import Config Notions RoleResolver ToolGuard.

Lemma wildcardsLast_tail x (l : list (string * RBACRoleConfig)) :
  wildcardsLast (x :: l) → wildcardsLast l.
Proof.
  intros H i j ni ri nj rj Hij Hi Hj. apply (H (S i) (S j) ni ri nj rj); [lia|done..].
Qed.

(** X11.  In a policy whose wildcard-user roles come last, as in every
    loaded policy, a peer that some role lists by id, on a channel that role
    accepts, is resolved to a role that lists the peer by id: no role with
    wildcard users takes the peer first. *)
Theorem listed_peer_not_shadowed
    (config : RBACConfig) (peerId : string) (channel : option string)
    (roleName : string) (r : RBACRoleConfig) (l : list string) :
  wildcardsLast (ownRoles (roles config)) →
  (roleName, r) ∈ ownRoles (roles config) →
  users r = Items l → peerId ∈ l → channelsMatch channel r = true →
  ∃ pre n' r' post l',
    ownRoles (roles config) = pre ++ (n', r') :: post
    ∧ resolveRole peerId channel config = n'
    ∧ users r' = Items l' ∧ peerId ∈ l'
    ∧ channelsMatch channel r' = true.
Proof.
  unfold resolveRole. generalize (defaultRole config).
  induction (ownRoles (roles config)) as [|[n0 r0] rest IH];
    intros d Hlast Hin Husers Hpeer Hchan.
  - by apply elem_of_nil in Hin.
  - rewrite resolveLoop_step. destruct (roleMatches peerId channel r0) eqn:Hm.
    + apply andb_true_iff in Hm as [Hu Hc]. unfold usersMatch in Hu.
      destruct (users r0) as [|l0] eqn:Hu0.
      * apply elem_of_cons in Hin as [[= -> ->]|Hin]; [congruence|].
        apply list_elem_of_lookup in Hin as [j Hj].
        assert (users r = Star); [|congruence].
        by apply (Hlast 0 (S j) n0 r0 roleName r); [lia|..].
      * exists [], n0, r0, rest, l0. split_and!; try done. by apply includes_true.
    + apply elem_of_cons in Hin as [[= -> ->]|Hin].
      { unfold roleMatches, usersMatch in Hm. rewrite Husers, Hchan in Hm.
        apply includes_true in Hpeer. by rewrite Hpeer in Hm. }
      destruct (IH d (wildcardsLast_tail _ _ Hlast) Hin Husers Hpeer Hchan)
        as (pre & n' & r' & post & l' & -> & Hres & Hu' & Hp' & Hc').
      exists ((n0, r0) :: pre), n', r', post, l'. by split_and!.
Qed.

(** Witness for X11 on the sample policy: the operator is not taken by a
    guest role. *)
Lemma listed_peer_not_shadowed_witness :
  wildcardsLast (ownRoles (roles Examples.policy))
  ∧ ∃ pre n' r' post l',
      ownRoles (roles Examples.policy) = pre ++ (n', r') :: post
      ∧ resolveRole "408001372" (Some "telegram") Examples.policy = n'
      ∧ users r' = Items l' ∧ "408001372" ∈ l'
      ∧ channelsMatch (Some "telegram") r' = true.
Proof.
  assert (Hlast : wildcardsLast (ownRoles (roles Examples.policy))).
  { apply (wildcardsLast_split [("ops", Examples.opsRole)]
             [("news", Examples.newsRole); ("guest", Examples.guestRole)]);
      repeat constructor; done. }
  split; [exact Hlast|].
  apply (listed_peer_not_shadowed Examples.policy "408001372" (Some "telegram")
           "ops" Examples.opsRole ["408001372"] Hlast).
  - apply list_elem_of_here.
  - reflexivity.
  - apply list_elem_of_here.
  - reflexivity.
Defined.

(** What a single entry that does not end in [_*] adds to the exact
    bucket, when it does not make the expansion throw. *)
Lemma exact_entry entry config e toolName :
  JS.endsWith entry "_*" = false →
  expandTools [entry] config = inr e →
  toolName ∈ exact e
  ↔ JS.startsWith entry "@" = false ∧ toolName = entry
    ∨ JS.startsWith entry "@" = true
      ∧ ∃ items, truthyGroup (groupAt (JS.sliceFrom 1 entry) (toolGroups config)) = true
                 ∧ spread (groupAt (JS.sliceFrom 1 entry) (toolGroups config)) = inr items
                 ∧ toolName ∈ items.
Proof.
  intros Hend. rewrite expandTools_entry, Hend.
  destruct (JS.startsWith entry "@").
  - destruct (truthyGroup _) eqn:Htruthy.
    + destruct (spread _) as [err|items]; [done|]. intros [= <-]. cbn [exact]. split.
      * intros Hin. right. split; [done|]. by exists items.
      * intros [[? _]|(_ & items' & _ & [= <-] & Hin)]; done.
    + intros [= <-]. cbn [exact]. split; [by intros ?%elem_of_nil|].
      by intros [[? _]|(_ & items' & ? & _)].
  - intros [= <-]. cbn [exact]. rewrite list_elem_of_singleton. split.
    + intros ->. by left.
    + by intros [[_ ->]|[? _]].
Qed.

(** The exact bucket of an expansion: the plain entries, and what the
    truthy group reads of the [@] entries spread to. *)
Lemma exact_bucket l config e toolName :
  expandTools l config = inr e →
  toolName ∈ exact e
  ↔ ∃ entry, entry ∈ l ∧ JS.endsWith entry "_*" = false
      ∧ (JS.startsWith entry "@" = false ∧ toolName = entry
         ∨ JS.startsWith entry "@" = true
           ∧ ∃ items,
               truthyGroup (groupAt (JS.sliceFrom 1 entry) (toolGroups config)) = true
               ∧ spread (groupAt (JS.sliceFrom 1 entry) (toolGroups config)) = inr items
               ∧ toolName ∈ items).
Proof.
  revert e. induction l as [|entry rest IH]; intros e.
  { intros [= <-]. cbn. split; [by intros ?%elem_of_nil|].
    by intros (? & ?%elem_of_nil & _). }
  rewrite expandTools_cons.
  destruct (expandTools [entry] config) as [err|e1] eqn:H1; [done|].
  destruct (expandTools rest config) as [err|e2]; [done|].
  intros [= <-]. cbn [exact]. rewrite elem_of_app, (IH e2 eq_refl).
  destruct (JS.endsWith entry "_*") eqn:Hend.
  - rewrite (expandTools_wildcard_entry _ _ Hend) in H1. injection H1 as <-.
    cbn [exact]. rewrite elem_of_nil. split.
    + intros [[]|(x & Hx & Hrest)]. exists x. split; [by apply list_elem_of_further|done].
    + intros (x & [->|Hx]%elem_of_cons & Hne & Hrest); [congruence|]. right. eauto.
  - rewrite (exact_entry _ _ _ _ Hend H1). split.
    + intros [Hentry|(x & Hx & Hrest)].
      * exists entry. split; [apply list_elem_of_here|done].
      * exists x. split; [by apply list_elem_of_further|done].
    + intros (x & [->|Hx]%elem_of_cons & Hne & Hrest); [by left|]. right. eauto.
Qed.

(** An entry at which the expansion throws: it does not end in [_*],
    starts with [@], and the group read under its name is truthy and cannot
    be spread. *)
Lemma expandTools_throws l config :
  expandTools l config = inl NotIterable
  ↔ ∃ entry, entry ∈ l ∧ JS.endsWith entry "_*" = false
      ∧ JS.startsWith entry "@" = true
      ∧ truthyGroup (groupAt (JS.sliceFrom 1 entry) (toolGroups config)) = true
      ∧ spread (groupAt (JS.sliceFrom 1 entry) (toolGroups config)) = inl NotIterable.
Proof.
  induction l as [|entry rest IH].
  { split; [done|]. by intros (? & ?%elem_of_nil & _). }
  rewrite expandTools_cons.
  assert (Hentry : expandTools [entry] config = inl NotIterable
    ↔ JS.endsWith entry "_*" = false ∧ JS.startsWith entry "@" = true
      ∧ truthyGroup (groupAt (JS.sliceFrom 1 entry) (toolGroups config)) = true
      ∧ spread (groupAt (JS.sliceFrom 1 entry) (toolGroups config)) = inl NotIterable).
  { rewrite expandTools_entry.
    destruct (JS.endsWith entry "_*"); [by split; [|intros [? _]]|].
    destruct (JS.startsWith entry "@"); [|by split; [|intros (_ & ? & _)]].
    destruct (truthyGroup _); [|by split; [|intros (_ & _ & ? & _)]].
    destruct (spread _) as [[]|items]; [done|]. by split; [|intros (_ & _ & _ & ?)]. }
  destruct (expandTools [entry] config) as [[]|e1].
  - split; [|done]. intros _. exists entry. split; [apply list_elem_of_here|].
    by apply Hentry.
  - destruct (expandTools rest config) as [[]|e2].
    + split; [|done]. intros _. destruct (proj1 IH eq_refl) as (x & Hx & Hrest).
      exists x. split; [by apply list_elem_of_further|done].
    + split; [done|]. intros (x & [->|Hx]%elem_of_cons & Hrest).
      * by apply Hentry in Hrest.
      * assert (H : @inr TypeError Expanded e2 = inl NotIterable); [|done].
        apply IH. eauto.
Qed.

(** X12.  What an expanded tool list holds, and when there is none.  The
    expansion throws exactly when some entry [@name] that does not end in
    [_*] reads, under [name], a truthy value that cannot be spread: a member
    of [Object.prototype] such as [toString], when the policy defines no
    group of that name.  Otherwise the wildcard bucket holds exactly the
    entries that end in [_*], and the exact bucket holds exactly the plain
    entries together with what the truthy group reads of the entries
    [@name] spread to: the tools of a group the policy defines.  A name that
    reads nothing adds nothing. *)
Theorem expandTools_buckets (l : list string) (config : RBACConfig) :
  (expandTools l config = inl NotIterable
   ↔ ∃ entry, entry ∈ l ∧ JS.endsWith entry "_*" = false
       ∧ JS.startsWith entry "@" = true
       ∧ truthyGroup (groupAt (JS.sliceFrom 1 entry) (toolGroups config)) = true
       ∧ spread (groupAt (JS.sliceFrom 1 entry) (toolGroups config)) = inl NotIterable)
  ∧ (∀ e, expandTools l config = inr e →
       (∀ pattern, pattern ∈ wildcards e
                   ↔ pattern ∈ l ∧ JS.endsWith pattern "_*" = true)
       ∧ (∀ toolName,
            toolName ∈ exact e
            ↔ ∃ entry, entry ∈ l ∧ JS.endsWith entry "_*" = false
                ∧ (JS.startsWith entry "@" = false ∧ toolName = entry
                   ∨ JS.startsWith entry "@" = true
                     ∧ ∃ items,
                         truthyGroup (groupAt (JS.sliceFrom 1 entry) (toolGroups config))
                         = true
                         ∧ spread (groupAt (JS.sliceFrom 1 entry) (toolGroups config))
                           = inr items
                         ∧ toolName ∈ items)))
  ∧ (∀ groupName tools,
       ownGroups (toolGroups config) !! groupName = Some tools →
       truthyGroup (groupAt groupName (toolGroups config)) = true
       ∧ spread (groupAt groupName (toolGroups config)) = inr tools)
  ∧ (∀ groupName,
       ownGroups (toolGroups config) !! groupName = None →
       groupsProto (toolGroups config) = None →
       if bool_decide (groupName ∈ JS.objectPrototypeNames)
       then truthyGroup (groupAt groupName (toolGroups config)) = true
            ∧ spread (groupAt groupName (toolGroups config)) = inl NotIterable
       else truthyGroup (groupAt groupName (toolGroups config)) = false).
Proof.
  split_and!.
  - apply expandTools_throws.
  - intros e He. split.
    + intros pattern. by apply (wildcards_bucket l config).
    + intros toolName. by apply exact_bucket.
  - intros groupName tools Hown. unfold groupAt. by rewrite Hown.
  - intros groupName Hown Hproto. unfold groupAt. rewrite Hown, Hproto.
    by case_bool_decide.
Qed.

(** X13.  Access through a tool list depends on the set of its entries
    only, and grows with it: when two policies have the same tool groups and
    every entry of a role's list in the first is an entry of its list in the
    second, each tool the first allows the role is allowed by the second,
    provided the second list expands at all.  Reordering or repeating
    entries, or adding entries that expand, never takes access away; an
    added entry at which the expansion throws takes all of it away. *)
Theorem tool_access_monotone
    (config config' : RBACConfig) (roleName toolName : string)
    (r r' : RBACRoleConfig) (l l' : list string) :
  toolGroups config = toolGroups config' →
  roleAt roleName (roles config) = IsRole r → tools r = Items l →
  roleAt roleName (roles config') = IsRole r' → tools r' = Items l' →
  l ⊆ l' →
  checkToolAccess toolName roleName config = inr (allowedResult roleName) →
  (∀ e', expandTools l' config' = inr e' →
         checkToolAccess toolName roleName config' = inr (allowedResult roleName))
  ∧ (expandTools l' config' = inl NotIterable →
     checkToolAccess toolName roleName config' = inl NotIterable)
  ∧ (l' ⊆ l →
     checkToolAccess toolName roleName config' = inr (allowedResult roleName)).
Proof.
  intros Hgroups Hrole Htools Hrole' Htools' Hsub Hallowed.
  assert (Hgrows : ∀ e', expandTools l' config' = inr e' →
            checkToolAccess toolName roleName config' = inr (allowedResult roleName)).
  { intros e' He'. revert Hallowed. unfold checkToolAccess at 1. rewrite Hrole, Htools.
    destruct (expandTools l config) as [err|e] eqn:He; [done|].
    rewrite (checkToolAccess_expanded _ _ _ _ _ _ Hrole' Htools' He').
    destruct (JS.includes (exact e) toolName) eqn:Hex.
    - intros _. apply includes_true in Hex.
      apply (exact_bucket _ _ _ _ He) in Hex as (entry & Hin & Hrest).
      assert (Hex' : toolName ∈ exact e').
      { apply (exact_bucket _ _ _ _ He'). exists entry. rewrite <-Hgroups.
        split; [by apply Hsub|done]. }
      apply includes_true in Hex'. by rewrite Hex'.
    - destruct (existsb (wildcardMatches toolName) (wildcards e)) eqn:Hwc; [|done].
      intros _. apply existsb_wildcard in Hwc as (p & Hp & Hm).
      apply (wildcards_bucket _ _ _ _ He) in Hp as [Hin Hend].
      assert (Hwc' : existsb (wildcardMatches toolName) (wildcards e') = true).
      { apply existsb_wildcard. exists p. split; [|done].
        apply (wildcards_bucket _ _ _ _ He'). auto. }
      by rewrite Hwc', orb_true_r. }
  split_and!; [done| |].
  - intros He'. unfold checkToolAccess. by rewrite Hrole', Htools', He'.
  - intros Hback. destruct (expandTools l' config') as [[]|e'] eqn:He'; [|by eapply Hgrows].
    apply expandTools_throws in He' as (entry & Hin & Hrest).
    assert (Hthrows : expandTools l config = inl NotIterable).
    { apply expandTools_throws. exists entry. rewrite Hgroups. split; [by apply Hback|done]. }
    revert Hallowed. unfold checkToolAccess. by rewrite Hrole, Htools, Hthrows.
Qed.

(** Witness for X13: the operator role, with a second entry added. *)
Lemma tool_access_monotone_witness :
  checkToolAccess "exec_shell" "ops" Examples.policy = inr (allowedResult "ops")
  ∧ checkToolAccess "exec_shell" "ops" Documents.widerPolicy = inr (allowedResult "ops").
Proof.
  assert (H : checkToolAccess "exec_shell" "ops" Examples.policy
              = inr (allowedResult "ops")) by reflexivity.
  split; [exact H|].
  refine (proj1 (tool_access_monotone Examples.policy Documents.widerPolicy "ops"
                   "exec_shell" Examples.opsRole Documents.widerOpsRole ["exec_*"]
                   ["catalog_search"; "exec_*"] eq_refl eq_refl eq_refl eq_refl eq_refl _ H)
            {| exact := ["catalog_search"]; wildcards := ["exec_*"] |} eq_refl).
  intros x ->%list_elem_of_singleton. apply list_elem_of_further, list_elem_of_here.
Defined.

End AccessMore.

(** ** More on the rate limiter *)

Section RateLimiterMore.
Import RateLimit Runs.

Lemma shouldLog_answer q t rl :
  (shouldLog q t rl).1 = (logged (currentWindow t (peers rl !! q)) <? maxPerMinute rl)%Z
  ∧ maxPerMinute (shouldLog q t rl).2 = maxPerMinute rl.
Proof. unfold shouldLog. by destruct (logged _ <? maxPerMinute rl)%Z. Qed.

(** X14.  Peers do not disturb one another.  Two limiters with the same
    limit and the same stored window for a peer answer that peer's calls
    alike, whatever else they hold; so in any sequence of calls, the calls of
    one peer are answered, and counted in windows, exactly as if the calls of
    all other peers had never been made. *)
Theorem limiter_peers_independent
    (peerId : string) (calls : list (string * Z)) (rl1 rl2 : RateLimiter) :
  maxPerMinute rl1 = maxPerMinute rl2 →
  peers rl1 !! peerId = peers rl2 !! peerId →
  filter (λ c, callPeer c = peerId) (run calls rl1)
  = run (filter (λ c, c.1 = peerId) calls) rl2.
Proof.
  revert rl1 rl2. induction calls as [|[q t] rest IH]; intros rl1 rl2 Hmax Hpeer; [done|].
  rewrite shouldLog_run_cons, filter_cons. cbn [callPeer].
  rewrite (filter_cons _ (q, t)). cbn [fst].
  destruct (decide (q = peerId)) as [->|Hq].
  - rewrite shouldLog_run_cons.
    destruct (shouldLog_answer peerId t rl1) as [Ha1 Hm1].
    destruct (shouldLog_answer peerId t rl2) as [Ha2 Hm2].
    rewrite Ha1, Ha2, Hpeer, Hmax. f_equal.
    apply IH; [congruence|]. rewrite !shouldLog_peers, !decide_True by done.
    by rewrite Ha1, Ha2, Hpeer, Hmax.
  - apply IH.
    + destruct (shouldLog_answer q t rl1) as [_ Hm1]. congruence.
    + by rewrite shouldLog_peers, decide_False.
Qed.

(** Witness for X14: two peers taking turns against a fresh limiter. *)
Lemma limiter_peers_independent_witness :
  filter (λ c, callPeer c = "peer-a")
    (run [("peer-a", 0); ("peer-b", 5); ("peer-a", 10); ("peer-b", 15)]%Z (create 1))
  = run (filter (λ c, c.1 = "peer-a")
           [("peer-a", 0); ("peer-b", 5); ("peer-a", 10); ("peer-b", 15)]%Z) (create 1).
Proof.
  exact (limiter_peers_independent "peer-a"
           [("peer-a", 0); ("peer-b", 5); ("peer-a", 10); ("peer-b", 15)]%Z
           (create 1) (create 1) eq_refl eq_refl).
Defined.

Lemma shouldLog_in_window peerId t rl t0 j :
  (0 ≤ j)%Z → (t - t0 < WINDOW_MS)%Z →
  peers rl !! peerId = Some (windowAfter (maxPerMinute rl) t0 j) →
  (shouldLog peerId t rl).1 = bool_decide (j < maxPerMinute rl)%Z
  ∧ windowStart (currentWindow t (peers rl !! peerId)) = t0
  ∧ peers (shouldLog peerId t rl).2 !! peerId
    = Some (windowAfter (maxPerMinute rl) t0 (j + 1)).
Proof.
  intros Hj Ht Hpeer.
  assert (Hcw : currentWindow t (peers rl !! peerId) = windowAfter (maxPerMinute rl) t0 j).
  { rewrite Hpeer. unfold currentWindow, windowAfter. cbn.
    destruct (WINDOW_MS <=? t - t0)%Z eqn:E; [apply Z.leb_le in E; lia|done]. }
  rewrite shouldLog_peers, decide_True by done.
  destruct (shouldLog_answer peerId t rl) as [-> _]. rewrite Hcw. cbn.
  split_and!; [|done|].
  - case_bool_decide; [apply Z.ltb_lt|apply Z.ltb_ge]; lia.
  - unfold windowAfter. f_equal. destruct (_ <? _)%Z eqn:E;
      [apply Z.ltb_lt in E|apply Z.ltb_ge in E]; f_equal; lia.
Qed.

Lemma shouldLog_fresh peerId t max :
  (shouldLog peerId t (create max)).1 = bool_decide (0 < max)%Z
  ∧ windowStart (currentWindow t (peers (create max) !! peerId)) = t
  ∧ maxPerMinute (shouldLog peerId t (create max)).2 = max
  ∧ peers (shouldLog peerId t (create max)).2 !! peerId = Some (windowAfter max t 1).
Proof.
  destruct (shouldLog_answer peerId t (create max)) as [Ha Hm].
  rewrite shouldLog_peers, decide_True, Ha by done.
  unfold create. cbn. rewrite lookup_empty. cbn. split_and!; try done.
  - case_bool_decide; [apply Z.ltb_lt|apply Z.ltb_ge]; lia.
  - unfold windowAfter. f_equal. destruct (0 <? max)%Z eqn:E;
      [apply Z.ltb_lt in E|apply Z.ltb_ge in E]; f_equal; lia.
Qed.

(** Calls that all fall in the current window of the peer. *)
Lemma run_in_window peerId ts rl t0 j :
  (0 ≤ j)%Z → Forall (λ t, (t - t0 < WINDOW_MS)%Z) ts →
  peers rl !! peerId = Some (windowAfter (maxPerMinute rl) t0 j) →
  (∀ i c, run (callsOf peerId ts) rl !! i = Some c →
          callLogged c = bool_decide (j + Z.of_nat i < maxPerMinute rl)%Z
          ∧ callWindow c = t0)
  ∧ maxPerMinute (after (callsOf peerId ts) rl) = maxPerMinute rl
  ∧ peers (after (callsOf peerId ts) rl) !! peerId
    = Some (windowAfter (maxPerMinute rl) t0 (j + Z.of_nat (length ts))).
Proof.
  intros Hj Hts. revert rl j Hj.
  induction Hts as [|t ts Ht _ IH]; intros rl j Hj Hpeer.
  - cbn. rewrite Z.add_0_r. split_and!; [|done..].
    intros i c Hc. by rewrite lookup_nil in Hc.
  - destruct (shouldLog_in_window peerId t rl t0 j Hj Ht Hpeer) as (Ha & Hw & Hnext).
    destruct (shouldLog_answer peerId t rl) as [_ Hm].
    rewrite <-Hm in Hnext.
    destruct (IH _ (j + 1)%Z ltac:(lia) Hnext) as (IHa & IHm & IHp).
    unfold callsOf. rewrite fmap_cons. fold (callsOf peerId ts).
    rewrite shouldLog_run_cons. cbn [after length]. split_and!.
    + intros [|i] c; cbn.
      * intros [= <-]. cbn. rewrite Z.add_0_r. done.
      * intros Hc. destruct (IHa i c Hc) as [-> ->]. rewrite Hm. split; [|done].
        apply bool_decide_ext. lia.
    + congruence.
    + rewrite IHp, Hm. f_equal. f_equal. lia.
Qed.

(** A fresh limiter after a first call at [t0] and further calls within the
    60 seconds that follow. *)
Lemma run_first_window peerId max t0 ts :
  Forall (λ t, (t - t0 < WINDOW_MS)%Z) ts →
  (∀ i c, run (callsOf peerId (t0 :: ts)) (create max) !! i = Some c →
          callLogged c = bool_decide (Z.of_nat i < max)%Z ∧ callWindow c = t0)
  ∧ maxPerMinute (after (callsOf peerId (t0 :: ts)) (create max)) = max
  ∧ peers (after (callsOf peerId (t0 :: ts)) (create max)) !! peerId
    = Some (windowAfter max t0 (Z.of_nat (S (length ts)))).
Proof.
  intros Hts. destruct (shouldLog_fresh peerId t0 max) as (Ha & Hw & Hm & Hnext).
  rewrite <-Hm in Hnext at 2.
  destruct (run_in_window peerId ts _ t0 1 ltac:(lia) Hts Hnext) as (IHa & IHm & IHp).
  unfold callsOf. rewrite fmap_cons. fold (callsOf peerId ts).
  rewrite shouldLog_run_cons. cbn [after]. split_and!.
  - intros [|i] c; cbn.
    + intros [= <-]. cbn. done.
    + intros Hc. destruct (IHa i c Hc) as [-> ->]. rewrite Hm. split; [|done].
      apply bool_decide_ext. lia.
  - congruence.
  - rewrite IHp, Hm. f_equal. f_equal. lia.
Qed.

(** X15.  Within one window the limiter is exact: when a peer's first call
    to a fresh limiter comes at [t0] and its further calls come less than
    60 s after [t0], whatever their order, the call at position [i]
    (counting from 0) is logged if and only if [i] is below the limit, and
    every call is counted in the window that started at [t0]. *)
Theorem window_logs_first_calls
    (max : Z) (peerId : string) (t0 : Z) (ts : list Z) (i : nat) (c : Call) :
  Forall (λ t, (t - t0 < WINDOW_MS)%Z) ts →
  run (callsOf peerId (t0 :: ts)) (create max) !! i = Some c →
  callLogged c = bool_decide (Z.of_nat i < max)%Z ∧ callWindow c = t0.
Proof.
  intros Hts Hc. by apply (proj1 (run_first_window peerId max t0 ts Hts)).
Qed.

(** Witness for X15: the third of four calls under a limit of two. *)
Lemma window_logs_first_calls_witness :
  Forall (λ t, (t - 1000 < WINDOW_MS)%Z) [1500; 800; 60999]%Z
  ∧ ∃ c, run (callsOf "peer-1" [1000; 1500; 800; 60999]%Z) (create 2) !! 2 = Some c
         ∧ callLogged c = bool_decide (Z.of_nat 2 < 2)%Z ∧ callWindow c = 1000%Z.
Proof.
  assert (H : Forall (λ t, (t - 1000 < WINDOW_MS)%Z) [1500; 800; 60999]%Z)
    by (unfold WINDOW_MS; repeat constructor; lia).
  split; [exact H|]. eexists. split; [reflexivity|].
  exact (window_logs_first_calls 2 "peer-1" 1000 [1500; 800; 60999]%Z 2 _ H eq_refl).
Defined.



End RateLimiterMore.

(** ** The hooks of the plugin *)

Section HookFacts.
Import Config Notions SessionKeyParser RoleResolver ToolGuard RateLimit CommandGuard Plugin Runs.

Lemma logDenied_in_window toolName peerId channel roleName reason now later rl t0 j :
  (0 ≤ j)%Z → (now - t0 < WINDOW_MS)%Z → (later - t0 < WINDOW_MS)%Z →
  peers rl !! peerId = Some (windowAfter (maxPerMinute rl) t0 j) →
  ∃ rl',
    logDenied toolName peerId channel roleName reason now later (Some rl)
    = (if bool_decide (j < maxPerMinute rl)%Z
       then [BlockedCall toolName peerId channel roleName reason]
       else if bool_decide (j = Z.max 0 (maxPerMinute rl))
            then [RateLimitExceeded peerId] else [],
       Some rl')
    ∧ maxPerMinute rl' = maxPerMinute rl
    ∧ peers rl' !! peerId = Some (windowAfter (maxPerMinute rl) t0 (j + 1)).
Proof.
  intros Hj Hnow Hlater Hpeer.
  destruct (shouldLog_in_window peerId now rl t0 j Hj Hnow Hpeer) as (Ha & _ & Hnext).
  destruct (shouldLog_answer peerId now rl) as [_ Hm].
  unfold logDenied. destruct (shouldLog peerId now rl) as [answer rl'] eqn:Hs.
  cbn [fst snd] in *. exists rl'. subst answer. split; [|done].
  case_bool_decide as Hlt; [done|].
  unfold getSuppressed. rewrite Hnext. cbn [windowStart suppressed windowAfter].
  destruct (WINDOW_MS <=? later - t0)%Z eqn:E; [apply Z.leb_le in E; lia|].
  case_bool_decide as Heq.
  - destruct (_ =? 1)%Z eqn:E1; [done|]. apply Z.eqb_neq in E1. lia.
  - destruct (_ =? 1)%Z eqn:E1; [|done]. apply Z.eqb_eq in E1. lia.
Qed.

Lemma deniedLogs_in_window toolName peerId channel roleName reason clock rl t0 j :
  (0 ≤ j)%Z →
  Forall (λ c, (c.1 - t0 < WINDOW_MS)%Z ∧ (c.2 - t0 < WINDOW_MS)%Z) clock →
  peers rl !! peerId = Some (windowAfter (maxPerMinute rl) t0 j) →
  ∀ i logs,
    deniedLogs toolName peerId channel roleName reason clock (Some rl) !! i = Some logs →
    logs = if bool_decide (j + Z.of_nat i < maxPerMinute rl)%Z
           then [BlockedCall toolName peerId channel roleName reason]
           else if bool_decide (j + Z.of_nat i = Z.max 0 (maxPerMinute rl))%Z
                then [RateLimitExceeded peerId] else [].
Proof.
  intros Hj Hclock. revert rl j Hj.
  induction Hclock as [|[now later] clock [Hnow Hlater] _ IH]; intros rl j Hj Hpeer i logs.
  - cbn. intros Hc. by rewrite lookup_nil in Hc.
  - cbn [deniedLogs]. cbn [fst snd] in Hnow, Hlater.
    destruct (logDenied_in_window toolName peerId channel roleName reason
                now later rl t0 j Hj Hnow Hlater Hpeer) as (rl' & -> & Hm & Hnext).
    destruct i as [|i]; cbn.
    + intros [= <-]. by rewrite Z.add_0_r.
    + intros Hc. rewrite <-Hm in Hnext.
      rewrite (IH rl' (j + 1)%Z ltac:(lia) Hnext i logs Hc), Hm.
      rewrite (bool_decide_ext (j + 1 + Z.of_nat i < maxPerMinute rl)%Z
                               (j + Z.of_nat (S i) < maxPerMinute rl)%Z) by lia.
      rewrite (bool_decide_ext (j + 1 + Z.of_nat i = Z.max 0 (maxPerMinute rl))%Z
                               (j + Z.of_nat (S i) = Z.max 0 (maxPerMinute rl))%Z) by lia.
      done.
Qed.

(** X17.  A peer that keeps being denied within one window gets a bounded
    trail in the log: against a fresh limiter, with all clock readings less
    than 60 s after the first, the denial at position [i] (from 0) writes
    the BLOCKED line when [i] is below the limit, the rate-limit notice when
    [i] equals the limit (0 for a limit that is not positive), and nothing
    after that.  So the notice is written once per window. *)
Theorem denied_calls_log_trail
    (toolName peerId : string) (channel : option string) (roleName : string)
    (reason : option string) (max t0 later0 : Z) (clock : list (Z * Z))
    (i : nat) (logs : list LogEntry) :
  (later0 - t0 < WINDOW_MS)%Z →
  Forall (λ c, (c.1 - t0 < WINDOW_MS)%Z ∧ (c.2 - t0 < WINDOW_MS)%Z) clock →
  deniedLogs toolName peerId channel roleName reason ((t0, later0) :: clock)
             (Some (create max)) !! i = Some logs →
  logs = if bool_decide (Z.of_nat i < max)%Z
         then [BlockedCall toolName peerId channel roleName reason]
         else if bool_decide (Z.of_nat i = Z.max 0 max)%Z
              then [RateLimitExceeded peerId] else [].
Proof.
  intros Hlater Hclock. cbn [deniedLogs].
  destruct (shouldLog_fresh peerId t0 max) as (Ha & _ & Hm & Hnext).
  assert (Hfirst : ∃ rl',
    logDenied toolName peerId channel roleName reason t0 later0 (Some (create max))
    = (if bool_decide (0 < max)%Z
       then [BlockedCall toolName peerId channel roleName reason]
       else [RateLimitExceeded peerId], Some rl')
    ∧ maxPerMinute rl' = max
    ∧ peers rl' !! peerId = Some (windowAfter max t0 1)).
  { unfold logDenied. destruct (shouldLog peerId t0 (create max)) as [answer rl'] eqn:Hs.
    cbn [fst snd] in *. exists rl'. subst answer. split; [|done].
    case_bool_decide as Hlt; [done|].
    unfold getSuppressed. rewrite Hnext. cbn [windowStart suppressed windowAfter].
    destruct (WINDOW_MS <=? later0 - t0)%Z eqn:E; [apply Z.leb_le in E; lia|].
    destruct (_ =? 1)%Z eqn:E1; [done|]. apply Z.eqb_neq in E1. lia. }
  destruct Hfirst as (rl' & -> & Hm' & Hnext'). destruct i as [|i]; cbn.
  - intros [= <-]. change (Z.of_nat 0) with 0%Z.
    case_bool_decide; [done|]. rewrite bool_decide_eq_true_2; [done|lia].
  - intros Hc. rewrite <-Hm' in Hnext'.
    rewrite (deniedLogs_in_window _ _ _ _ _ clock rl' t0 1 ltac:(lia) Hclock Hnext' i logs Hc).
    rewrite Hm'.
    rewrite (bool_decide_ext (1 + Z.of_nat i < max)%Z (Z.of_nat (S i) < max)%Z) by lia.
    rewrite (bool_decide_ext (1 + Z.of_nat i = Z.max 0 max)%Z
                             (Z.of_nat (S i) = Z.max 0 max)%Z) by lia.
    done.
Qed.

(** Witness for X17: the third denial under a limit of two writes the
    notice. *)
Lemma denied_calls_log_trail_witness :
  (5 - 0 < WINDOW_MS)%Z
  ∧ Forall (λ c, (c.1 - 0 < WINDOW_MS)%Z ∧ (c.2 - 0 < WINDOW_MS)%Z)
           [(10, 11); (20, 21); (30, 31)]%Z
  ∧ deniedLogs "exec" "999111222" (Some "telegram") "guest" None
      ((0, 5) :: [(10, 11); (20, 21); (30, 31)])%Z (Some (create 2)) !! 2
    = Some [RateLimitExceeded "999111222"].
Proof.
  assert (H0 : (5 - 0 < WINDOW_MS)%Z) by (unfold WINDOW_MS; lia).
  assert (H : Forall (λ c, (c.1 - 0 < WINDOW_MS)%Z ∧ (c.2 - 0 < WINDOW_MS)%Z)
                     [(10, 11); (20, 21); (30, 31)]%Z)
    by (unfold WINDOW_MS; repeat constructor; cbn; lia).
  split; [exact H0|]. split; [exact H|].
  assert (Hi : ∃ logs, deniedLogs "exec" "999111222" (Some "telegram") "guest" None
      ((0, 5) :: [(10, 11); (20, 21); (30, 31)])%Z (Some (create 2)) !! 2 = Some logs)
    by (eexists; reflexivity).
  destruct Hi as [logs Hi]. rewrite Hi. f_equal.
  exact (denied_calls_log_trail "exec" "999111222" (Some "telegram") "guest" None
           2 0 5 [(10, 11); (20, 21); (30, 31)]%Z 2 logs H0 H Hi).
Defined.

(** X18.  What the tool hook does when the sender cannot be told.  A call
    without a session key, or with an empty one, gets no verdict, is not
    logged and leaves the limiter alone, whatever the fail-safe says.  A key
    that does not parse is blocked with the fail-safe reason and logged when
    the fail-safe is deny, and gets no verdict when it is allow; the limiter
    is not consulted. *)
Theorem tool_hook_without_sender
    (config : RBACConfig) (toolName : string) (now later : Z)
    (rateLimiter : option RateLimiter) :
  beforeToolCall config toolName None now later rateLimiter = (inr None, [], rateLimiter)
  ∧ beforeToolCall config toolName (Some EmptyString) now later rateLimiter
    = (inr None, [], rateLimiter)
  ∧ (∀ key, key ≠ EmptyString → parseSessionKey key = None →
       beforeToolCall config toolName (Some key) now later rateLimiter
       = match failSafe config with
         | Deny => (inr (Some {| block := true; blockReason := failSafeReason |}),
                    [BlockedUnparsed toolName key], rateLimiter)
         | Allow => (inr None, [], rateLimiter)
         end).
Proof.
  split_and!; [done..|]. intros key Hkey Hparse. unfold beforeToolCall.
  rewrite truthy_nonempty by done. cbn [negb]. by rewrite Hparse.
Qed.

(** Witness for X18: the main session of the agent, under fail-safe deny. *)
Lemma tool_hook_without_sender_witness :
  "agent:main:main" ≠ EmptyString
  ∧ parseSessionKey "agent:main:main" = None
  ∧ beforeToolCall Examples.policy "exec" (Some "agent:main:main") 0 0 None
    = (inr (Some {| block := true; blockReason := failSafeReason |}),
       [BlockedUnparsed "exec" "agent:main:main"], None).
Proof.
  assert (H1 : "agent:main:main" ≠ EmptyString) by discriminate.
  assert (H2 : parseSessionKey "agent:main:main" = None) by reflexivity.
  split; [exact H1|]. split; [exact H2|].
  exact (proj2 (proj2 (tool_hook_without_sender Examples.policy "exec" 0 0 None))
           "agent:main:main" H1 H2).
Defined.

Lemma expandLoop_groups l config config' ex wc :
  toolGroups config = toolGroups config' →
  expandLoop l config ex wc = expandLoop l config' ex wc.
Proof.
  intros Hgroups. revert ex wc.
  induction l as [|entry rest IH]; intros ex wc; cbn [expandLoop]; [done|].
  rewrite <-Hgroups.
  destruct (JS.endsWith entry "_*"); [apply IH|].
  destruct (JS.startsWith entry "@"); [|apply IH].
  destruct (truthyGroup _); [|apply IH]. destruct (spread _); [done|apply IH].
Qed.

(** X19.  How the tool hook settles is a matter of the policy's roles,
    default role, tool groups and fail-safe only: the clock, the limiter, the
    logging switches and the rest of the policy have no part in it.  The
    limiter, for its part, is only ever touched by a denied call with
    [logBlocked] set. *)
Theorem tool_verdict_independent
    (config config' : RBACConfig) (toolName : string) (sessionKey : option string)
    (now later now' later' : Z) (rateLimiter rateLimiter' : option RateLimiter) :
  roles config = roles config' →
  defaultRole config = defaultRole config' →
  toolGroups config = toolGroups config' →
  failSafe config = failSafe config' →
  (beforeToolCall config toolName sessionKey now later rateLimiter).1.1
  = (beforeToolCall config' toolName sessionKey now' later' rateLimiter').1.1
  ∧ ((beforeToolCall config toolName sessionKey now later rateLimiter).1.1 = inr None
     ∨ (beforeToolCall config toolName sessionKey now later rateLimiter).1.1
       = inl NotIterable
     ∨ logBlocked config = false →
     (beforeToolCall config toolName sessionKey now later rateLimiter).2 = rateLimiter).
Proof.
  intros Hroles Hdefault Hgroups Hfail.
  assert (Hres : ∀ p c, resolveRole p c config = resolveRole p c config').
  { intros p c. unfold resolveRole. by rewrite Hroles, Hdefault. }
  assert (Hchk : ∀ t n, checkToolAccess t n config = checkToolAccess t n config').
  { intros t n. unfold checkToolAccess. rewrite <-Hroles.
    destruct (roleAt n (roles config)) as [r| |]; [|done..].
    destruct (tools r) as [|l]; [done|].
    unfold expandTools. by rewrite (expandLoop_groups l config config'). }
  unfold beforeToolCall. destruct sessionKey as [key|]; [|by split].
  destruct (JS.truthy key); cbn [negb]; [|by split].
  destruct (parseSessionKey key) as [parsed|].
  2:{ rewrite <-Hfail. by destruct (failSafe config). }
  rewrite <-Hres, <-Hchk.
  destruct (checkToolAccess toolName _ config) as [err|result]; [by split|].
  destruct (allowed result); cbn [negb].
  - by split.
  - destruct (logBlocked config) eqn:Hlog, (logBlocked config').
    all: repeat match goal with
         | |- context [logDenied ?a ?b ?c ?d ?e ?f ?g ?h] =>
             destruct (logDenied a b c d e f g h)
         end; cbn; split; try done; intros [|[|]]; done.
Qed.

(** Witness for X19 on the sample policy: the same verdict with and
    without a limiter, at different times. *)
Lemma tool_verdict_independent_witness :
  (beforeToolCall Examples.policy "exec" (Some "agent:main:web:direct:555666777")
     0 0 None).1.1
  = (beforeToolCall Examples.policy "exec" (Some "agent:main:web:direct:555666777")
       70000 70001 (Some (create 1))).1.1.
Proof.
  exact (proj1 (tool_verdict_independent Examples.policy Examples.policy "exec"
                  (Some "agent:main:web:direct:555666777") 0 0 70000 70001
                  None (Some (create 1)) eq_refl eq_refl eq_refl eq_refl)).
Defined.

Lemma key_getProp {A} k (fields : list (string * A)) :
  k ∈ fields.*1 → is_Some (getProp k fields).
Proof.
  induction fields as [|[k' v] rest IH]; cbn; [by intros ?%elem_of_nil|].
  destruct (String.eqb k' k) eqn:E; [eauto|].
  intros [->|?]%elem_of_cons; [by rewrite String.eqb_refl in E|auto].
Qed.

(** X20.  With a policy whose default role is one of its own roles, a call
    whose session key parses is judged by the tool list of the resolved role
    alone.  The role is an own role of the policy.  With the wildcard for
    tools the call passes.  With a tool list, the hook rejects with the
    error of the expansion when the list does not expand; otherwise the call
    passes without a verdict when the tool is in the exact bucket or matches
    a pattern of the wildcard bucket, and is blocked with the reason that
    names the role and the tool when not.  The reason for an unknown role
    and the fallback text never reach the caller. *)
Theorem tool_hook_on_valid_policy
    (config : RBACConfig) (toolName key : string) (parsed : ParsedSessionKey)
    (now later : Z) (rateLimiter : option RateLimiter) :
  defaultRole config ∈ (ownRoles (roles config)).*1 →
  parseSessionKey key = Some parsed →
  ∃ r,
    getProp (resolveRole (peerId parsed) (channel parsed) config) (ownRoles (roles config))
    = Some r
    ∧ (beforeToolCall config toolName (Some key) now later rateLimiter).1.1
      = match tools r with
        | Star => inr None
        | Items l =>
            match expandTools l config with
            | inl err => inl err
            | inr e =>
                if JS.includes (exact e) toolName
                   || existsb (wildcardMatches toolName) (wildcards e)
                then inr None
                else inr (Some
                  {| block := true;
                     blockReason :=
                       "Role " +:+ dq
                       +:+ resolveRole (peerId parsed) (channel parsed) config +:+ dq
                       +:+ " does not have access to tool " +:+ dq +:+ toolName +:+ dq |})
            end
        end.
Proof.
  intros Hdefault Hparse.
  set (roleName := resolveRole (peerId parsed) (channel parsed) config).
  assert (Hrole : is_Some (getProp roleName (ownRoles (roles config)))).
  { apply key_getProp. unfold roleName, resolveRole.
    destruct (resolveLoop_key_or_default (peerId parsed) (channel parsed)
                (ownRoles (roles config)) (defaultRole config)) as [H|H];
      [done|by rewrite H]. }
  destruct Hrole as [r Hr]. exists r. split; [done|]. unfold beforeToolCall.
  assert (Hkey : JS.truthy key = true).
  { destruct key; [|done]. discriminate Hparse. }
  rewrite Hkey, Hparse. cbn [negb]. fold roleName.
  unfold checkToolAccess. rewrite (roleAt_own _ _ _ Hr).
  destruct (tools r) as [|l]; [by destruct (logAllowed config)|].
  destruct (expandTools l config) as [err|e]; [done|].
  destruct (JS.includes _ toolName); [by destruct (logAllowed config)|].
  destruct (existsb _ _); [by destruct (logAllowed config)|]. cbn.
  by destruct (logBlocked config); [destruct (logDenied _ _ _ _ _ _ _ _)|].
Qed.

(** Witness for X20 on the sample policy: a guest asking for [exec]. *)
Lemma tool_hook_on_valid_policy_witness :
  defaultRole Examples.policy ∈ (ownRoles (roles Examples.policy)).*1
  ∧ (beforeToolCall Examples.policy "exec" (Some "agent:main:web:direct:555666777")
       0 0 None).1.1
    = inr (Some {| block := true;
                   blockReason := "Role " +:+ dq +:+ "guest" +:+ dq
                                  +:+ " does not have access to tool " +:+ dq
                                  +:+ "exec" +:+ dq |}).
Proof.
  assert (H : defaultRole Examples.policy ∈ (ownRoles (roles Examples.policy)).*1)
    by (apply (bool_decide_unpack _); vm_compute; exact I).
  split; [exact H|].
  destruct (tool_hook_on_valid_policy Examples.policy "exec"
              "agent:main:web:direct:555666777"
              {| peerId := "555666777"; channel := Some "web"; peerKind := Direct |}
              0 0 None H eq_refl) as (r & Hr & Hverdict).
  injection Hr as <-. exact Hverdict.
Defined.

(** X21.  Administrators pass everywhere.  When the role a sender resolves
    to holds the wildcard for tools, the tool guard allows it every tool, the
    tool hook gives no verdict for any call under a session key of that
    sender, and the command hook never arms the pending block for a message
    of that sender. *)
Theorem admin_passes_everywhere
    (config : RBACConfig) (sender : string) (chan : option string) :
  isAdminByTools (resolveRole sender chan config) (roles config) = true →
  (∀ toolName,
     checkToolAccess toolName (resolveRole sender chan config) config
     = inr (allowedResult (resolveRole sender chan config)))
  ∧ (∀ toolName key kind now later rateLimiter,
       parseSessionKey key
       = Some {| peerId := sender; channel := chan; peerKind := kind |} →
       (beforeToolCall config toolName (Some key) now later rateLimiter).1.1 = inr None)
  ∧ (∀ sysCmds content now pendingBlock,
       messageReceived config sysCmds content (Some sender) chan now pendingBlock
       = (pendingBlock, [])).
Proof.
  intros Hadmin.
  assert (Hallowed : ∀ toolName,
    checkToolAccess toolName (resolveRole sender chan config) config
    = inr (allowedResult (resolveRole sender chan config))).
  { intros toolName. unfold isAdminByTools in Hadmin. unfold checkToolAccess.
    destruct (roleAt _ (roles config)) as [r| |]; [|done..]. by destruct (tools r). }
  split_and!; [done| |].
  - intros toolName key kind now later rateLimiter Hparse. unfold beforeToolCall.
    assert (Hkey : JS.truthy key = true) by (destruct key; [discriminate Hparse|done]).
    rewrite Hkey, Hparse. cbn [negb peerId channel]. by rewrite Hallowed.
  - intros sysCmds content now pendingBlock. unfold messageReceived.
    destruct content as [content|]; [|done].
    destruct (negb (JS.truthy content) || _); [done|].
    destruct (matchBlockedCommand content sysCmds) as [command|]; [|done].
    destruct (negb (JS.truthy command)); [done|].
    destruct (negb (JS.truthy sender)); [done|]. by rewrite Hadmin.
Qed.

(** Witness for X21: the administrator of the sample policy sends a
    command outside the allowlist. *)
Lemma admin_passes_everywhere_witness :
  isAdminByTools (resolveRole "408001372" (Some "telegram") Documents.adminPolicy)
                 (roles Documents.adminPolicy) = true
  ∧ messageReceived Documents.adminPolicy Examples.allowlist (Some "/status")
      (Some "408001372") (Some "telegram") 0 None
    = (None, []).
Proof.
  assert (H : isAdminByTools
                (resolveRole "408001372" (Some "telegram") Documents.adminPolicy)
                (roles Documents.adminPolicy) = true) by reflexivity.
  split; [exact H|].
  exact (proj2 (proj2 (admin_passes_everywhere Documents.adminPolicy "408001372"
                         (Some "telegram") H))
           Examples.allowlist (Some "/status") 0%Z None).
Defined.

Lemma trim_empty_content content :
  JS.startsWith (JS.trim content) "/" = true → JS.truthy content = true.
Proof. by destruct content. Qed.

Lemma verdict_truthy command sysCmds result :
  JS.truthy command = true → verdict command sysCmds = Some result →
  JS.truthy result = true.
Proof.
  intros Hc. unfold verdict.
  destruct (bool_decide _ && _); [by intros [= <-]|].
  destruct (mode sysCmds), (JS.includes _ command); by intros [= <-].
Qed.

Lemma matchBlockedCommand_passes_checks content sysCmds command :
  matchBlockedCommand content sysCmds = Some command →
  JS.truthy content = true
  ∧ JS.startsWith (JS.trim content) "/" = true
  ∧ JS.truthy command = true.
Proof.
  unfold matchBlockedCommand.
  destruct (extractCommand (normalize content)) as [head|] eqn:Hextract; [|done].
  destruct (JS.truthy head) eqn:Hhead; [|done]. cbn [negb]. intros Hverdict.
  assert (Hslash : JS.startsWith (JS.trim content) "/" = true).
  { unfold extractCommand in Hextract.
    destruct (JS.startsWith (normalize content) "/") eqn:Hs; [|done].
    unfold normalize in Hs. by rewrite toLowerCase_startsWith_slash in Hs. }
  split_and!; [by apply trim_empty_content|done|by eapply verdict_truthy].
Qed.

(** X22.  The command guard end to end.  When a sender that is not an
    administrator sends a message that [matchBlockedCommand] answers with a
    command, the [message_received] handler arms the pending block whatever
    was pending before, and the next outgoing message is replaced by the
    block response of that command if it is sent at most ten seconds later,
    and goes out unchanged after that; either way the slot is empty
    afterwards.  One line is logged when blocked calls are logged. *)
Theorem guarded_command_replaces_next_reply
    (config : RBACConfig) (sysCmds : SystemCommandsConfig)
    (content sender command : string) (chan : option string)
    (now later : Z) (pendingBlock : option PendingBlock) :
  matchBlockedCommand content sysCmds = Some command →
  JS.truthy sender = true →
  isAdminByTools (resolveRole sender chan config) (roles config) = false →
  messageSending sysCmds later
    (messageReceived config sysCmds (Some content) (Some sender) chan now pendingBlock).1
  = (if (later - now <=? STALE_MS)%Z then Some (getBlockResponse command sysCmds) else None,
     None)
  ∧ (messageReceived config sysCmds (Some content) (Some sender) chan now pendingBlock).2
    = if logBlocked config
      then [GuardedCommand command sender chan (resolveRole sender chan config)]
      else [].
Proof.
  intros Hmatch Hsender Hguest.
  destruct (matchBlockedCommand_passes_checks _ _ _ Hmatch) as (Hcontent & Hslash & Hcommand).
  unfold messageReceived.
  rewrite Hcontent, Hslash, Hmatch, Hcommand, Hsender, Hguest. cbn [negb orb fst snd].
  split; [|done].
  unfold messageSending, setPendingBlock, consumePendingBlock. cbn [timestamp CommandGuard.command].
  rewrite Z.ltb_antisym. destruct (later - now <=? STALE_MS)%Z; cbn [negb]; [|done].
  by rewrite Hcommand.
Qed.

(** Witness for X22: a guest sends [/Status now]; the reply five seconds
    later is replaced. *)
Lemma guarded_command_replaces_next_reply_witness :
  matchBlockedCommand "/Status now" Examples.allowlist = Some "/status"
  ∧ isAdminByTools (resolveRole "555666777" (Some "telegram") Documents.adminPolicy)
                   (roles Documents.adminPolicy) = false
  ∧ messageSending Examples.allowlist 6000
      (messageReceived Documents.adminPolicy Examples.allowlist (Some "/Status now")
         (Some "555666777") (Some "telegram") 1000 None).1
    = (Some "Command not available.", None).
Proof.
  assert (H1 : matchBlockedCommand "/Status now" Examples.allowlist = Some "/status")
    by reflexivity.
  assert (H2 : isAdminByTools
                 (resolveRole "555666777" (Some "telegram") Documents.adminPolicy)
                 (roles Documents.adminPolicy) = false) by reflexivity.
  split; [exact H1|]. split; [exact H2|].
  exact (proj1 (guarded_command_replaces_next_reply Documents.adminPolicy
                  Examples.allowlist "/Status now" "555666777" "/status"
                  (Some "telegram") 1000%Z 6000%Z None H1 eq_refl H2)).
Defined.

(** X23.  The [message_received] handler leaves the pending block as it is
    and logs nothing for a message without content, a message that
    [matchBlockedCommand] lets through (plain text among them), and a message
    whose sender is missing or empty. *)
Theorem other_messages_leave_pending_block
    (config : RBACConfig) (sysCmds : SystemCommandsConfig)
    (content from chan : option string) (now : Z) (pendingBlock : option PendingBlock) :
  content ≫= (λ c, matchBlockedCommand c sysCmds) = None
  ∨ from = None ∨ from = Some EmptyString →
  messageReceived config sysCmds content from chan now pendingBlock = (pendingBlock, []).
Proof.
  intros H. unfold messageReceived.
  destruct content as [content|]; [|done].
  destruct (negb (JS.truthy content) || _); [done|].
  destruct (matchBlockedCommand content sysCmds) as [command|] eqn:Hmatch; [|done].
  destruct (negb (JS.truthy command)); [done|].
  destruct H as [H|[->| ->]]; [|done..].
  change (matchBlockedCommand content sysCmds = None) in H. congruence.
Qed.

(** Witness for X23: plain text from a guest while a block is pending. *)
Lemma other_messages_leave_pending_block_witness :
  messageReceived Documents.adminPolicy Examples.allowlist (Some "what is new?")
    (Some "555666777") (Some "telegram") 2000
    (Some {| CommandGuard.command := "/status"; timestamp := 1000 |})
  = (Some {| CommandGuard.command := "/status"; timestamp := 1000 |}, []).
Proof.
  apply (other_messages_leave_pending_block Documents.adminPolicy Examples.allowlist
           (Some "what is new?") (Some "555666777") (Some "telegram") 2000%Z).
  left. reflexivity.
Defined.

End HookFacts.

(** ** The Telegram command menu *)

Section TelegramMenuFacts.
Import TelegramMenu.

Variable normalizeTelegramCommandName : string → string.
Variable TELEGRAM_COMMAND_NAME_PATTERN : string → bool.

Local Notation "'loop'" :=
  (buildLoop normalizeTelegramCommandName TELEGRAM_COMMAND_NAME_PATTERN).
Local Notation "'build'" :=
  (buildPluginTelegramMenuCommands normalizeTelegramCommandName
     TELEGRAM_COMMAND_NAME_PATTERN).
Local Notation "'accepted'" := (menuCommandOf normalizeTelegramCommandName).

Lemma buildLoop_emits specs cmds iss names existing :
  ∃ new,
    commands (loop specs cmds iss names existing) = cmds ++ new
    ∧ length new + length (issues (loop specs cmds iss names existing))
      = length specs + length iss
    ∧ NoDup (command <$> new)
    ∧ Forall (λ c, JS.truthy (command c) = true
                   ∧ TELEGRAM_COMMAND_NAME_PATTERN (command c) = true
                   ∧ JS.truthy (description c) = true
                   ∧ command c ∉ existing) new
    ∧ existingAfter (loop specs cmds iss names existing)
      = existing ∪ list_to_set (command <$> new).
Proof.
  revert cmds iss names existing.
  induction specs as [|spec rest IH]; intros cmds iss names existing.
  { exists []. cbn. rewrite app_nil_r. split_and!; try done; [constructor|].
    by rewrite (right_id_L ∅ (∪)). }
  cbn [buildLoop].
  pose (normalized := normalizeTelegramCommandName (name spec)).
  assert (Hskip : ∀ issue, ∃ new,
    commands (loop rest cmds (iss ++ [issue]) names existing) = cmds ++ new
    ∧ length new + length (issues (loop rest cmds (iss ++ [issue]) names existing))
      = length (spec :: rest) + length iss
    ∧ NoDup (command <$> new)
    ∧ Forall (λ c, JS.truthy (command c) = true
                   ∧ TELEGRAM_COMMAND_NAME_PATTERN (command c) = true
                   ∧ JS.truthy (description c) = true
                   ∧ command c ∉ existing) new
    ∧ existingAfter (loop rest cmds (iss ++ [issue]) names existing)
      = existing ∪ list_to_set (command <$> new)).
  { intros issue. destruct (IH cmds (iss ++ [issue]) names existing)
      as (new & H1 & H2 & H3 & H4 & H5).
    exists new. split_and!; try done. rewrite H2, length_app. cbn. lia. }
  fold normalized.
  destruct (JS.truthy normalized) eqn:Hname; cbn [negb orb]; [|apply Hskip].
  destruct (TELEGRAM_COMMAND_NAME_PATTERN normalized) eqn:Hpattern; cbn [negb];
    [|apply Hskip].
  destruct (JS.truthy (JS.trim (specDescription spec))) eqn:Hdescription; cbn [negb];
    [|apply Hskip].
  case_bool_decide as Hexisting; [case_bool_decide; apply Hskip|].
  destruct (IH (cmds ++ [accepted spec]) iss ({[normalized]} ∪ names)
              ({[normalized]} ∪ existing)) as (new & H1 & H2 & H3 & H4 & H5).
  change (JS.trim (specDescription spec)) with (description (accepted spec)).
  change {| command := normalized; description := description (accepted spec) |}
    with (accepted spec).
  exists (accepted spec :: new). split_and!.
  - by rewrite H1, <-app_assoc.
  - cbn. lia.
  - cbn. constructor; [|done]. intros (c & Hc & Hin)%list_elem_of_fmap.
    rewrite Forall_forall in H4. destruct (H4 c Hin) as (_ & _ & _ & Hfresh).
    apply Hfresh. rewrite <-Hc. apply elem_of_union_l, elem_of_singleton. done.
  - constructor; [done|]. eapply Forall_impl; [exact H4|].
    intros c (? & ? & ? & Hc). split_and!; try done.
    intros ?. apply Hc. by apply elem_of_union_r.
  - rewrite H5. cbn [fmap list_fmap list_to_set].
    by rewrite (comm_L (∪) {[normalized]} existing), <-(assoc_L (∪)).
Qed.

Lemma buildLoop_accepts_all specs cmds iss names existing :
  Forall (λ spec, JS.truthy (normalizeTelegramCommandName (name spec)) = true
                  ∧ TELEGRAM_COMMAND_NAME_PATTERN (normalizeTelegramCommandName (name spec))
                    = true
                  ∧ JS.truthy (JS.trim (specDescription spec)) = true) specs →
  NoDup ((λ spec, normalizeTelegramCommandName (name spec)) <$> specs) →
  (∀ spec, spec ∈ specs → normalizeTelegramCommandName (name spec) ∉ existing) →
  commands (loop specs cmds iss names existing) = cmds ++ (accepted <$> specs)
  ∧ issues (loop specs cmds iss names existing) = iss.
Proof.
  revert cmds iss names existing.
  induction specs as [|spec rest IH]; intros cmds iss names existing Hvalid Hdistinct Hfresh.
  { cbn. by rewrite app_nil_r. }
  cbn [buildLoop].
  apply Forall_cons in Hvalid as [(Hname & Hpattern & Hdescription) Hvalid].
  rewrite Hname, Hpattern, Hdescription. cbn [negb orb].
  rewrite bool_decide_eq_false_2 by (apply Hfresh; left).
  cbn [fmap list_fmap] in Hdistinct. apply NoDup_cons in Hdistinct as [Hhead Hdistinct].
  destruct (IH (cmds ++ [accepted spec]) iss
              ({[normalizeTelegramCommandName (name spec)]} ∪ names)
              ({[normalizeTelegramCommandName (name spec)]} ∪ existing))
    as [H1 H2]; [done..| |].
  { intros spec' Hin. apply not_elem_of_union. split; [|apply Hfresh; by right].
    apply not_elem_of_singleton. intros Heq. apply Hhead. rewrite <-Heq.
    apply list_elem_of_fmap. by exists spec'. }
  change {| command := normalizeTelegramCommandName (name spec);
            description := JS.trim (specDescription spec) |} with (accepted spec).
  rewrite H1, H2. by rewrite <-app_assoc.
Qed.

(** X24.  What [buildPluginTelegramMenuCommands] returns, for any name
    normalizer and name pattern.  Every spec gives either one menu command or
    one issue.  The menu commands have pairwise distinct names; each name is
    non-empty, passes the name pattern and was not among the existing
    commands, and each description is non-empty.  The caller's set of
    existing commands ends up extended by exactly the names of the menu
    commands. *)
Theorem plugin_menu_commands_sound
    (specs : list TelegramPluginCommandSpec) (existingCommands : gset string) :
  length (commands (build specs existingCommands))
  + length (issues (build specs existingCommands)) = length specs
  ∧ NoDup (command <$> commands (build specs existingCommands))
  ∧ Forall (λ c, JS.truthy (command c) = true
                 ∧ TELEGRAM_COMMAND_NAME_PATTERN (command c) = true
                 ∧ JS.truthy (description c) = true
                 ∧ command c ∉ existingCommands)
           (commands (build specs existingCommands))
  ∧ existingAfter (build specs existingCommands)
    = existingCommands ∪ list_to_set (command <$> commands (build specs existingCommands)).
Proof.
  unfold buildPluginTelegramMenuCommands.
  destruct (buildLoop_emits specs [] [] ∅ existingCommands) as (new & H1 & H2 & H3 & H4 & H5).
  rewrite H1, H5. cbn [app]. split_and!; try done. cbn in H2. lia.
Qed.

(** X25.  When every spec has a name that normalizes to a non-empty string
    passing the name pattern and a description with something besides white
    space, the normalized names are pairwise distinct and none of them is an
    existing command, then no issue is reported and the menu commands are
    the specs in their order, each with its normalized name and trimmed
    description. *)
Theorem plugin_menu_commands_complete
    (specs : list TelegramPluginCommandSpec) (existingCommands : gset string) :
  Forall (λ spec, JS.truthy (normalizeTelegramCommandName (name spec)) = true
                  ∧ TELEGRAM_COMMAND_NAME_PATTERN (normalizeTelegramCommandName (name spec))
                    = true
                  ∧ JS.truthy (JS.trim (specDescription spec)) = true) specs →
  NoDup ((λ spec, normalizeTelegramCommandName (name spec)) <$> specs) →
  (∀ spec, spec ∈ specs → normalizeTelegramCommandName (name spec) ∉ existingCommands) →
  commands (build specs existingCommands) = accepted <$> specs
  ∧ issues (build specs existingCommands) = [].
Proof.
  intros Hvalid Hdistinct Hfresh. unfold buildPluginTelegramMenuCommands.
  by destruct (buildLoop_accepts_all specs [] [] ∅ existingCommands Hvalid Hdistinct Hfresh).
Qed.

End TelegramMenuFacts.

Section TelegramExamples.
Import TelegramMenu.

(** Witness for X25, with the normalizer and the pattern as the
    specification describes them. *)
Lemma plugin_menu_commands_complete_witness :
  commands (buildPluginTelegramMenuCommands normalizeName namePattern
              [ {| name := "/News"; specDescription := " Latest news " |};
                {| name := "subscribe"; specDescription := "Subscribe" |} ]
              {[ "start" ]})
  = [ {| command := "news"; description := "Latest news" |};
      {| command := "subscribe"; description := "Subscribe" |} ].
Proof.
  refine (proj1 (plugin_menu_commands_complete normalizeName namePattern
                   [ {| name := "/News"; specDescription := " Latest news " |};
                     {| name := "subscribe"; specDescription := "Subscribe" |} ]
                   {[ "start" ]} _ _ _)).
  - repeat constructor.
  - apply (bool_decide_unpack _). vm_compute. exact I.
  - intros spec Hin. apply (bool_decide_unpack _).
    apply elem_of_cons in Hin as [->|Hin]; [vm_compute; exact I|].
    apply elem_of_cons in Hin as [->|Hin]; [vm_compute; exact I|].
    by apply elem_of_nil in Hin.
Defined.

(** X26.  [buildCappedTelegramMenuCommands] with no cap given or a cap that
    is not negative.  The commands to register are the first [maxCommands]
    of all commands, so there are as many as the smaller of the total and
    the cap; together with the overflow count they make up the total.  With
    no cap given the cap is 100. *)
Theorem capped_menu_partition
    (allCommands : list TelegramMenuCommand) (maxCommandsParam : option Z) :
  (∀ max, maxCommandsParam = Some max → (0 ≤ max)%Z) →
  commandsToRegister (buildCappedTelegramMenuCommands allCommands maxCommandsParam)
  = take (Z.to_nat (maxCommands (buildCappedTelegramMenuCommands allCommands
                                   maxCommandsParam))) allCommands
  ∧ Z.of_nat (length (commandsToRegister
                        (buildCappedTelegramMenuCommands allCommands maxCommandsParam)))
    = Z.min (Z.of_nat (length allCommands))
            (maxCommands (buildCappedTelegramMenuCommands allCommands maxCommandsParam))
  ∧ (Z.of_nat (length (commandsToRegister
                         (buildCappedTelegramMenuCommands allCommands maxCommandsParam)))
     + overflowCount (buildCappedTelegramMenuCommands allCommands maxCommandsParam)
     = totalCommands (buildCappedTelegramMenuCommands allCommands maxCommandsParam))%Z
  ∧ (maxCommandsParam = None →
     maxCommands (buildCappedTelegramMenuCommands allCommands maxCommandsParam) = 100%Z).
Proof.
  intros Hcap. unfold buildCappedTelegramMenuCommands. cbn.
  set (max := default TELEGRAM_MAX_COMMANDS maxCommandsParam).
  assert (Hmax : (0 ≤ max)%Z).
  { unfold max. destruct maxCommandsParam as [m|]; [by apply Hcap|done]. }
  unfold sliceTo. rewrite (proj2 (Z.ltb_ge max 0)) by done.
  rewrite length_take. split_and!; [done|lia|lia|].
  intros ->. done.
Qed.

(** Witness for X26: three commands under a cap of two. *)
Lemma capped_menu_partition_witness :
  commandsToRegister
    (buildCappedTelegramMenuCommands
       [ {| command := "news"; description := "Latest news" |};
         {| command := "subscribe"; description := "Subscribe" |};
         {| command := "about"; description := "About" |} ] (Some 2%Z))
  = [ {| command := "news"; description := "Latest news" |};
      {| command := "subscribe"; description := "Subscribe" |} ].
Proof.
  refine (proj1 (capped_menu_partition
                   [ {| command := "news"; description := "Latest news" |};
                     {| command := "subscribe"; description := "Subscribe" |};
                     {| command := "about"; description := "About" |} ] (Some 2%Z) _)).
  intros max [= <-]. lia.
Defined.

End TelegramExamples.

(** ** The native command guard against the plugin's command guard *)

Section NativeGuardFacts.
Import Config Notions CommandGuard NativeGuard.

Variable String_ : JValue → string.

Ltac result_step :=
  cbn [assertObject mbind mret result_bind result_ret throw].

Lemma parse_roles_object fields config :
  parse (JObj fields) = inr config → truthy (get "roles" fields) = true.
Proof.
  unfold parse. result_step. by destruct (get "roles" fields).
Qed.

Lemma checked_list value :
  negb (isNullish value) && negb (bool_decide (is_Some (stringArray value))) = false →
  isNullish value = true ∨ is_Some (stringArray value).
Proof.
  intros [H|H]%andb_false_iff.
  - left. by apply negb_false_iff.
  - right. by apply negb_false_iff, bool_decide_eq_true in H.
Qed.

(** How the fields of loaded command-guard settings relate to the members
    of the document they were read from. *)
Lemma parseSystemCommands_shape value sc :
  parseSystemCommands value = inr (Some sc) →
  ∃ sys,
    value = JObj sys
    ∧ (get "mode" sys = JUndefined ∧ mode sc = Blocklist
       ∨ get "mode" sys = JStr "blocklist" ∧ mode sc = Blocklist
       ∨ get "mode" sys = JStr "allowlist" ∧ mode sc = Allowlist)
    ∧ Config.blocked sc = commandsOf (get "blocked" sys)
    ∧ allowed sc = commandsOf (get "allowed" sys)
    ∧ (isNullish (get "blocked" sys) = true ∨ is_Some (stringArray (get "blocked" sys)))
    ∧ (isNullish (get "allowed" sys) = true ∨ is_Some (stringArray (get "allowed" sys)))
    ∧ (isNullish (get "guestHelp" sys) = true ∧ guestHelp sc = None
       ∨ ∃ text, get "guestHelp" sys = JStr text ∧ guestHelp sc = Some text)
    ∧ get "blockResponse" sys = JStr (blockResponse sc).
Proof.
  unfold parseSystemCommands. destruct (isNullish value); [done|].
  destruct value as [| | | | | |sys]; try done. result_step. intros H. exists sys.
  destruct (parseMode (get "mode" sys)) as [|m] eqn:Hmode; [done|]. revert H. result_step.
  assert (Hm : get "mode" sys = JUndefined ∧ m = Blocklist
               ∨ get "mode" sys = JStr "blocklist" ∧ m = Blocklist
               ∨ get "mode" sys = JStr "allowlist" ∧ m = Allowlist).
  { unfold parseMode in Hmode. destruct (get "mode" sys) as [| | | |text| |]; try done.
    - left. by injection Hmode as <-.
    - destruct (String.eqb text "blocklist") eqn:E1.
      { apply String.eqb_eq in E1 as ->. right; left. by injection Hmode as <-. }
      destruct (String.eqb text "allowlist") eqn:E2; [|done].
      apply String.eqb_eq in E2 as ->. right; right. by injection Hmode as <-. }
  destruct (negb (isNullish (get "blocked" sys)) && _) eqn:Hb; [done|]. result_step.
  apply checked_list in Hb.
  destruct m.
  - destruct (get "blocked" sys) as [| | | | |[|x xs]|] eqn:Hraw; try done. result_step.
    destruct (negb (isNullish (get "allowed" sys)) && _) eqn:Ha; [done|]. result_step.
    apply checked_list in Ha.
    destruct (get "guestHelp" sys) as [| | | |help| |] eqn:Hhelp; try done; result_step.
    all: destruct (get "blockResponse" sys) as [| | | |text| |]; try done; result_step.
    all: intros [= <-]; cbn; split_and!; eauto.
  - result_step.
    destruct (negb (isNullish (get "allowed" sys)) && _) eqn:Ha; [done|]. result_step.
    apply checked_list in Ha.
    destruct (isArray (get "allowed" sys)); [|done]. result_step.
    destruct (get "guestHelp" sys) as [| | | |help| |] eqn:Hhelp; try done; result_step.
    all: destruct (get "blockResponse" sys) as [| | | |text| |]; try done; result_step.
    all: intros [= <-]; cbn; split_and!; eauto.
Qed.

Lemma normalizeCommands_normal_list l :
  Forall normalCommand l → normalizeCommands l = l.
Proof.
  unfold normalizeCommands. induction 1 as [|c l (Hslash & Hlower & Htrim) _ IH]; [done|].
  cbn [fmap list_fmap] in *. rewrite IH. f_equal. by rewrite Hlower, Htrim, Hslash.
Qed.

Lemma arrayIncludes_strings items l x :
  mapM (λ v, match v with JStr s => Some s | _ => None end) items = Some l →
  arrayIncludes (JArr items) x = JS.includes l x.
Proof.
  revert l. induction items as [|v items IH]; intros l.
  { intros [= <-]. cbn. unfold JS.includes. by rewrite bool_decide_eq_false_2
      by apply not_elem_of_nil. }
  cbn [mapM]. destruct v as [| | | |s| |]; try done. cbn [mbind option_bind].
  destruct (mapM _ items) as [l'|]; [|done]. cbn [mbind option_bind mret option_ret fmap option_fmap option_map].
  intros [= <-]. cbn [arrayIncludes existsb] in *. rewrite (IH l' eq_refl).
  unfold JS.includes. destruct (String.eqb s x) eqn:E.
  - apply String.eqb_eq in E as ->. cbn. symmetry. apply bool_decide_eq_true. by left.
  - apply String.eqb_neq in E. cbn. apply bool_decide_ext.
    rewrite elem_of_cons. split; [by right|]. by intros [Heq|?]; [subst|].
Qed.

(** The test of the native guard against a raw list is the test of the
    plugin against the stored list when the raw list is in normal form. *)
Lemma arrayIncludes_commandsOf value x :
  isNullish value = true ∨ is_Some (stringArray value) →
  (∀ l, stringArray value = Some l → Forall normalCommand l) →
  arrayIncludes value x = JS.includes (commandsOf value) x.
Proof.
  intros [Hnull|[l Hl]] Hnormal.
  - by destruct value.
  - unfold commandsOf. rewrite Hl, (normalizeCommands_normal_list l) by auto.
    destruct value as [| | | | |items|]; try done. by apply arrayIncludes_strings.
Qed.

Lemma matchBlockedCommand_normal command sc :
  normalCommand command → JS.indexOf " "%char command = None →
  matchBlockedCommand command sc = verdict command sc.
Proof.
  intros (Hslash & Hlower & Htrim) Hspace. rewrite matchBlockedCommand_unfold.
  unfold normalize. rewrite Htrim, Hlower, Hslash. by rewrite headUpToSpace_whole.
Qed.

(** X27.  The native guard of the host and the command guard of the plugin
    agree on a command in normal form without a space, for a sender outside
    the [users] list of the role [admin], when the plugin configuration
    loads, its blocked and allowed lists are written in normal form and its
    guest help is not the empty string: the native guard blocks exactly when
    [matchBlockedCommand] answers with a command, and its response is the
    block response of the plugin for that command. *)
Theorem native_guard_agrees_with_plugin
    (cfg fields : list (string * JValue)) (config : RBACConfig)
    (sc : SystemCommandsConfig) (senderId command : string) :
  (∀ s, String_ (JStr s) = s) →
  member "config" (member "rbac" (member "entries" (get "plugins" cfg))) = JObj fields →
  parse (JObj fields) = inr config →
  systemCommands config = Some sc →
  (∀ k l, k ∈ ["blocked"; "allowed"] →
          stringArray (member k (get "systemCommands" fields)) = Some l →
          Forall normalCommand l) →
  guestHelp sc ≠ Some EmptyString →
  arrayIncludes (member "users" (member "admin" (get "roles" fields))) senderId = false →
  normalCommand command →
  JS.indexOf " "%char command = None →
  checkRbacCommand String_ cfg senderId command
  = {| isAdmin := false;
       NativeGuard.blocked := bool_decide (is_Some (matchBlockedCommand command sc));
       response := (λ c, getBlockResponse c sc) <$> matchBlockedCommand command sc |}.
Proof.
  intros HString Hpath Hparse Hsome Hlists Hhelp Hadmin Hnormal Hspace.
  pose proof (parse_roles_object _ _ Hparse) as Hroles.
  apply parse_inr_inv in Hparse as (? & [= <-] & _ & _ & _ & _ & _ & Hsc & _).
  rewrite Hsome in Hsc.
  apply parseSystemCommands_shape in Hsc
    as (sys & Hsys & Hmode & Hb & Ha & Hbl & Hal & Hgh & Hbr).
  rewrite matchBlockedCommand_normal by done.
  unfold checkRbacCommand. rewrite Hpath. cbn [member]. rewrite Hroles. cbn [negb].
  rewrite Hadmin, Hsys in *. cbn [truthy negb member] in *.
  destruct Hnormal as (Hslash & Hlower & Htrim). rewrite Hlower.
  rewrite (arrayIncludes_commandsOf (get "blocked" sys) command),
    (arrayIncludes_commandsOf (get "allowed" sys) command), <-Hb, <-Ha, Hbr;
    [|done|by intros l; apply Hlists; right; left|done|by intros l; apply Hlists; left].
  cbn [orElse isNullish]. rewrite HString.
  unfold verdict, getBlockResponse.
  assert (Hguest : truthy (get "guestHelp" sys) = bool_decide (is_Some (guestHelp sc))
                   ∧ ∀ text, guestHelp sc = Some text →
                             String_ (get "guestHelp" sys) = text).
  { destruct Hgh as [[Hnull Hnone]|(text & Hraw & Hloaded)].
    - rewrite Hnone. split; [|done]. by destruct (get "guestHelp" sys).
    - rewrite Hraw, Hloaded. split; [|by intros ? [= <-]].
      destruct text; [by rewrite Hloaded in Hhelp|done]. }
  destruct Hguest as [-> Htext].
  rewrite (andb_comm (String.eqb command "/help")).
  assert (Hhelped : ∀ help, guestHelp sc = Some help →
            bool_decide (is_Some (guestHelp sc)) = true) by (intros ? ->; done).
  destruct Hmode as [[Hm Hmd]|[[Hm Hmd]|[Hm Hmd]]]; rewrite Hm, Hmd;
    cbn [orElse isNullish].
  all: destruct (guestHelp sc) as [help|];
    [rewrite (Htext help eq_refl), (Hhelped help eq_refl)|
     rewrite (bool_decide_eq_false_2 (is_Some None)) by (by intros [? ?])].
  all: destruct (String.eqb command "/help") eqn:E; cbn -[JS.includes].
  all: destruct (JS.includes _ command); cbn; rewrite ?E; done.
Qed.

(** X28.  Invariants of every answer of [checkRbacCommand]: a response is
    given exactly when the command is blocked, a sender reported as
    administrator is never blocked, and the answer does not depend on the
    case of the letters of the command. *)
Theorem native_guard_invariants
    (cfg : list (string * JValue)) (senderId command : string) :
  (NativeGuard.blocked (checkRbacCommand String_ cfg senderId command) = true
   ↔ is_Some (response (checkRbacCommand String_ cfg senderId command)))
  ∧ (isAdmin (checkRbacCommand String_ cfg senderId command) = true →
     NativeGuard.blocked (checkRbacCommand String_ cfg senderId command) = false)
  ∧ checkRbacCommand String_ cfg senderId (JS.toLowerCase command)
    = checkRbacCommand String_ cfg senderId command.
Proof.
  unfold checkRbacCommand. rewrite toLowerCase_idemp.
  destruct (negb (truthy _)); [by split_and!; [split; [|intros []]| |]|].
  destruct (arrayIncludes _ senderId); [by split_and!; [split; [|intros []]| |]|].
  destruct (negb (truthy _)); [by split_and!; [split; [|intros []]| |]|].
  destruct (negb _); cbn; [by split_and!; [split; [|intros []]| |]|].
  split_and!; [split; eauto|done..].
Qed.

End NativeGuardFacts.

Section NativeGuardExamples.
Import Config Notions CommandGuard NativeGuard.

Lemma guardedDoc_loads : parse (JObj Documents.guardedFields) = inr Documents.adminPolicy.
Proof. vm_compute. reflexivity. Qed.

Lemma guardedDoc_lists (k : string) (l : list string) :
  k ∈ ["blocked"; "allowed"] →
  stringArray (member k (get "systemCommands" Documents.guardedFields)) = Some l →
  Forall normalCommand l.
Proof.
  intros Hk. apply elem_of_cons in Hk as [->|Hk]; [done|].
  apply elem_of_cons in Hk as [->|Hk]; [|by apply elem_of_nil in Hk].
  intros [= <-]. by repeat constructor.
Qed.

(** Witness for X27: a guest sends [/status] under the allowlist of the
    guarded document. *)
Lemma native_guard_agrees_with_plugin_witness :
  checkRbacCommand stringOf Documents.hostConfig "555666777" "/status"
  = {| isAdmin := false;
       NativeGuard.blocked :=
         bool_decide (is_Some (matchBlockedCommand "/status" Examples.allowlist));
       response := (λ c, getBlockResponse c Examples.allowlist)
                   <$> matchBlockedCommand "/status" Examples.allowlist |}.
Proof.
  refine (native_guard_agrees_with_plugin stringOf Documents.hostConfig
            Documents.guardedFields Documents.adminPolicy Examples.allowlist
            "555666777" "/status" (λ s, eq_refl) eq_refl guardedDoc_loads eq_refl
            guardedDoc_lists _ eq_refl _ eq_refl).
  - discriminate.
  - repeat split.
Defined.

End NativeGuardExamples.
